(** * recc: path utilities, retry driver, remote execution client and
    environment parsing, embedded from the C++ sources and verified.

    Conventions of the embedding.

    - [std::string] and [const char *] values are Rocq [string]s.  A
      [const char *] is represented by the characters before its
      terminating NUL; reading the terminator yields ["000"], which is what
      [char_at] returns at index [length s].  [c_string s] says that [s]
      contains no NUL, which every value of type [const char *] satisfies.
    - [std::vector<std::string>] is a [list string] with [push_back] as
      [l ++ [x]], [pop_back] as [removelast] and [back] as [last].
    - [std::map] / [std::set] are stdpp's [gmap] / [gset].
    - [unsigned int] indices into a string are [nat]: they are bounded by
      the length of an in-memory string and never wrap.  [int] values are
      in [Z]; signed overflow is undefined in C++ and is not modelled.
    - Pure code that may throw returns a [Cpp.result].  Code that acts on
      the process (RPCs, sleeps, logs, [exit]) is written in the monad
      [Cpp.M] of state and outcome; the [trace] of the state records the
      calls of the wrapped RPC, the sleeps, the refreshes of the auth
      session, the cancellation requests and the logs at error, warning
      and default level (verbose logs are left out).
    - Loops that the C++ writes as [while] are fuelled fixpoints whose
      wrappers supply enough fuel; the facts named [*_fuel] and
      [normalize_loop_run] say so. *)

From Stdlib Require Import ZArith Ascii String DecimalString.
From stdpp Require Import base option list functions gmap strings.

Local Open Scope Z_scope.
Local Open Scope nat_scope.

(* ===================================================================== *)
(** ** Control effects of the C++: exceptions, [exit], process state *)
(* ===================================================================== *)

Module Cpp.

(** Exceptions thrown by the modelled code. *)
Inductive exn :=
  | logic_error (what : string)
  | runtime_error (what : string)
  | out_of_range (what : string).

(** A pure computation that may throw. *)
Inductive result (A : Type) :=
  | Ok (a : A)
  | Throw (e : exn).
Arguments Ok {A} a.
Arguments Throw {A} e.

(** How a call on the process state ends: with a value, with an exception
    propagating, with the process gone through [exit(code)], or not at
    all. *)
Inductive outcome (R : Type) :=
  | Val (r : R)
  | Exc (e : exn)
  | Exit (code : Z)
  | Diverge.
Arguments Val {R} r.
Arguments Exc {R} e.
Arguments Exit {R} code.
Arguments Diverge {R}.

(** Calls that read and write a process state [Σ]. *)
Definition M (Σ R : Type) : Type := Σ → outcome R * Σ.

Definition ret {Σ R} (r : R) : M Σ R := λ σ, (Val r, σ).

Definition bind {Σ R Q} (k : R → M Σ Q) (m : M Σ R) : M Σ Q :=
  λ σ, match m σ with
       | (Val r, σ') => k r σ'
       | (Exc e, σ') => (Exc e, σ')
       | (Exit c, σ') => (Exit c, σ')
       | (Diverge, σ') => (Diverge, σ')
       end.

Definition throw {Σ R} (e : exn) : M Σ R := λ σ, (Exc e, σ).
Definition exit {Σ R} (code : Z) : M Σ R := λ σ, (Exit code, σ).
Definition diverge {Σ R} : M Σ R := λ σ, (Diverge, σ).
Definition gets {Σ R} (f : Σ → R) : M Σ R := λ σ, (Val (f σ), σ).
Definition modify {Σ} (f : Σ → Σ) : M Σ unit := λ σ, (Val tt, f σ).

(** A pure throwing computation run inside [M]. *)
Definition lift {Σ R} (r : result R) : M Σ R :=
  match r with
  | Ok a => ret a
  | Throw e => throw e
  end.

#[global] Instance M_ret {Σ} : MRet (M Σ) := λ R, @ret Σ R.
#[global] Instance M_bind {Σ} : MBind (M Σ) := λ R Q, @bind Σ R Q.

(** [std::to_string] on an [int]. *)
Definition to_string (z : Z) : string :=
  NilEmpty.string_of_int (Z.to_int z).

(** The range of [int]. *)
Definition INT_MIN : Z := (-2147483648)%Z.
Definition INT_MAX : Z := 2147483647%Z.

End Cpp.

(* ===================================================================== *)
(** ** String primitives used by the sources *)
(* ===================================================================== *)

Module Str.

Definition NUL : ascii := "000"%char.
Definition SLASH : ascii := "/"%char.
Definition DOT : ascii := "."%char.

(** [s[i]]: the character at [i], the terminator at (and, in the model,
    past) the end. *)
Definition char_at (s : string) (i : nat) : ascii :=
  match String.get i s with
  | Some c => c
  | None => NUL
  end.

(** [s.front()] on a non-empty string; NUL on the empty one. *)
Definition front (s : string) : ascii := char_at s 0.

(** [s.back()]: the last character (NUL for the empty string, where the
    C++ is undefined and the sources guard the call). *)
Fixpoint back (s : string) : ascii :=
  match s with
  | EmptyString => NUL
  | String c EmptyString => c
  | String _ s' => back s'
  end.

Definition empty (s : string) : bool :=
  match s with EmptyString => true | _ => false end.

(** [s.substr(pos)] for [pos <= size]. *)
Fixpoint drop (n : nat) (s : string) : string :=
  match n, s with
  | O, _ => s
  | S n', String _ s' => drop n' s'
  | S _, EmptyString => EmptyString
  end.

(** [s.substr(0, n)] / [std::string(p, n)]. *)
Fixpoint take (n : nat) (s : string) : string :=
  match n, s with
  | S n', String c s' => String c (take n' s')
  | _, _ => EmptyString
  end.

(** [s.pop_back()]. *)
Fixpoint pop_back (s : string) : string :=
  match s with
  | EmptyString => EmptyString
  | String c EmptyString => EmptyString
  | String c s' => String c (pop_back s')
  end.

(** [s.push_back(c)]. *)
Definition push_back (s : string) (c : ascii) : string :=
  s +:+ String c EmptyString.

(** [std::string(n, c)]. *)
Fixpoint fill (n : nat) (c : ascii) : string :=
  match n with
  | O => EmptyString
  | S n' => String c (fill n' c)
  end.

(** [s[i] = c] for [i < size]; no change out of range. *)
Fixpoint set_at (s : string) (i : nat) (c : ascii) : string :=
  match s, i with
  | EmptyString, _ => EmptyString
  | String _ s', O => String c s'
  | String d s', S i' => String d (set_at s' i' c)
  end.

(** [strchr(s, c)]: offset of the first [c], if any. *)
Fixpoint strchr (s : string) (c : ascii) : option nat :=
  match s with
  | EmptyString => None
  | String d s' =>
      if Ascii.eqb d c then Some 0 else S <$> strchr s' c
  end.

(** [strncmp(a, b, n) == 0]: the first [n] characters agree (a shorter
    string only agrees with an equally short one). *)
Definition strncmp_eq (a b : string) (n : nat) : bool :=
  String.eqb (take n a) (take n b).

(** Membership of a character. *)
Fixpoint mem (c : ascii) (s : string) : bool :=
  match s with
  | EmptyString => false
  | String d s' => Ascii.eqb d c || mem c s'
  end.

(** A value a [const char *] can hold: no embedded terminator. *)
Definition c_string (s : string) : Prop := mem NUL s = false.

End Str.

(* ===================================================================== *)
(** ** fileutils.cpp *)
(* ===================================================================== *)

Module FileUtils.
Import Cpp Str.

(** One iteration body of the segment loop of [normalize_path]: what
    happens to [segments] for the segment just cut out. *)
Definition normalize_step (segment : string) (segments : list string)
  : list string :=
  if String.eqb segment ".." && negb (bool_decide (segments = []))
     && negb (bool_decide (last segments = Some ".."))
  then removelast segments
  else if negb (String.eqb segment ".") && negb (String.eqb segment "")
  then segments ++ [segment]
  else segments.

(** The [while (path[0] != '\0')] loop of [normalize_path]. *)
Fixpoint normalize_loop (fuel : nat) (path : string) (segments : list string)
  : list string :=
  match fuel with
  | O => segments
  | S fuel' =>
      if empty path then segments
      else
        match strchr path SLASH with
        | None => normalize_step path segments
        | Some k =>
            normalize_loop fuel' (drop (S k) path)
                           (normalize_step (take k path) segments)
        end
  end.

(** [for (segment : segments) result += segment + "/"]. *)
Definition append_segments (result : string) (segments : list string)
  : string :=
  foldl (fun r segment => r +:+ (segment +:+ "/")) result segments.

Definition normalize_path (path : string) : string :=
  let segments := normalize_loop (S (String.length path)) path [] in
  let global := Ascii.eqb (char_at path 0) SLASH in
  let result := if global then "/" else "" in
  match segments with
  | [] => result
  | _ => pop_back (append_segments result segments)
  end.

Definition has_path_prefix (path prefix : string) : bool :=
  if empty prefix then false
  else if String.eqb path prefix then true
  else
    let prefix' :=
      if negb (Ascii.eqb (back prefix) SLASH) then push_back prefix SLASH
      else prefix in
    String.eqb (take (String.length prefix') path) prefix'.

(** Outcome of the prefix-matching loop of [make_path_relative]: it
    either returns from the function or leaves the loop with the current
    [i] and [lastMatchingSegmentEnd]. *)
Inductive match_exit :=
  | Return (s : string)
  | Fall (i lastMatchingSegmentEnd : nat).

(** [while (i < path.length() && path[i] == workingDirectory[i])]. *)
Fixpoint match_loop (fuel : nat) (path wd : string)
    (i lastMatchingSegmentEnd : nat) : match_exit :=
  match fuel with
  | O => Fall i lastMatchingSegmentEnd
  | S fuel' =>
      if (i <? String.length path)
         && Ascii.eqb (char_at path i) (char_at wd i)
      then
        if Ascii.eqb (char_at wd (i + 1)) NUL then
          if String.length path =? i + 1 then
            Return (if Ascii.eqb (char_at path i) SLASH then "./" else ".")
          else if (String.length path =? i + 2)
                  && Ascii.eqb (char_at path (i + 1)) SLASH then
            Return "./"
          else if Ascii.eqb (char_at path i) SLASH then
            Return (drop (i + 1) path)
          else if Ascii.eqb (char_at path (i + 1)) SLASH then
            Return (drop (i + 2) path)
          else match_loop fuel' path wd (S i) lastMatchingSegmentEnd
        else if Ascii.eqb (char_at path i) SLASH then
          match_loop fuel' path wd (S i) i
        else match_loop fuel' path wd (S i) lastMatchingSegmentEnd
      else Fall i lastMatchingSegmentEnd
  end.

(** [while (workingDirectory[i] != 0)], counting the segments of the
    working directory that are left. *)
Fixpoint count_dotdots (fuel : nat) (wd : string) (i dotdotsNeeded : nat)
  : nat :=
  match fuel with
  | O => dotdotsNeeded
  | S fuel' =>
      if Ascii.eqb (char_at wd i) NUL then dotdotsNeeded
      else
        count_dotdots fuel' wd (S i)
          (if Ascii.eqb (char_at wd i) SLASH
              && negb (Ascii.eqb (char_at wd (i + 1)) NUL)
           then S dotdotsNeeded else dotdotsNeeded)
  end.

(** [for (j = 0; j < dotdotsNeeded - 1; ++j) result[j * 3 + 2] = '/']. *)
Fixpoint put_slashes (n j : nat) (result : string) : string :=
  match n with
  | O => result
  | S n' => put_slashes n' (S j) (set_at result (j * 3 + 2) SLASH)
  end.

Section ProjectRoot.

(** The global [RECC_PROJECT_ROOT] of env.h. *)
Variable RECC_PROJECT_ROOT : string.

(** [workingDirectory] is a [const char *]: [None] is [nullptr]. *)
Definition make_path_relative (path : string) (workingDirectory : option string)
  : result string :=
  match workingDirectory with
  | None => Ok path
  | Some wd =>
      if empty wd || (String.length path =? 0)
         || negb (Ascii.eqb (char_at path 0) SLASH)
         || negb (has_path_prefix path RECC_PROJECT_ROOT)
      then Ok path
      else if negb (Ascii.eqb (char_at wd 0) SLASH) then
        Throw (logic_error
                 "Working directory must be null or an absolute path")
      else
        match match_loop (S (String.length path)) path wd 0 0 with
        | Return s => Ok s
        | Fall i lastMatchingSegmentEnd =>
            let after :=
              if (i =? String.length path)
                 && Ascii.eqb (char_at wd i) SLASH
              then
                if Ascii.eqb (char_at wd (i + 1)) NUL then None
                else Some (S i, i)
              else Some (i, lastMatchingSegmentEnd) in
            match after with
            | None => Ok "."
            | Some (i', lastMatchingSegmentEnd') =>
                let dotdotsNeeded :=
                  count_dotdots (S (String.length wd)) wd i' 1 in
                let result :=
                  fill (dotdotsNeeded * 3 - 1) DOT
                  +:+ drop lastMatchingSegmentEnd' path in
                Ok (put_slashes (dotdotsNeeded - 1) 0 result)
            end
        end
  end.

End ProjectRoot.

(** [s.c_str()] read back as a C string: everything before the first NUL. *)
Fixpoint c_str (s : string) : string :=
  match s with
  | EmptyString => EmptyString
  | String c s' => if Ascii.eqb c NUL then EmptyString else String c (c_str s')
  end.

Definition make_path_absolute (path cwd : string) : string :=
  if empty path || Ascii.eqb (front path) SLASH then path
  else
    let fullPath := cwd +:+ String SLASH path in
    let normalizedPath := normalize_path (c_str fullPath) in
    if Ascii.eqb (back path) SLASH
       && negb (Ascii.eqb (back normalizedPath) SLASH)
    then push_back normalizedPath SLASH
    else normalizedPath.

(** ** Further functions of fileutils.cpp *)

(** [join_normalize_path]: [extension.front()] and [base.back()] are read
    before the emptiness tests, as in the source. *)
Definition join_normalize_path (base extension : string) : string :=
  let extStartSlash := Ascii.eqb (front extension) SLASH in
  let baseEndSlash := Ascii.eqb (back base) SLASH in
  let '(catPath, index) :=
    if negb (empty base) && negb baseEndSlash && negb extStartSlash
    then (push_back base SLASH, 0)
    else if negb (empty extension) && baseEndSlash && extStartSlash
    then (base, 1)
    else (base, 0) in
  normalize_path (c_str (catPath +:+ drop index extension)).

(** One turn of the loop of [parent_directory_levels], for the segment of
    length [segmentLength] at the start of [path]; the levels are [int]s,
    bounded by the length of the path. *)
Definition levels_step (path : string) (segmentLength : nat)
    (levels : Z * Z) : Z * Z :=
  let '(currentLevel, lowestLevel) := levels in
  if (segmentLength =? 0)
     || ((segmentLength =? 1) && Ascii.eqb (char_at path 0) DOT)
  then (currentLevel, lowestLevel)
  else if (segmentLength =? 2) && Ascii.eqb (char_at path 0) DOT
          && Ascii.eqb (char_at path 1) DOT
  then ((currentLevel - 1)%Z, Z.min lowestLevel (currentLevel - 1))
  else ((currentLevel + 1)%Z, lowestLevel).

(** The [while] loop on the characters left, with its [break] when no
    slash is left: the rest of the path and the two levels on leaving the
    loop. *)
Fixpoint levels_loop (fuel : nat) (path : string) (levels : Z * Z)
  : string * (Z * Z) :=
  match fuel with
  | O => (path, levels)
  | S fuel' =>
      if empty path then (path, levels)
      else
        match strchr path SLASH with
        | None => (path, levels)
        | Some k =>
            levels_loop fuel' (drop (S k) path) (levels_step path k levels)
        end
  end.

Definition parent_directory_levels (path : string) : Z :=
  let '(path', (currentLevel, lowestLevel)) :=
    levels_loop (S (String.length path)) path (0, 0)%Z in
  let lowestLevel :=
    if String.eqb path' ".."
    then Z.min lowestLevel (currentLevel - 1) else lowestLevel in
  (- lowestLevel)%Z.

(** How the [while (substringStart != path)] loop of [last_n_segments]
    ends: by its [return], or at the start of the path with the slashes
    counted. *)
Inductive scan_exit :=
  | Found (s : string)
  | AtStart (slashesSeen : Z).

(** The loop, on the offset [substringStart - path]. *)
Fixpoint last_n_scan (path : string) (n : Z)
    (substringStart substringLength : nat) (slashesSeen : Z) : scan_exit :=
  match substringStart with
  | O => AtStart slashesSeen
  | S before =>
      if Ascii.eqb (char_at path before) SLASH then
        if (slashesSeen + 1 =? n)%Z
        then Found (take substringLength (drop substringStart path))
        else last_n_scan path n before (S substringLength) (slashesSeen + 1)
      else last_n_scan path n before (S substringLength) slashesSeen
  end.

(** [last_n_segments]: [None] for the empty path with [n ≠ 0], where the
    source reads [path[pathLength - 1]] before the string. *)
Definition last_n_segments (path : string) (n : Z) : option (result string) :=
  if (n =? 0)%Z then Some (Ok "")
  else if empty path then None
  else
    let pathLength := String.length path in
    let substringLength :=
      if Ascii.eqb (char_at path (pathLength - 1)) SLASH then 0 else 1 in
    match last_n_scan path n (pathLength - 1) substringLength 0 with
    | Found s => Some (Ok s)
    | AtStart slashesSeen =>
        if (slashesSeen =? 0)%Z && (n =? 1)%Z then Some (Ok path)
        else Some (Throw (logic_error "Not enough segments in path"))
    end.

(** [path] is a [const char *]: [None] is [nullptr]. *)
Definition is_absolute_path (path : option string) : bool :=
  match path with
  | None => false
  | Some p => Ascii.eqb (char_at p 0) SLASH
  end.

Definition path_basename (path : string) : option (result string) :=
  last_n_segments path 1.

Section PrefixMap.

(** The global [RECC_PREFIX_REPLACEMENT], in the order the range-for goes
    over it. *)
Variable RECC_PREFIX_REPLACEMENT : list (string * string).

(** The [for] loop of [resolve_path_from_prefix_map] (its verbose log line
    is left out). *)
Fixpoint resolve_loop (path : string) (l : list (string * string))
  : string :=
  match l with
  | [] => path
  | entry :: l' =>
      if has_path_prefix path entry.1 then
        let replaced_path :=
          entry.2 +:+ String SLASH (drop (String.length entry.1) path) in
        normalize_path (c_str replaced_path)
      else resolve_loop path l'
  end.

Definition resolve_path_from_prefix_map (path : string) : string :=
  match RECC_PREFIX_REPLACEMENT with
  | [] => path
  | _ => resolve_loop path RECC_PREFIX_REPLACEMENT
  end.

End PrefixMap.

(** [strtok(s, "/")] of the C library on the text still to be cut: the
    token and the text after it, [None] when only slashes are left. *)
Fixpoint skip_slashes (s : string) : string :=
  match s with
  | EmptyString => EmptyString
  | String c s' => if Ascii.eqb c SLASH then skip_slashes s' else s
  end.

Definition strtok (s : string) : option (string * string) :=
  let s' := skip_slashes s in
  if empty s' then None
  else
    match strchr s' SLASH with
    | None => Some (s', "")
    | Some k => Some (take k s', drop (S k) s')
    end.

(** [while (token != nullptr)] of [parseDirectories]. *)
Fixpoint parse_loop (fuel : nat) (s : string) (result : list string)
  : list string :=
  match fuel with
  | O => result
  | S fuel' =>
      match strtok s with
      | None => result
      | Some (token, rest) => parse_loop fuel' rest (result ++ [token])
      end
  end.

Definition parseDirectories (path : string) : list string :=
  parse_loop (S (String.length path)) (c_str path) [].


End FileUtils.

(* ===================================================================== *)
(** ** grpccontext.cpp and grpcretry.cpp *)
(* ===================================================================== *)

Module Grpc.
Import Cpp.

(** [grpc::Status]: the numeric code and the message. *)
Record Status := { error_code : Z; error_message : string }.

(** The values of [grpc::StatusCode] the sources name. *)
Definition OK : Z := 0.
Definition NOT_FOUND : Z := 5.
Definition UNAUTHENTICATED : Z := 16.

Definition ok (s : Status) : bool := (error_code s =? OK)%Z.

(** A default-constructed [grpc::Status]. *)
Definition Status_default : Status :=
  {| error_code := OK; error_message := "" |}.

(** [grpc::ClientContext]: [ctx_id] is the identity of the object (one per
    construction); the other fields are what the sources attach to it. *)
Record ClientContext := {
  ctx_id : nat;
  credentials : option string;
  request_metadata : string
}.

(** The interface [AuthBase] behind [d_authSession]. *)
Class AuthBase (A : Type) := {
  get_access_token : A → string;
  refresh_current_token : A → A
}.

Record GrpcContext (A : Type) := {
  d_authSession : option A;
  d_action_id : string
}.
Arguments d_authSession {A} _.
Arguments d_action_id {A} _.

(** What the process does that is visible outside of it; [Invoke] is the
    call of the RPC wrapped by [grpc_retry]. *)
Inductive event :=
  | Invoke (ctx : ClientContext)
  | Sleep (ms : Z)
  | LogError (msg : string)
  | LogWarning (msg : string)
  | Log (msg : string)
  | Refresh
  | CancelOperationRPC (ctx : ClientContext) (name : string).

(** The process state: the [GrpcContext] object, the number of client
    contexts constructed so far, the events so far (oldest first) and the
    rest of the world [W] (servers, variables captured by the RPC). *)
Record proc (A W : Type) := {
  grpcContext : GrpcContext A;
  allocated : nat;
  trace : list event;
  world : W
}.
Arguments grpcContext {A W} _.
Arguments allocated {A W} _.
Arguments trace {A W} _.
Arguments world {A W} _.

Definition set_grpcContext {A W} (g : GrpcContext A) (σ : proc A W) :=
  {| grpcContext := g; allocated := allocated σ; trace := trace σ;
     world := world σ |}.
Definition set_allocated {A W} (n : nat) (σ : proc A W) :=
  {| grpcContext := grpcContext σ; allocated := n; trace := trace σ;
     world := world σ |}.
Definition set_world {A W} (w : W) (σ : proc A W) :=
  {| grpcContext := grpcContext σ; allocated := allocated σ;
     trace := trace σ; world := w |}.
Definition log_events {A W} (l : list event) (σ : proc A W) :=
  {| grpcContext := grpcContext σ; allocated := allocated σ;
     trace := trace σ ++ l; world := world σ |}.
Definition emit {A W} (e : event) : M (proc A W) unit :=
  modify (log_events [e]).

Section Context.
Context {A W : Type} `{AuthBase A}.

(** Construction of a [grpc::ClientContext]. *)
Definition make_client_context (creds : option string) (md : string)
  : M (proc A W) ClientContext :=
  λ σ, (Val {| ctx_id := allocated σ; credentials := creds;
               request_metadata := md |},
        set_allocated (S (allocated σ)) σ).

(** [GrpcContext::new_client_context]. *)
Definition new_client_context : M (proc A W) ClientContext :=
  g ← gets grpcContext;
  make_client_context (get_access_token <$> d_authSession g) (d_action_id g).

(** [GrpcContext::auth_refresh]. *)
Definition auth_refresh : M (proc A W) unit :=
  g ← gets grpcContext;
  match d_authSession g with
  | Some a =>
      modify (set_grpcContext
                {| d_authSession := Some (refresh_current_token a);
                   d_action_id := d_action_id g |});;
      emit Refresh
  | None => throw (runtime_error "An AuthSession was not set")
  end.

(** [GrpcContext::set_action_id]. *)
Definition set_action_id (action_id : string) : M (proc A W) unit :=
  modify (λ σ, set_grpcContext
                 {| d_authSession := d_authSession (grpcContext σ);
                    d_action_id := action_id |} σ).

(** [GrpcContext::set_auth]; [None] is a null session. *)
Definition set_auth (authSession : option A) : M (proc A W) unit :=
  modify (λ σ, set_grpcContext
                 {| d_authSession := authSession;
                    d_action_id := d_action_id (grpcContext σ) |} σ).

(** The globals [RECC_RETRY_LIMIT] and [RECC_RETRY_DELAY] of env.h.  They
    are [int]s; the counting of the attempts is done in [Z], which is what
    the C++ computes for a limit below INT_MAX ([RECC_RETRY_LIMIT + 1] is
    then an [int]); the delay goes through [double] and a cast, see
    [time_delay]. *)
Variable RECC_RETRY_LIMIT RECC_RETRY_DELAY : Z.

(** [RECC_RETRY_DELAY * pow(2.0, n_attempts)] as the cast truncates it,
    where the [double] is a number: a power of two up to the exponent 1023
    is exact in [double], and so is its product with an [int] unless it is
    infinite; below one the cast rounds towards zero. *)
Definition delay_product (n_attempts : Z) : Z :=
  if (0 <=? n_attempts)%Z then (RECC_RETRY_DELAY * 2 ^ n_attempts)%Z
  else (RECC_RETRY_DELAY ÷ 2 ^ (- n_attempts))%Z.

(** The product is a number ([pow] has not overflowed to infinity) and
    an [int] can hold it. *)
Definition delay_fits (n_attempts : Z) : bool :=
  (n_attempts <=? 1023)%Z
  && (INT_MIN <=? delay_product n_attempts)%Z
  && (delay_product n_attempts <=? INT_MAX)%Z.

(** [static_cast<int>(RECC_RETRY_DELAY * pow(2.0, n_attempts))].  Where the
    product does not fit, the conversion is undefined in C++; the value
    taken here is the one the conversion instruction of x86-64 stores,
    INT_MIN.  The theorems on the waits assume [delay_fits]. *)
Definition time_delay (n_attempts : Z) : Z :=
  if delay_fits n_attempts then delay_product n_attempts else INT_MIN.

Definition attempt_error_msg (n_attempts : Z) (status : Status) : string :=
  "Attempt " +:+ to_string (n_attempts + 1) +:+ "/"
  +:+ to_string (RECC_RETRY_LIMIT + 1)
  +:+ " failed with gRPC error " +:+ to_string (error_code status)
  +:+ ": " +:+ error_message status +:+ ". Retrying in "
  +:+ to_string (time_delay n_attempts) +:+ " ms...".

(** How the [do ... while] of [grpc_retry] ends: by the [return] inside
    it, or by its condition turning false with the last status. *)
Inductive loop_end :=
  | Returned
  | Exhausted (status : Status).

Variable grpc_invocation : ClientContext → M (proc A W) Status.

(** The [do ... while (n_attempts < RECC_RETRY_LIMIT + 1)] loop, with fuel;
    [None] when the fuel runs out. *)
Fixpoint retry_loop (fuel : nat) (n_attempts : Z) (refreshed : bool)
  : M (proc A W) (option loop_end) :=
  match fuel with
  | O => mret None
  | S fuel' =>
      context ← new_client_context;
      emit (Invoke context);;
      status ← grpc_invocation context;
      if ok status then mret (Some Returned)
      else
        '(n_attempts', refreshed') ←
          (if (error_code status =? UNAUTHENTICATED)%Z && negb refreshed
           then mret (n_attempts, true)
           else
             (if (n_attempts <? RECC_RETRY_LIMIT)%Z then
                emit (LogError (attempt_error_msg n_attempts status));;
                emit (Sleep (time_delay n_attempts))
              else mret tt);;
             mret ((n_attempts + 1)%Z, refreshed));
        if (n_attempts' <? RECC_RETRY_LIMIT + 1)%Z
        then retry_loop fuel' n_attempts' refreshed'
        else mret (Some (Exhausted status))
  end.

(** Fuel for every run of the loop: one iteration per attempt and one for
    the replay ([retry_loop_fuel] below). *)
Definition retry_fuel : nat := S (S (Z.to_nat (RECC_RETRY_LIMIT + 1))).

Definition retry_error_message (status : Status) : string :=
  let error_message :=
    to_string (error_code status) +:+ ": " +:+ error_message status in
  if (RECC_RETRY_LIMIT >? 0)%Z
  then "Retry limit exceeded. Last gRPC error was " +:+ error_message
  else error_message.

Definition grpc_retry : M (proc A W) unit :=
  r ← retry_loop retry_fuel 0 false;
  match r with
  | Some Returned => mret tt
  | Some (Exhausted status) =>
      throw (runtime_error (retry_error_message status))
  | None => diverge
  end.

End Context.

(** The client context that [new_client_context] builds in the state [σ]
    (its identity is new: the contexts built before have smaller ones), and
    the state in which an iteration of the loop of [grpc_retry] then calls
    the RPC. *)
Definition fresh_context {A W} `{AuthBase A} (σ : proc A W) : ClientContext :=
  {| ctx_id := allocated σ;
     credentials := get_access_token <$> d_authSession (grpcContext σ);
     request_metadata := d_action_id (grpcContext σ) |}.

Definition attempt_entry {A W} `{AuthBase A} (σ : proc A W)
  : ClientContext * proc A W :=
  (fresh_context σ,
   log_events [Invoke (fresh_context σ)] (set_allocated (S (allocated σ)) σ)).

(** Observations on a trace: the attempts and the waits between them. *)
Inductive mark :=
  | Attempt
  | Wait (ms : Z).

Definition marks (t : list event) : list mark :=
  omap (λ e, match e with
             | Invoke _ => Some Attempt
             | Sleep ms => Some (Wait ms)
             | _ => None
             end) t.

Definition is_attempt (m : mark) : bool :=
  match m with Attempt => true | Wait _ => false end.
Definition attempts (m : list mark) : nat :=
  length (filter (λ x, is_attempt x = true) m).

(** [k] failed attempts from attempt number [n] on, each followed by its
    wait of [delay * 2^n] ms, and a last attempt. *)
Fixpoint backoff (delay : Z) (n : Z) (k : nat) : list mark :=
  match k with
  | O => [Attempt]
  | S k' => Attempt :: Wait (delay * 2 ^ n) :: backoff delay (n + 1) k'
  end.

(** The same run with the waits as the driver computes them: [wait n]
    after the failed attempt number [n]. *)
Fixpoint run_marks (wait : Z → Z) (n : Z) (k : nat) : list mark :=
  match k with
  | O => [Attempt]
  | S k' => Attempt :: Wait (wait n) :: run_marks wait (n + 1) k'
  end.

(** Every delay the driver can compute before attempt number [k] is a
    number that fits an [int]. *)
Definition delays_fit (DELAY : Z) (k : Z) : Prop :=
  ∀ n : Z, (0 ≤ n < k)%Z → delay_fits DELAY n = true.

(** An RPC that returns, on every call, a status that is neither OK nor
    UNAUTHENTICATED. *)
Definition always_fails {A W} (rpc : ClientContext → M (proc A W) Status)
  : Prop :=
  ∀ ctx σ, ∃ status σ',
    rpc ctx σ = (Val status, σ')
    ∧ ok status = false ∧ error_code status ≠ UNAUTHENTICATED.

Definition is_invoke (e : event) : bool :=
  match e with Invoke _ => true | _ => false end.
Definition invocations (t : list event) : nat :=
  length (filter (λ e, is_invoke e = true) t).
Definition sleeps (t : list event) : list Z :=
  omap (λ e, match e with Sleep ms => Some ms | _ => None end) t.
Definition cancel_requests (t : list event) : list (ClientContext * string) :=
  omap (λ e, match e with
             | CancelOperationRPC c n => Some (c, n)
             | _ => None
             end) t.
(** The client contexts the RPC was invoked on, in order. *)
Definition invoked (t : list event) : list ClientContext :=
  omap (λ e, match e with Invoke c => Some c | _ => None end) t.
Definition is_refresh (e : event) : bool :=
  match e with Refresh => true | _ => false end.
Definition refreshes (t : list event) : nat :=
  length (filter (λ e, is_refresh e = true) t).

(** An RPC that only adds events to the trace, none of them the call of
    an RPC or a wait (those are the marks of the driver). *)
Definition quiet {A W} (rpc : ClientContext → M (proc A W) Status) : Prop :=
  ∀ ctx σ, ∃ t, trace (rpc ctx σ).2 = trace σ ++ t ∧ marks t = [].

(** An RPC that only adds events to the trace, none of them a refresh of
    the auth session. *)
Definition refresh_free {A W} (rpc : ClientContext → M (proc A W) Status)
  : Prop :=
  ∀ ctx σ, ∃ t, trace (rpc ctx σ).2 = trace σ ++ t ∧ refreshes t = 0.

(** An RPC whose answers follow a script on a call counter kept in the
    world: the call number [k] (from 0) returns [f k]; the trace gets no
    mark. *)
Definition scripted {A W} (count : W → nat) (f : nat → Status)
    (rpc : ClientContext → M (proc A W) Status) : Prop :=
  ∀ ctx σ, ∃ σ' t,
    rpc ctx σ = (Val (f (count (world σ))), σ')
    ∧ count (world σ') = S (count (world σ))
    ∧ trace σ' = trace σ ++ t ∧ marks t = [].


(** Test doubles: an auth session that counts its refreshes (its token is
    the count), and RPCs with a scripted behaviour on a call counter. *)
#[global] Instance counting_auth : AuthBase nat := {|
  get_access_token n := to_string (Z.of_nat n);
  refresh_current_token n := S n
|}.

Definition fresh_process (auth : option nat) : proc nat nat :=
  {| grpcContext := {| d_authSession := auth; d_action_id := "action" |};
     allocated := 0; trace := []; world := 0 |}.

(** The first [failures] calls return [status], the later ones OK. *)
Definition scripted_rpc (status : Status) (failures : nat)
    (_ : ClientContext) : M (proc nat nat) Status :=
  λ σ, (Val (if world σ <? failures then status else Status_default),
        set_world (S (world σ)) σ).

(** Every call returns [status]. *)
Definition failing_rpc (status : Status) (_ : ClientContext)
  : M (proc nat nat) Status :=
  λ σ, (Val status, set_world (S (world σ)) σ).

Definition UNAVAILABLE_down : Status :=
  {| error_code := 14; error_message := "down" |}.
Definition UNAUTHENTICATED_expired : Status :=
  {| error_code := UNAUTHENTICATED; error_message := "token expired" |}.

End Grpc.

(* ===================================================================== *)
(** ** The protobuf messages the client handles *)
(* ===================================================================== *)

Module Proto.
Import Str.

Record Digest := { hash : string; size_bytes : Z }.

#[global] Instance Digest_eq_dec : EqDecision Digest.
Proof. solve_decision. Defined.

#[global] Instance Digest_countable : Countable Digest :=
  inj_countable' (λ d, (hash d, size_bytes d))
                 (λ p, {| hash := p.1; size_bytes := p.2 |})
                 (λ d, match d with Build_Digest _ _ => eq_refl end).

Record FileNode := {
  fn_name : string; fn_digest : Digest; fn_is_executable : bool }.

Record DirectoryNode := { dn_name : string; dn_digest : Digest }.

Record Directory := {
  files : list FileNode; directories : list DirectoryNode }.

Record Tree := { root : Directory; children : list Directory }.

Record OutputFile := {
  of_path : string; of_digest : Digest; of_is_executable : bool }.

Record OutputDirectory := { od_path : string; od_tree_digest : Digest }.

Record ActionResult := {
  exit_code : Z;
  stdout_raw : string; stdout_digest : Digest;
  stderr_raw : string; stderr_digest : Digest;
  output_files : list OutputFile;
  output_directories : list OutputDirectory
}.

(** [google::rpc::Status]. *)
Record RpcStatus := { code : Z; message : string }.

Record ExecuteResponse := {
  er_result : ActionResult; er_status : RpcStatus; er_message : string }.

(** [google::protobuf::Any]. *)
Record Any := { type_url : string; value : string }.
Definition Any_default : Any := {| type_url := ""; value := "" |}.
Definition RpcStatus_default : RpcStatus := {| code := 0; message := "" |}.

(** [google::longrunning::Operation]; [op_result] is its oneof. *)
Inductive OperationResult :=
  | result_not_set
  | result_error (e : RpcStatus)
  | result_response (a : Any).

Record Operation := {
  op_name : string; op_done : bool; op_result : OperationResult }.

Definition Operation_default : Operation :=
  {| op_name := ""; op_done := false; op_result := result_not_set |}.

Definition has_error (o : Operation) : bool :=
  match op_result o with result_error _ => true | _ => false end.
Definition error (o : Operation) : RpcStatus :=
  match op_result o with result_error e => e | _ => RpcStatus_default end.
Definition response (o : Operation) : Any :=
  match op_result o with result_response a => a | _ => Any_default end.

Definition ExecuteResponse_full_name : string :=
  "build.bazel.remote.execution.v2.ExecuteResponse".

(** [Any::Is<T>()]: the type URL is [<anything>/<full name of T>]. *)
Definition Any_Is (full_name : string) (a : Any) : bool :=
  let url := type_url a in
  let n := String.length full_name in
  (n <? String.length url)
  && Ascii.eqb (char_at url (String.length url - n - 1)) SLASH
  && String.eqb (drop (String.length url - n) url) full_name.

(** [Any::UnpackTo(&msg)]: the type must match and the payload must parse;
    [parse] is [T::ParseFromString]. *)
Definition Any_UnpackTo {T} (full_name : string) (parse : string → option T)
    (a : Any) : option T :=
  if Any_Is full_name a then parse (value a) else None.

End Proto.

(* ===================================================================== *)
(** ** remoteexecutionclient.cpp *)
(* ===================================================================== *)

Module RemoteExecution.
Import Cpp Str Grpc Proto.

(** [OutputBlob] and the client-side [ActionResult] (actionresult.h):
    [d_outputFiles] maps a path to the digest and the executable bit. *)
Record OutputBlob := { d_blob : string; d_digest : Digest }.

Record ActionResult := {
  d_exitCode : Z;
  d_stdOut : OutputBlob;
  d_stdErr : OutputBlob;
  d_outputFiles : gmap string (Digest * bool)
}.

(** Modelled from the spec: [ensure_ok] is declared outside the sources
    at hand; it raises an error when the status is non-OK and does nothing
    otherwise.  The text of the error is not specified: [what]. *)
Definition ensure_ok (what : RpcStatus → string) (s : RpcStatus)
  : result unit :=
  if (code s =? 0)%Z then Ok tt else Throw (runtime_error (what s)).

(** The first loop of [add_from_directory]: the entry
    [prefix + file.name()] of [outputFiles] is set for every file of the
    directory. *)
Definition add_files (outputFiles : gmap string (Digest * bool))
    (fs : list FileNode) (prefix : string) : gmap string (Digest * bool) :=
  foldl (λ m f, <[prefix +:+ fn_name f := (fn_digest f, fn_is_executable f)]> m)
        outputFiles fs.

(** [add_from_directory], recursive through [digestMap]: [None] when the
    recursion is deeper than [fuel]; [digestMap.at] throws on a digest
    that is absent. *)
Fixpoint add_from_directory (fuel : nat)
    (outputFiles : gmap string (Digest * bool)) (directory : Directory)
    (prefix : string) (digestMap : gmap Digest Directory)
  : option (result (gmap string (Digest * bool))) :=
  match fuel with
  | O => None
  | S fuel' =>
      foldl
        (λ acc d,
           match acc with
           | Some (Ok m) =>
               match digestMap !! dn_digest d with
               | None => Some (Throw (out_of_range "unordered_map::at"))
               | Some subdirectory =>
                   add_from_directory fuel' m subdirectory
                     (prefix +:+ dn_name d +:+ "/") digestMap
               end
           | _ => acc
           end)
        (Some (Ok (add_files outputFiles (files directory) prefix)))
        (directories directory)
  end.

Section Client.
Context {A Srv : Type} `{AuthBase A}.

(** One [Execute] call as the server answers it: the Operations it streams
    and the status [Finish] reports. *)
Record ExecuteStream := {
  messages : list Operation;
  finish : Status
}.

Record ExecuteRequest := {
  instance_name : string;
  action_digest : Digest;
  skip_cache_lookup : bool
}.

(** What the main thread finds at one turn of its polling loop: how many
    [Read] calls the reader thread has completed, and the value of
    [s_sigint_received]. *)
Record poll := { reads_done : nat; sigint_received : bool }.

(** The world of the client: the servers, the polls still to come, and the
    two variables of [execute_action] that its lambda captures by
    reference. *)
Record client_world := {
  srv : Srv;
  schedule : list poll;
  reader_ptr : option ExecuteStream;
  operation_ptr : option Operation
}.

Definition set_srv (s : Srv) (w : client_world) : client_world :=
  {| srv := s; schedule := schedule w; reader_ptr := reader_ptr w;
     operation_ptr := operation_ptr w |}.
Definition set_schedule (l : list poll) (w : client_world) : client_world :=
  {| srv := srv w; schedule := l; reader_ptr := reader_ptr w;
     operation_ptr := operation_ptr w |}.
Definition set_reader_ptr (r : option ExecuteStream) (w : client_world) : client_world :=
  {| srv := srv w; schedule := schedule w; reader_ptr := r;
     operation_ptr := operation_ptr w |}.
Definition set_operation_ptr (o : option Operation) (w : client_world) : client_world :=
  {| srv := srv w; schedule := schedule w; reader_ptr := reader_ptr w;
     operation_ptr := o |}.

#[local] Abbreviation St := (proc A client_world).

Definition modify_world (f : client_world → client_world) : M St unit :=
  modify (λ σ, set_world (f (world σ)) σ).

(** The stubs: the remote services, acting on the server state. *)
Variable Execute :
  ClientContext → ExecuteRequest → Srv → ExecuteStream * Srv.
Variable CancelOperation : ClientContext → string → Srv → Status * Srv.
Variable GetActionResult :
  ClientContext → string → Digest → Srv → (Status * Proto.ActionResult) * Srv.

(** CAS helpers of the client that are outside the sources at hand. *)
Variable fetch_message_Tree : Digest → M St Tree.
Variable make_digest : Directory → Digest.

(** [ExecuteResponse::ParseFromString] and the text of [ensure_ok]. *)
Variable parse_ExecuteResponse : string → option ExecuteResponse.
Variable ensure_ok_what : RpcStatus → string.

Variable d_instanceName : string.

(** [read_operation_async] after [k] calls of [Read]: the Operation in
    [*operation_ptr] and whether the thread has finished.  A failed [Read]
    leaves the Operation as it was. *)
Fixpoint reader_after (k : nat) (msgs : list Operation) (op : Operation)
  : Operation * bool :=
  match k with
  | O => (op, false)
  | S k' =>
      match msgs with
      | [] => (op, true)
      | m :: msgs' =>
          if op_done m then (m, true) else reader_after k' msgs' m
      end
  end.

(** The whole run of the reader thread. *)
Definition read_operation_async (msgs : list Operation) (op : Operation)
  : Operation :=
  (reader_after (S (length msgs)) msgs op).1.

(** [RemoteExecutionClient::cancel_operation]. *)
Definition cancel_operation (operationName : string) : M St unit :=
  cancelContext ← new_client_context;
  emit (CancelOperationRPC cancelContext operationName);;
  s ← (λ σ : St,
         let '(st, srv') :=
           CancelOperation cancelContext operationName (srv (world σ)) in
         (Val st, set_world (set_srv srv' (world σ)) σ));
  if negb (ok s) then
    emit (LogError ("Failed to cancel job " +:+ operationName +:+ ": "
                    +:+ error_message s))
  else emit (Log ("Cancelled job " +:+ operationName)).

(** The [do ... while (status != std::future_status::ready)] loop of
    [read_operation], one turn per poll.  When the schedule is used up the
    reader thread has finished and no signal has come. *)
Fixpoint poll_loop (polls : list poll) (msgs : list Operation)
    (op0 : Operation) : M St unit :=
  match polls with
  | [] =>
      modify_world (λ w, set_operation_ptr
                           (Some (read_operation_async msgs op0))
                           (set_schedule [] w))
  | p :: polls' =>
      let '(op, ready) := reader_after (reads_done p) msgs op0 in
      modify_world (λ w, set_operation_ptr (Some op) (set_schedule polls' w));;
      if sigint_received p then
        emit (LogWarning ("Cancelling job, operation name: " +:+ op_name op));;
        (if negb (empty (op_name op)) then cancel_operation (op_name op)
         else mret tt);;
        exit 130%Z
      else if ready then mret tt
      else poll_loop polls' msgs op0
  end.

(** [RemoteExecutionClient::read_operation] on the stream in [reader_ptr]
    and the Operation in [operation_ptr]. *)
Definition read_operation : M St unit :=
  w ← gets world;
  poll_loop (schedule w)
            (from_option messages [] (reader_ptr w))
            (default Operation_default (operation_ptr w)).

(** [get_actionresult]. *)
Definition get_actionresult (operation : Operation)
  : result Proto.ActionResult :=
  let check :=
    if negb (op_done operation) then
      Throw (logic_error "Called get_actionresult on an unfinished Operation")
    else if has_error operation then
      ensure_ok ensure_ok_what (error operation)
    else if negb (Any_Is ExecuteResponse_full_name (response operation)) then
      Throw (runtime_error "Server returned invalid Operation result")
    else Ok tt in
  match check with
  | Throw e => Throw e
  | Ok _ =>
      match Any_UnpackTo ExecuteResponse_full_name parse_ExecuteResponse
                         (response operation) with
      | None => Throw (runtime_error "Operation response unpacking failed")
      | Some executeResponse =>
          match ensure_ok ensure_ok_what (er_status executeResponse) with
          | Throw e => Throw e
          | Ok _ => Ok (er_result executeResponse)
          end
      end
  end.

(** The loop of [from_proto] over the output directories. *)
Definition add_output_directory (outputFiles : gmap string (Digest * bool))
    (outputDirectoryProto : OutputDirectory)
  : M St (gmap string (Digest * bool)) :=
  tree ← fetch_message_Tree (od_tree_digest outputDirectoryProto);
  let digestMap : gmap Digest Directory :=
    foldl (λ m c, <[make_digest c := c]> m) ∅ (children tree) in
  match add_from_directory (S (size digestMap)) outputFiles (root tree)
          (od_path outputDirectoryProto +:+ "/") digestMap with
  | None => diverge
  | Some r => lift r
  end.

Fixpoint add_output_directories (outputFiles : gmap string (Digest * bool))
    (l : list OutputDirectory) : M St (gmap string (Digest * bool)) :=
  match l with
  | [] => mret outputFiles
  | d :: l' =>
      m ← add_output_directory outputFiles d;
      add_output_directories m l'
  end.

(** [RemoteExecutionClient::from_proto]. *)
Definition from_proto (proto : Proto.ActionResult) : M St ActionResult :=
  let files :=
    foldl (λ m f, <[of_path f := (of_digest f, of_is_executable f)]> m)
          (∅ : gmap string (Digest * bool)) (output_files proto) in
  m ← add_output_directories files (output_directories proto);
  mret {| d_exitCode := exit_code proto;
          d_stdOut := {| d_blob := stdout_raw proto;
                         d_digest := stdout_digest proto |};
          d_stdErr := {| d_blob := stderr_raw proto;
                         d_digest := stderr_digest proto |};
          d_outputFiles := m |}.

(** [RemoteExecutionClient::fetch_from_action_cache]; [want_result] is
    [result != nullptr], and the [ActionResult] returned is what is stored
    through [result]. *)
Definition fetch_from_action_cache (actionDigest : Digest)
    (instanceName : string) (want_result : bool)
  : M St (bool * option ActionResult) :=
  context ← make_client_context None "";
  '(status, actionResult) ←
    (λ σ : St,
       let '(r, srv') :=
         GetActionResult context instanceName actionDigest (srv (world σ)) in
       (Val r, set_world (set_srv srv' (world σ)) σ));
  if negb (ok status) then
    if (error_code status =? NOT_FOUND)%Z then mret (false, None)
    else throw (runtime_error ("Action cache returned error "
                               +:+ error_message status))
  else if want_result then
    r ← from_proto actionResult;
    mret (true, Some r)
  else mret (true, None).

(** The lambda [execute_lambda] of [execute_action]. *)
Definition execute_lambda (executeRequest : ExecuteRequest)
    (context : ClientContext) : M St Status :=
  stream ← (λ σ : St,
              let '(r, srv') :=
                Execute context executeRequest (srv (world σ)) in
              (Val r, set_world (set_srv srv' (world σ)) σ));
  modify_world (set_reader_ptr (Some stream));;
  modify_world (set_operation_ptr (Some Operation_default));;
  read_operation;;
  mret (finish stream).

Variable RECC_RETRY_LIMIT RECC_RETRY_DELAY : Z.

(** [RemoteExecutionClient::execute_action]. *)
Definition execute_action (actionDigest : Digest) (skipCache : bool)
  : M St ActionResult :=
  let executeRequest :=
    {| instance_name := d_instanceName; action_digest := actionDigest;
       skip_cache_lookup := skipCache |} in
  modify_world (λ w, set_operation_ptr None (set_reader_ptr None w));;
  grpc_retry RECC_RETRY_LIMIT RECC_RETRY_DELAY
             (execute_lambda executeRequest);;
  w ← gets world;
  match operation_ptr w with
  | None => diverge (* a null [operation_ptr]: not reached, the lambda
                       has run when [grpc_retry] returns *)
  | Some operation =>
      if negb (op_done operation) then
        throw (runtime_error
                 "Server closed stream before Operation finished")
      else
        resultProto ← lift (get_actionresult operation);
        from_proto resultProto
  end.

End Client.

(** Test doubles for the services: the server state counts the [Execute]
    calls, and the k-th call is answered with the k-th scripted stream (an
    empty stream that fails with UNAVAILABLE when the script is over). *)
Definition scripted_Execute (streams : list ExecuteStream)
    (_ : ClientContext) (_ : ExecuteRequest) (calls : nat)
  : ExecuteStream * nat :=
  (default {| messages := []; finish := UNAVAILABLE_down |}
           (streams !! calls),
   S calls).

Definition fixed_CancelOperation (s : Status) (_ : ClientContext)
    (_ : string) (calls : nat) : Status * nat :=
  (s, calls).

Definition fixed_GetActionResult (s : Status) (r : Proto.ActionResult)
    (_ : ClientContext) (_ : string) (_ : Digest) (calls : nat)
  : (Status * Proto.ActionResult) * nat :=
  ((s, r), calls).

Definition no_Tree {Σ} (_ : Digest) : M Σ Tree :=
  throw (runtime_error "blob not found").

Definition size_digest (d : Directory) : Digest :=
  {| hash := ""; size_bytes := Z.of_nat (length (files d)) |}.

Definition action_digest_1 : Digest := {| hash := "ac"; size_bytes := 2 |}.

Definition ActionResult_exit (c : Z) : Proto.ActionResult :=
  {| exit_code := c;
     stdout_raw := "out"; stdout_digest := {| hash := ""; size_bytes := 0 |};
     stderr_raw := ""; stderr_digest := {| hash := ""; size_bytes := 0 |};
     output_files :=
       [{| of_path := "hello.o";
           of_digest := {| hash := "0a"; size_bytes := 1234 |};
           of_is_executable := false |}];
     output_directories := [] |}.

(** A decoder that knows one payload. *)
Definition parse_one (payload : string) (r : ExecuteResponse) (s : string)
  : option ExecuteResponse :=
  if String.eqb s payload then Some r else None.

Definition ensure_ok_text (s : RpcStatus) : string :=
  "GRPC error " +:+ to_string (code s) +:+ ": " +:+ message s.

Definition not_done_stream : ExecuteStream :=
  {| messages := [{| op_name := "op-42"; op_done := false;
                     op_result := result_not_set |}];
     finish := Status_default |}.

Definition response_exit_0 : ExecuteResponse :=
  {| er_result := ActionResult_exit 0; er_status := RpcStatus_default;
     er_message := "" |}.

Definition done_operation : Operation :=
  {| op_name := "op-42"; op_done := true;
     op_result :=
       result_response
         {| type_url := "type.googleapis.com/" +:+ ExecuteResponse_full_name;
            value := "payload" |} |}.

Definition client_process (polls : list poll)
  : proc nat (client_world (Srv := nat)) :=
  {| grpcContext := {| d_authSession := Some 0; d_action_id := "action" |};
     allocated := 0; trace := [];
     world := {| srv := 0; schedule := polls; reader_ptr := None;
                 operation_ptr := None |} |}.

End RemoteExecution.

(* ===================================================================== *)
(** ** env.cpp: [parse_environment] *)
(* ===================================================================== *)

Module Env.
Import Str.

(** The configuration globals, by kind; the macros [STRVAR], [BOOLVAR],
    [INTVAR], [SETVAR] and [MAPVAR] are generic in the variable. *)
Inductive strvar :=
  | RECC_SERVER | RECC_CAS_SERVER | RECC_INSTANCE
  | RECC_DEPS_DIRECTORY_OVERRIDE | TMPDIR.
Inductive boolvar :=
  | RECC_VERBOSE | RECC_FORCE_REMOTE | RECC_ACTION_UNCACHEABLE
  | RECC_SKIP_CACHE | RECC_DONT_SAVE_OUTPUT.
Inductive intvar := RECC_MAX_CONCURRENT_JOBS.
Inductive setvar :=
  | RECC_DEPS_OVERRIDE | RECC_OUTPUT_FILES_OVERRIDE
  | RECC_OUTPUT_DIRECTORIES_OVERRIDE.
Inductive mapvar := RECC_DEPS_ENV | RECC_REMOTE_ENV | RECC_REMOTE_PLATFORM.

#[global] Instance strvar_eq_dec : EqDecision strvar.
Proof. solve_decision. Defined.
#[global] Instance boolvar_eq_dec : EqDecision boolvar.
Proof. solve_decision. Defined.
#[global] Instance intvar_eq_dec : EqDecision intvar.
Proof. solve_decision. Defined.
#[global] Instance setvar_eq_dec : EqDecision setvar.
Proof. solve_decision. Defined.
#[global] Instance mapvar_eq_dec : EqDecision mapvar.
Proof. solve_decision. Defined.

(** The stringification [#name] of the macros. *)
Definition strvar_name (v : strvar) : string :=
  match v with
  | RECC_SERVER => "RECC_SERVER"
  | RECC_CAS_SERVER => "RECC_CAS_SERVER"
  | RECC_INSTANCE => "RECC_INSTANCE"
  | RECC_DEPS_DIRECTORY_OVERRIDE => "RECC_DEPS_DIRECTORY_OVERRIDE"
  | TMPDIR => "TMPDIR"
  end.
Definition boolvar_name (v : boolvar) : string :=
  match v with
  | RECC_VERBOSE => "RECC_VERBOSE"
  | RECC_FORCE_REMOTE => "RECC_FORCE_REMOTE"
  | RECC_ACTION_UNCACHEABLE => "RECC_ACTION_UNCACHEABLE"
  | RECC_SKIP_CACHE => "RECC_SKIP_CACHE"
  | RECC_DONT_SAVE_OUTPUT => "RECC_DONT_SAVE_OUTPUT"
  end.
Definition intvar_name (v : intvar) : string :=
  match v with RECC_MAX_CONCURRENT_JOBS => "RECC_MAX_CONCURRENT_JOBS" end.
Definition setvar_name (v : setvar) : string :=
  match v with
  | RECC_DEPS_OVERRIDE => "RECC_DEPS_OVERRIDE"
  | RECC_OUTPUT_FILES_OVERRIDE => "RECC_OUTPUT_FILES_OVERRIDE"
  | RECC_OUTPUT_DIRECTORIES_OVERRIDE => "RECC_OUTPUT_DIRECTORIES_OVERRIDE"
  end.
Definition mapvar_name (v : mapvar) : string :=
  match v with
  | RECC_DEPS_ENV => "RECC_DEPS_ENV"
  | RECC_REMOTE_ENV => "RECC_REMOTE_ENV"
  | RECC_REMOTE_PLATFORM => "RECC_REMOTE_PLATFORM"
  end.

(** The values of the globals. *)
Record config := {
  str : strvar → string;
  flag : boolvar → bool;
  int : intvar → Z;
  set : setvar → gset string;
  map : mapvar → gmap string string
}.

Definition set_str (v : strvar) (x : string) (c : config) : config :=
  {| str := <[v := x]> (str c); flag := flag c; int := int c;
     set := set c; map := map c |}.
Definition set_flag (v : boolvar) (x : bool) (c : config) : config :=
  {| str := str c; flag := <[v := x]> (flag c); int := int c;
     set := set c; map := map c |}.
Definition set_int (v : intvar) (x : Z) (c : config) : config :=
  {| str := str c; flag := flag c; int := <[v := x]> (int c);
     set := set c; map := map c |}.
Definition set_set (v : setvar) (x : gset string) (c : config) : config :=
  {| str := str c; flag := flag c; int := int c;
     set := <[v := x]> (set c); map := map c |}.
Definition set_map (v : mapvar) (x : gmap string string) (c : config)
  : config :=
  {| str := str c; flag := flag c; int := int c;
     set := set c; map := <[v := x]> (map c) |}.

(** [parse_set]: the items of a comma-separated list are inserted into
    [result]. *)
Fixpoint parse_set_loop (fuel : nat) (s : string) (result : gset string)
  : gset string :=
  match fuel with
  | O => result
  | S fuel' =>
      match strchr s ","%char with
      | None => {[ s ]} ∪ result
      | Some k => parse_set_loop fuel' (drop (S k) s) ({[ take k s ]} ∪ result)
      end
  end.

Definition parse_set (s : string) (result : gset string) : gset string :=
  parse_set_loop (S (String.length s)) s result.

(** The items of a list written with a comma between two of them. *)
Fixpoint comma_join (items : list string) : string :=
  match items with
  | [] => ""
  | [x] => x
  | x :: items' => x +:+ "," +:+ comma_join items'
  end.

Section Parse.

(** [strtol(s, nullptr, 10)] of the C library, narrowed to [int]. *)
Variable strtol : string → Z.
(** [DEFAULT_RECC_SERVER] of reccdefaults.h. *)
Variable DEFAULT_RECC_SERVER : string.

(** The test [strncmp(environ[i], lit, strlen(lit)) == 0] of the macros. *)
Definition starts_with (entry lit : string) : bool :=
  strncmp_eq entry lit (String.length lit).

(** The body of the [for] loop of [parse_environment] for one entry: the
    chain [VARS_START() STRVAR(..) ... MAPVAR(..)].  [None] where [MAPVAR]
    finds no ['='] in the entry and the C++ computes with a null
    pointer. *)
Definition parse_entry (c : config) (entry : string) : option config :=
  let STRVAR v := starts_with entry (strvar_name v +:+ "=") in
  let BOOLVAR v := starts_with entry (boolvar_name v +:+ "=") in
  let INTVAR v := starts_with entry (intvar_name v +:+ "=") in
  let SETVAR v := starts_with entry (setvar_name v +:+ "=") in
  let MAPVAR v := starts_with entry (mapvar_name v +:+ "_") in
  let str_case v :=
    Some (set_str v (drop (String.length (strvar_name v +:+ "=")) entry) c) in
  let bool_case v :=
    Some (set_flag v
            (String.length (boolvar_name v +:+ "=") <? String.length entry) c) in
  let int_case v :=
    Some (set_int v
            (strtol (drop (String.length (intvar_name v +:+ "=")) entry)) c) in
  let set_case v :=
    Some (set_set v
            (parse_set (drop (String.length (setvar_name v +:+ "=")) entry)
                       (set c v)) c) in
  let map_case v :=
    match strchr entry "="%char with
    | None => None
    | Some equals =>
        let n := String.length (mapvar_name v +:+ "_") in
        let key := take (equals - n) (drop n entry) in
        Some (set_map v (<[key := drop (S equals) entry]> (map c v)) c)
    end in
  if negb (strncmp_eq entry "RECC_" 4) && negb (strncmp_eq entry "TMPDIR" 6)
  then Some c
  else if STRVAR RECC_SERVER then str_case RECC_SERVER
  else if STRVAR RECC_CAS_SERVER then str_case RECC_CAS_SERVER
  else if STRVAR RECC_INSTANCE then str_case RECC_INSTANCE
  else if STRVAR RECC_DEPS_DIRECTORY_OVERRIDE
       then str_case RECC_DEPS_DIRECTORY_OVERRIDE
  else if STRVAR TMPDIR then str_case TMPDIR
  else if BOOLVAR RECC_VERBOSE then bool_case RECC_VERBOSE
  else if BOOLVAR RECC_FORCE_REMOTE then bool_case RECC_FORCE_REMOTE
  else if BOOLVAR RECC_ACTION_UNCACHEABLE
       then bool_case RECC_ACTION_UNCACHEABLE
  else if BOOLVAR RECC_SKIP_CACHE then bool_case RECC_SKIP_CACHE
  else if BOOLVAR RECC_DONT_SAVE_OUTPUT then bool_case RECC_DONT_SAVE_OUTPUT
  else if INTVAR RECC_MAX_CONCURRENT_JOBS
       then int_case RECC_MAX_CONCURRENT_JOBS
  else if SETVAR RECC_DEPS_OVERRIDE then set_case RECC_DEPS_OVERRIDE
  else if SETVAR RECC_OUTPUT_FILES_OVERRIDE
       then set_case RECC_OUTPUT_FILES_OVERRIDE
  else if SETVAR RECC_OUTPUT_DIRECTORIES_OVERRIDE
       then set_case RECC_OUTPUT_DIRECTORIES_OVERRIDE
  else if MAPVAR RECC_DEPS_ENV then map_case RECC_DEPS_ENV
  else if MAPVAR RECC_REMOTE_ENV then map_case RECC_REMOTE_ENV
  else if MAPVAR RECC_REMOTE_PLATFORM then map_case RECC_REMOTE_PLATFORM
  else Some c.

(** [for (int i = 0; environ[i] != nullptr; ++i)]. *)
Fixpoint parse_entries (c : config) (environ : list string) : option config :=
  match environ with
  | [] => Some c
  | entry :: environ' =>
      match parse_entry c entry with
      | None => None
      | Some c' => parse_entries c' environ'
      end
  end.

(** The special default cases that end [parse_environment] (the warnings
    on [cerr] are left out). *)
Definition special_defaults (c : config) : config :=
  let c1 :=
    if empty (str c RECC_SERVER)
    then set_str RECC_SERVER DEFAULT_RECC_SERVER c else c in
  if empty (str c1 RECC_CAS_SERVER)
  then set_str RECC_CAS_SERVER (str c1 RECC_SERVER) c1 else c1.

(** [parse_environment], from the globals [c] as they are at the call. *)
Definition parse_environment (c : config) (environ : list string)
  : option config :=
  special_defaults <$> parse_entries c environ.

End Parse.

Definition empty_config : config :=
  {| str := λ _, ""; flag := λ _, false; int := λ _, 0%Z;
     set := λ _, ∅; map := λ _, ∅ |}.

End Env.


(* ===================================================================== *)
(** ** Specification vocabulary for paths *)
(* ===================================================================== *)

Module PathModel.
Import Str FileUtils.

(** The segments that the loop of [normalize_path] cuts out of a path, in
    the order it meets them. *)
Fixpoint segs (s : string) : list string :=
  match s with
  | EmptyString => []
  | String c s' =>
      if Ascii.eqb c SLASH then "" :: segs s'
      else
        match segs s' with
        | [] => [String c ""]
        | x :: xs => String c x :: xs
        end
  end.

(** The segment stack after the loop has gone over [l]. *)
Definition run (segments : list string) (l : list string) : list string :=
  foldl (λ st seg, normalize_step seg st) segments l.

(** Segments written with one slash between two of them. *)
Fixpoint join (l : list string) : string :=
  match l with
  | [] => ""
  | [x] => x
  | x :: l' => x +:+ "/" +:+ join l'
  end.

(** A segment that names an entry: not empty, not ["."], not [".."], and
    without a slash. *)
Definition plain (s : string) : Prop :=
  s ≠ "" ∧ s ≠ "." ∧ s ≠ ".." ∧ mem SLASH s = false.

(** A segment with some text and no slash. *)
Definition solid (x : string) : Prop := x ≠ "" ∧ mem SLASH x = false.

(** A resolved segment list: some [".."] that could not be resolved, then
    plain segments only. *)
Definition resolved (l : list string) : Prop :=
  ∃ k l', l = replicate k ".." ++ l' ∧ Forall plain l'.

(** The root prefix [normalize_path] starts its result with. *)
Definition root_of (path : string) : string :=
  if Ascii.eqb (char_at path 0) SLASH then "/" else "".

(** The number of slashes of a text. *)
Fixpoint slashes (s : string) : nat :=
  match s with
  | EmptyString => 0
  | String c s' => (if Ascii.eqb c SLASH then 1 else 0) + slashes s'
  end.

End PathModel.
(* ===================================================================== *)
(** * Verification *)
(* ===================================================================== *)

(** ** Facts on the string primitives *)

Module StrFacts.
Import Str.
#[local] Arguments String.append !_ _ : simpl nomatch.

Lemma str_app_nil_r (a : string) : a +:+ "" = a.
Proof. induction a as [|c a IH]; [done | by simpl; f_equal]. Qed.

Lemma str_app_assoc (a b c : string) : (a +:+ b) +:+ c = a +:+ (b +:+ c).
Proof. induction a as [|x a IH]; [done | by simpl; f_equal]. Qed.

Lemma str_length_app (a b : string) :
  String.length (a +:+ b) = String.length a + String.length b.
Proof. induction a as [|c a IH]; [done | by simpl; f_equal]. Qed.

Lemma str_app_eq_nil (a b : string) : a +:+ b = "" → a = "" ∧ b = "".
Proof. destruct a; simpl; [done | discriminate]. Qed.

Lemma empty_true (s : string) : empty s = true ↔ s = "".
Proof. destruct s; simpl; split; congruence. Qed.

Lemma empty_false (s : string) : empty s = false ↔ s ≠ "".
Proof. destruct s; simpl; split; congruence. Qed.

Lemma length_zero (s : string) : String.length s = 0 ↔ s = "".
Proof. destruct s; simpl; split; congruence. Qed.

Lemma char_at_cons_S (c : ascii) (s : string) (i : nat) :
  char_at (String c s) (S i) = char_at s i.
Proof. reflexivity. Qed.

Lemma char_at_app_l (a b : string) (i : nat) :
  i < String.length a → char_at (a +:+ b) i = char_at a i.
Proof.
  revert i. induction a as [|c a IH]; simpl; intros i Hi; [lia|].
  destruct i as [|i]; [done|]. rewrite !char_at_cons_S. apply IH. lia.
Qed.

Lemma char_at_app_r (a b : string) (i : nat) :
  char_at (a +:+ b) (String.length a + i) = char_at b i.
Proof. induction a as [|c a IH]; simpl; [done | by rewrite char_at_cons_S]. Qed.

Lemma char_at_length (s : string) : char_at s (String.length s) = NUL.
Proof. induction s as [|c s IH]; simpl; [done | by rewrite char_at_cons_S]. Qed.

Lemma char_at_ge (s : string) (i : nat) :
  String.length s ≤ i → char_at s i = NUL.
Proof.
  revert i. induction s as [|c s IH]; intros i Hi; [by destruct i|].
  destruct i as [|i]; simpl in Hi; [lia|].
  rewrite char_at_cons_S. apply IH. lia.
Qed.

Lemma drop_app_length (a b : string) : drop (String.length a) (a +:+ b) = b.
Proof. induction a as [|c a IH]; simpl; done. Qed.

Lemma drop_app_plus (a b : string) (n : nat) :
  drop (String.length a + n) (a +:+ b) = drop n b.
Proof. induction a as [|c a IH]; simpl; done. Qed.

Lemma take_app_length (a b : string) : take (String.length a) (a +:+ b) = a.
Proof. induction a as [|c a IH]; simpl; [by destruct b | by rewrite IH]. Qed.

Lemma take_drop (n : nat) (s : string) : take n s +:+ drop n s = s.
Proof.
  revert s. induction n as [|n IH]; intros [|c s]; simpl; try done.
  by rewrite IH.
Qed.

Lemma take_length_le (n : nat) (s : string) :
  String.length (take n s) ≤ n.
Proof.
  revert s. induction n as [|n IH]; intros [|c s]; simpl; try lia.
  specialize (IH s). lia.
Qed.

Lemma take_prefix (n : nat) (s p : string) :
  take n s = p → String.length p = n → ∃ r, s = p +:+ r.
Proof.
  intros <- _. exists (drop n s). by rewrite take_drop.
Qed.

Lemma back_cons (c : ascii) (s : string) :
  s ≠ "" → back (String c s) = back s.
Proof. destruct s; simpl; done. Qed.

Lemma back_app (a b : string) : b ≠ "" → back (a +:+ b) = back b.
Proof.
  intros Hb. induction a as [|c a IH]; simpl; [done|].
  rewrite <- IH. destruct (a +:+ b) eqn:E; [|done].
  apply str_app_eq_nil in E as [_ ?]. done.
Qed.

Lemma back_char_at_cons (c : ascii) (s : string) :
  back (String c s) = char_at (String c s) (String.length s).
Proof.
  revert c. induction s as [|d s IH]; intros c; [done|].
  rewrite back_cons by done. rewrite IH. done.
Qed.

Lemma back_char_at (s : string) :
  s ≠ "" → back s = char_at s (String.length s - 1).
Proof.
  destruct s as [|c s]; [done|]. intros _. rewrite back_char_at_cons.
  simpl. by rewrite Nat.sub_0_r.
Qed.

Lemma pop_back_push (a : string) (c : ascii) :
  pop_back (a +:+ String c "") = a.
Proof.
  induction a as [|d a IH]; simpl; [done|]. rewrite IH.
  destruct (a +:+ String c "") eqn:E; [|done].
  apply str_app_eq_nil in E as [_ ?]. done.
Qed.

Lemma mem_app (c : ascii) (a b : string) :
  mem c (a +:+ b) = mem c a || mem c b.
Proof.
  induction a as [|d a IH]; simpl; [done|]. rewrite IH.
  by rewrite orb_assoc.
Qed.

Lemma mem_char_at (c : ascii) (s : string) (i : nat) :
  mem c s = false → i < String.length s → char_at s i ≠ c.
Proof.
  revert i. induction s as [|d s IH]; simpl; intros i Hm Hi; [lia|].
  apply orb_false_iff in Hm as [Hd Hm].
  destruct i as [|i].
  - unfold char_at; simpl. by apply Ascii.eqb_neq.
  - rewrite char_at_cons_S. apply IH; [done | lia].
Qed.

Lemma strchr_None (s : string) (c : ascii) :
  strchr s c = None ↔ mem c s = false.
Proof.
  induction s as [|d s IH]; simpl; [done|].
  destruct (Ascii.eqb d c); simpl; [split; discriminate|].
  rewrite <- IH. destruct (strchr s c); simpl; split; congruence.
Qed.

Lemma strchr_Some (s : string) (c : ascii) (k : nat) :
  strchr s c = Some k →
  s = take k s +:+ String c (drop (S k) s) ∧ mem c (take k s) = false
  ∧ k < String.length s.
Proof.
  revert k. induction s as [|d s IH]; simpl; intros k Hk; [done|].
  destruct (Ascii.eqb d c) eqn:E.
  - apply Ascii.eqb_eq in E as ->. injection Hk as <-. simpl.
    split; [done|]. split; [done | lia].
  - destruct (strchr s c) as [j|] eqn:Ej; simpl in Hk; [|done].
    injection Hk as <-. destruct (IH j eq_refl) as (Hs & Hm & Hl).
    split; [|split].
    + change (String d s = String d (take j s +:+ String c (drop (S j) s))).
      by f_equal.
    + simpl. by rewrite E.
    + simpl. lia.
Qed.

Lemma strchr_app (a b : string) (c : ascii) :
  mem c a = false → strchr (a +:+ String c b) c = Some (String.length a).
Proof.
  induction a as [|d a IH]; simpl; intros Hm.
  - by rewrite Ascii.eqb_refl.
  - apply orb_false_iff in Hm as [-> Hm]. by rewrite IH.
Qed.

Lemma c_str_id (s : string) : c_string s → FileUtils.c_str s = s.
Proof.
  unfold c_string. induction s as [|d s IH]; simpl; [done|].
  intros Hm. apply orb_false_iff in Hm as [-> Hm]. by rewrite IH.
Qed.

Lemma c_string_app (a b : string) :
  c_string (a +:+ b) ↔ c_string a ∧ c_string b.
Proof. unfold c_string. rewrite mem_app. apply orb_false_iff. Qed.

End StrFacts.

(** ** fileutils.cpp: [normalize_path], [has_path_prefix],
    [make_path_relative], [make_path_absolute] *)

Module PathFacts.
Import Cpp Str FileUtils PathModel StrFacts.
#[local] Arguments String.append !_ _ : simpl nomatch.

(** *** The loop of [normalize_path] is a fold over the segments *)

Lemma segs_nonempty (s : string) : s ≠ "" → segs s ≠ [].
Proof.
  destruct s as [|c s]; [done|]. intros _. simpl.
  destruct (Ascii.eqb c SLASH); [done|]. by destruct (segs s).
Qed.

Lemma segs_no_slash (a : string) :
  mem SLASH a = false → a ≠ "" → segs a = [a].
Proof.
  induction a as [|c a IH]; [done|]. simpl. intros Hm _.
  apply orb_false_iff in Hm as [-> Hm].
  destruct a as [|d a]; [done|]. by rewrite IH.
Qed.

Lemma segs_app_slash (a b : string) :
  mem SLASH a = false → segs (a +:+ String SLASH b) = a :: segs b.
Proof.
  induction a as [|c a IH]; simpl; intros Hm.
  - done.
  - apply orb_false_iff in Hm as [-> Hm]. by rewrite IH.
Qed.

Lemma normalize_loop_run (fuel : nat) (path : string) (st : list string) :
  String.length path < fuel →
  normalize_loop fuel path st = run st (segs path).
Proof.
  revert path st. induction fuel as [|fuel IH]; intros path st Hf; [lia|].
  cbn [normalize_loop]. destruct (empty path) eqn:He.
  { apply empty_true in He as ->. done. }
  apply empty_false in He.
  destruct (strchr path SLASH) as [k|] eqn:Hk.
  - apply strchr_Some in Hk as (Hs & Hm & Hl).
    rewrite IH.
    + rewrite Hs at 3. by rewrite segs_app_slash.
    + assert (String.length path
              = String.length (take k path)
                + S (String.length (drop (S k) path))) as Hlen.
      { rewrite Hs at 1. by rewrite str_length_app. }
      lia.
  - apply strchr_None in Hk. by rewrite segs_no_slash.
Qed.

Lemma segs_slash_free (s : string) :
  Forall (λ x, mem SLASH x = false) (segs s).
Proof.
  induction s as [|c s IH]; simpl; [constructor|].
  destruct (Ascii.eqb c SLASH) eqn:E; [by constructor|].
  destruct (segs s) as [|x xs]; simpl.
  - repeat constructor. simpl. by rewrite E.
  - inversion IH; subst. constructor; [|done]. simpl. by rewrite E.
Qed.

(** *** The segment stack stays resolved *)

Lemma last_snoc_plain (k : nat) (l : list string) (x : string) :
  last (replicate k ".." ++ l ++ [x]) = Some x.
Proof. by rewrite app_assoc, last_snoc. Qed.

Lemma snoc_not_nil {X} (l : list X) (x : X) : l ++ [x] ≠ [].
Proof. by destruct l. Qed.

Lemma normalize_step_resolved (seg : string) (st : list string) :
  mem SLASH seg = false → resolved st → resolved (normalize_step seg st).
Proof.
  intros Hseg (k & l & -> & Hl). unfold normalize_step.
  destruct (String.eqb_spec seg "..") as [->|Hdd]; simpl.
  - induction l as [|x l0 _] using rev_ind.
    + (* only [..] so far: the segment is kept *)
      rewrite app_nil_r.
      destruct k as [|k].
      * simpl. exists 1, []. by split.
      * rewrite replicate_S_end, last_snoc. simpl.
        rewrite andb_false_r.
        exists (S (S k)), []. split; [|done].
        rewrite app_nil_r. by rewrite <- !replicate_S_end.
    + (* a plain segment on top: it is popped *)
      rewrite last_snoc_plain.
      apply Forall_app in Hl as [Hl0 Hx]. inversion Hx as [|? ? Hpx _]; subst.
      destruct Hpx as (_ & _ & Hxdd & _).
      assert (replicate k ".." ++ l0 ++ [x] ≠ []) as Hne.
      { rewrite app_assoc. apply snoc_not_nil. }
      rewrite bool_decide_false by done.
      rewrite bool_decide_false by congruence. simpl.
      rewrite app_assoc, removelast_last.
      exists k, l0. done.
  - destruct (String.eqb_spec seg ".") as [->|Hd]; simpl.
    { by exists k, l. }
    destruct (String.eqb_spec seg "") as [->|He]; simpl.
    { by exists k, l. }
    exists k, (l ++ [seg]). split; [by rewrite app_assoc|].
    apply Forall_app. split; [done|]. by repeat constructor.
Qed.

Lemma run_resolved (l st : list string) :
  Forall (λ x, mem SLASH x = false) l → resolved st → resolved (run st l).
Proof.
  revert st. induction l as [|x l IH]; intros st Hl Hst; [done|].
  inversion Hl; subst. simpl. apply IH; [done|].
  by apply normalize_step_resolved.
Qed.

Lemma resolved_nil : resolved [].
Proof. by exists 0, []. Qed.

(** *** The result of [normalize_path] is the joined segment stack *)

Lemma append_segments_join (l : list string) (r : string) :
  l ≠ [] → pop_back (append_segments r l) = r +:+ join l.
Proof.
  revert r. induction l as [|x l IH]; intros r Hne; [done|].
  unfold append_segments in *. simpl foldl.
  destruct l as [|y l].
  - simpl. by rewrite <- str_app_assoc, pop_back_push.
  - rewrite IH by done. rewrite !str_app_assoc. done.
Qed.

Lemma normalize_path_join (path : string) :
  normalize_path path = root_of path +:+ join (run [] (segs path)).
Proof.
  unfold normalize_path, root_of.
  rewrite normalize_loop_run by lia.
  destruct (run [] (segs path)) as [|x l] eqn:E.
  - by rewrite str_app_nil_r.
  - by rewrite append_segments_join.
Qed.

Lemma resolved_solid (l : list string) : resolved l → Forall solid l.
Proof.
  intros (k & l' & -> & Hl). apply Forall_app. split.
  - apply Forall_replicate. by split.
  - eapply Forall_impl; [done|]. intros x (? & _ & _ & ?). by split.
Qed.

Lemma solid_front (x : string) : solid x → char_at x 0 ≠ SLASH.
Proof.
  intros [Hne Hm]. apply mem_char_at; [done|]. destruct x; [done | simpl; lia].
Qed.

Lemma solid_back (x : string) : solid x → back x ≠ SLASH.
Proof.
  intros [Hne Hm]. rewrite back_char_at by done.
  apply mem_char_at; [done|]. destruct x; [done | simpl; lia].
Qed.

Lemma join_cons (x y : string) (l : list string) :
  join (x :: y :: l) = x +:+ "/" +:+ join (y :: l).
Proof. done. Qed.

Lemma join_not_empty (l : list string) :
  Forall solid l → l ≠ [] → join l ≠ "".
Proof.
  destruct l as [|x l]; [done|]. intros Hl _. inversion Hl as [|? ? [Hx _] _]; subst.
  destruct l; simpl; [done|]. by destruct x.
Qed.

Lemma join_front (l : list string) :
  Forall solid l → char_at (join l) 0 ≠ SLASH.
Proof.
  destruct l as [|x l]; [done|]. intros Hl. inversion Hl as [|? ? Hx _]; subst.
  destruct l as [|y l]; [by apply solid_front|].
  rewrite join_cons. rewrite char_at_app_l; [by apply solid_front|].
  destruct Hx as [Hx _]. destruct x; [done | simpl; lia].
Qed.

Lemma join_back (l : list string) :
  Forall solid l → l ≠ [] → back (join l) ≠ SLASH.
Proof.
  induction l as [|x l IH]; [done|]. intros Hl _. inversion Hl; subst.
  destruct l as [|y l]; [by apply solid_back|].
  rewrite join_cons. rewrite !back_app; [by apply IH| |].
  - by apply join_not_empty.
  - simpl. discriminate.
Qed.

Lemma join_app (l1 l2 : list string) :
  l1 ≠ [] → l2 ≠ [] → join (l1 ++ l2) = join l1 +:+ "/" +:+ join l2.
Proof.
  induction l1 as [|x l1 IH]; [done|]. intros _ Hl2.
  destruct l1 as [|y l1].
  - simpl. by destruct l2.
  - change (join (x :: (y :: l1) ++ l2)
            = (x +:+ "/" +:+ join (y :: l1)) +:+ "/" +:+ join l2).
    simpl app. rewrite join_cons. rewrite <- app_comm_cons in IH.
    rewrite IH by done. by rewrite !str_app_assoc.
Qed.

Lemma run_segs_resolved (path : string) : resolved (run [] (segs path)).
Proof. apply run_resolved; [apply segs_slash_free | apply resolved_nil]. Qed.

(** *** [normalize_path] *)



(** *** [has_path_prefix] *)

Lemma char_at_0_slash (s : string) :
  char_at s 0 = SLASH → ∃ r, s = String SLASH r.
Proof. destruct s as [|c r]; [done|]. unfold char_at; simpl. intros ->. by exists r. Qed.

Lemma has_path_prefix_iff (path prefix : string) :
  has_path_prefix path prefix = true ↔
  prefix ≠ "" ∧
  (path = prefix ∨
   ∃ rest, path = prefix +:+ rest
           ∧ (back prefix = SLASH ∨ char_at rest 0 = SLASH)).
Proof.
  unfold has_path_prefix.
  destruct (empty prefix) eqn:He.
  { apply empty_true in He as ->. split; [done | by intros [? _]]. }
  apply empty_false in He.
  destruct (String.eqb_spec path prefix) as [->|Hne].
  { split; [|done]. intros _. split; [done | by left]. }
  destruct (Ascii.eqb_spec (back prefix) SLASH) as [Hb|Hb]; simpl.
  - rewrite String.eqb_eq. split.
    + intros Ht. split; [done|]. right.
      apply take_prefix in Ht as [r ->]; [|done]. exists r. by split; [|left].
    + intros [_ [->|(rest & -> & _)]]; [done|]. apply take_app_length.
  - rewrite String.eqb_eq. unfold push_back. split.
    + intros Ht. split; [done|]. right.
      apply take_prefix in Ht as [r ->]; [|done].
      exists (String SLASH r). split; [by rewrite str_app_assoc | by right].
    + intros [_ [->|(rest & -> & [Hb'|Hr])]]; [done..|].
      apply char_at_0_slash in Hr as [r ->].
      replace (prefix +:+ String SLASH r)
        with ((prefix +:+ String SLASH "") +:+ r)
        by by rewrite str_app_assoc.
      apply take_app_length.
Qed.

(** C7.  [has_path_prefix] takes the prefix by whole segments: it holds
    exactly when the prefix is not empty and the path either is the prefix
    or continues it at a segment boundary (the prefix ends with a slash, or
    what follows it starts with one).  So no path has the empty prefix,
    ["/foobar"] is not a prefix of ["/foo"], and ["/foo"] is one of
    ["/foo/bar"]. *)
Theorem has_path_prefix_segment_aligned :
  (∀ path prefix : string,
      has_path_prefix path prefix = true ↔
      prefix ≠ "" ∧
      (path = prefix ∨
       ∃ rest, path = prefix +:+ rest
               ∧ (back prefix = SLASH ∨ char_at rest 0 = SLASH)))
  ∧ (∀ p : string, has_path_prefix p "" = false)
  ∧ has_path_prefix "/foo" "/foobar" = false
  ∧ has_path_prefix "/foo/bar" "/foo" = true.
Proof.
  split; [exact has_path_prefix_iff|]. by repeat split.
Qed.

(** C7 applied: ["/foo/bar"] continues ["/foo"] with ["/bar"]. *)
Lemma has_path_prefix_segment_aligned_witness :
  "/foo" ≠ ""
  ∧ ("/foo/bar" = "/foo"
     ∨ ∃ rest, "/foo/bar" = "/foo" +:+ rest
               ∧ (back "/foo" = SLASH ∨ char_at rest 0 = SLASH)).
Proof.
  apply (proj1 has_path_prefix_segment_aligned "/foo/bar" "/foo").
  reflexivity.
Defined.

(** *** [make_path_relative] with an empty project root *)

(** C10.  With [RECC_PROJECT_ROOT] empty, [make_path_relative] returns its
    input path as it is, for every path and every working directory (null
    included): the empty prefix matches no path, so in particular an
    absolute path is never turned into a relative one. *)
Theorem make_path_relative_empty_root :
  ∀ (path : string) (workingDirectory : option string),
    has_path_prefix path "" = false
    ∧ make_path_relative "" path workingDirectory = Ok path.
Proof.
  intros path [wd|]; (split; [done|]); [|done].
  unfold make_path_relative. simpl has_path_prefix. simpl negb.
  by rewrite !orb_true_r.
Qed.

(** *** Normalizing a path below a directory *)

Lemma segs_app_slash_gen (a b : string) :
  segs (a +:+ String SLASH b)
  = segs a
    ++ (if empty a || Ascii.eqb (back a) SLASH then [""] else [])
    ++ segs b.
Proof.
  induction a as [|c a IH]; [done|].
  change (String c a +:+ String SLASH b)
    with (String c (a +:+ String SLASH b)).
  cbn [segs]. rewrite IH. clear IH.
  destruct a as [|d a].
  - simpl. destruct (Ascii.eqb c SLASH); done.
  - rewrite (back_cons c) by done. cbn [empty orb].
    destruct (Ascii.eqb c SLASH); [done|].
    pose proof (segs_nonempty (String d a)) as Hne.
    destruct (segs (String d a)) as [|x xs]; [by exfalso; apply Hne|].
    done.
Qed.

Lemma run_app (st l1 l2 : list string) :
  run st (l1 ++ l2) = run (run st l1) l2.
Proof. apply foldl_app. Qed.

Lemma run_segs_app_slash (st : list string) (a b : string) :
  run st (segs (a +:+ String SLASH b)) = run (run st (segs a)) (segs b).
Proof.
  rewrite segs_app_slash_gen, !run_app.
  by destruct (empty a || Ascii.eqb (back a) SLASH).
Qed.

(** A [".."] on the stack is never popped. *)
Lemma normalize_step_keeps_dotdot (x : string) (acc : list string) :
  ".." ∈ acc → ".." ∈ normalize_step x acc.
Proof.
  intros Hin. unfold normalize_step.
  destruct (String.eqb x ".." && negb (bool_decide (acc = []))
            && negb (bool_decide (last acc = Some ".."))) eqn:E.
  - apply andb_true_iff in E as [_ E]. apply negb_true_iff in E.
    apply bool_decide_eq_false in E.
    induction acc as [|y acc0 _] using rev_ind; [done|].
    rewrite removelast_last. rewrite last_snoc in E.
    apply elem_of_app in Hin as [?|Hy]; [done|].
    apply list_elem_of_singleton in Hy. congruence.
  - destruct (negb (String.eqb x ".") && negb (String.eqb x "")); [|done].
    apply elem_of_app. by left.
Qed.

Lemma run_keeps_dotdot (l acc : list string) :
  ".." ∈ acc → ".." ∈ run acc l.
Proof.
  revert acc. induction l as [|x l IH]; intros acc Hin; [done|].
  simpl. by apply IH, normalize_step_keeps_dotdot.
Qed.

Lemma run_frame (l st acc : list string) :
  ".." ∉ run acc l → run (st ++ acc) l = st ++ run acc l.
Proof.
  revert acc. induction l as [|x l IH]; intros acc Hno; [done|].
  simpl in *.
  assert (normalize_step x (st ++ acc) = st ++ normalize_step x acc) as ->;
    [|by apply IH].
  unfold normalize_step in *.
  destruct (String.eqb_spec x "..") as [->|Hx]; simpl in *.
  - induction acc as [|y acc0 _] using rev_ind.
    + exfalso. apply Hno. apply run_keeps_dotdot. simpl. set_solver.
    + rewrite app_assoc, !last_snoc in *.
      rewrite (bool_decide_false (acc0 ++ [y] = [])) in * by apply snoc_not_nil.
      rewrite (bool_decide_false ((st ++ acc0) ++ [y] = []))
        by apply snoc_not_nil.
      simpl in *. destruct (bool_decide (Some y = Some "..")) eqn:E; simpl in *.
      * exfalso. apply Hno. apply run_keeps_dotdot. set_solver.
      * by rewrite !removelast_last.
  - destruct (negb (String.eqb x ".") && negb (String.eqb x ""));
      [by rewrite app_assoc | done].
Qed.

(** *** The fuel of the loops of [make_path_relative] is enough *)

Lemma match_loop_fuel (path wd : string) (fuel1 fuel2 i last : nat) :
  String.length path - i < fuel1 → String.length path - i < fuel2 →
  match_loop fuel1 path wd i last = match_loop fuel2 path wd i last.
Proof.
  revert fuel2 i last. induction fuel1 as [|fuel1 IH]; intros fuel2 i last H1 H2;
    [lia|].
  destruct fuel2 as [|fuel2]; [lia|]. cbn [match_loop].
  destruct (Nat.ltb_spec i (String.length path)) as [Hi|Hi]; [|done].
  destruct (Ascii.eqb (char_at path i) (char_at wd i)); [|done]. cbn [andb].
  repeat case_match; try done; apply IH; lia.
Qed.

Lemma count_dotdots_fuel (wd : string) (fuel1 fuel2 i n : nat) :
  String.length wd - i < fuel1 → String.length wd - i < fuel2 →
  count_dotdots fuel1 wd i n = count_dotdots fuel2 wd i n.
Proof.
  revert fuel2 i n. induction fuel1 as [|fuel1 IH]; intros fuel2 i n H1 H2;
    [lia|].
  destruct fuel2 as [|fuel2]; [lia|]. cbn [count_dotdots].
  destruct (Ascii.eqb_spec (char_at wd i) NUL) as [|Hc]; [done|].
  assert (i < String.length wd).
  { destruct (Nat.lt_ge_cases i (String.length wd)); [done|].
    by rewrite char_at_ge in Hc. }
  apply IH; lia.
Qed.
(** *** [make_path_absolute] then [make_path_relative] *)

Lemma has_path_prefix_extend (a b root : string) :
  has_path_prefix a root = true →
  back a = SLASH ∨ char_at b 0 = SLASH →
  has_path_prefix (a +:+ b) root = true.
Proof.
  rewrite !has_path_prefix_iff. intros [Hr Ha] Hab. split; [done|]. right.
  destruct Ha as [->|(rest & -> & Hrest)].
  - by exists b.
  - exists (rest +:+ b). split; [by rewrite str_app_assoc|].
    destruct Hrest as [?|Hrest]; [by left|].
    destruct rest as [|c rest].
    + rewrite str_app_nil_r in Hab. simpl. destruct Hab; [by left | by right].
    + right. done.
Qed.

Lemma match_loop_below (wd r : string) :
  c_string wd → back wd ≠ SLASH → r ≠ "" →
  ∀ (n i last fuel : nat),
    i + n + 1 = String.length wd → n < fuel →
    match_loop fuel (wd +:+ String SLASH r) wd i last = Return r.
Proof.
  intros Hc Hb Hr. set (path := wd +:+ String SLASH r).
  assert (String.length path = String.length wd + 1 + String.length r) as Hlen.
  { unfold path. rewrite str_length_app. simpl. lia. }
  assert (0 < String.length r) as Hlr by (destruct r; [done | simpl; lia]).
  induction n as [|n IH]; intros i last fuel Hi Hf;
    (destruct fuel as [|fuel]; [lia|]); cbn [match_loop].
  - assert ((i <? String.length path) = true) as -> by (apply Nat.ltb_lt; lia).
    assert (char_at path i = char_at wd i) as Hpi
      by (apply char_at_app_l; lia).
    rewrite Hpi, Ascii.eqb_refl. cbn [andb].
    replace (i + 1) with (String.length wd) by lia.
    rewrite char_at_length, Ascii.eqb_refl.
    assert ((String.length path =? String.length wd) = false) as ->
      by (apply Nat.eqb_neq; lia).
    assert ((String.length path =? i + 2) = false) as ->
      by (apply Nat.eqb_neq; lia).
    cbn [andb].
    assert (wd ≠ "") as Hwd by (intros ->; simpl in Hi; lia).
    rewrite back_char_at in Hb by done.
    replace (String.length wd - 1) with i in Hb by lia.
    apply Ascii.eqb_neq in Hb. rewrite Hb.
    assert (char_at path (String.length wd) = SLASH) as ->.
    { unfold path. rewrite <- (Nat.add_0_r (String.length wd)).
      by rewrite char_at_app_r. }
    rewrite Ascii.eqb_refl. f_equal.
    replace (i + 2) with (String.length wd + 1) by lia.
    unfold path. by rewrite drop_app_plus.
  - assert ((i <? String.length path) = true) as -> by (apply Nat.ltb_lt; lia).
    assert (char_at path i = char_at wd i) as Hpi
      by (apply char_at_app_l; lia).
    rewrite Hpi, Ascii.eqb_refl. cbn [andb].
    assert (Ascii.eqb (char_at wd (i + 1)) NUL = false) as ->.
    { apply Ascii.eqb_neq. apply mem_char_at; [done | lia]. }
    destruct (Ascii.eqb (char_at wd i) SLASH); apply IH; lia.
Qed.

Lemma match_loop_root (r : string) (fuel last : nat) :
  r ≠ "" → char_at r 0 ≠ SLASH →
  match_loop (S fuel) (String SLASH r) "/" 0 last = Return r.
Proof.
  intros Hr Hr0. destruct r as [|c r]; [done|].
  cbn [match_loop]. simpl. unfold char_at in Hr0. simpl in Hr0.
  apply Ascii.eqb_neq in Hr0.
  change (char_at (String SLASH (String c r)) 1) with c.
  rewrite Hr0. rewrite andb_false_r. done.
Qed.

Lemma root_of_relative (p : string) : char_at p 0 ≠ SLASH → root_of p = "".
Proof. unfold root_of. intros Hp. apply Ascii.eqb_neq in Hp. by rewrite Hp. Qed.

Lemma root_of_absolute (p : string) : char_at p 0 = SLASH → root_of p = "/".
Proof. unfold root_of. intros ->. by rewrite Ascii.eqb_refl. Qed.

(** A relative path whose normal form does not start with [".."] leaves
    no [".."] on the stack. *)
Lemma inside_no_dotdot (p : string) :
  char_at p 0 ≠ SLASH →
  has_path_prefix (normalize_path p) ".." = false →
  ".." ∉ run [] (segs p).
Proof.
  intros Hrel Hpre. rewrite normalize_path_join, root_of_relative in Hpre by done.
  simpl in Hpre.
  destruct (run_segs_resolved p) as (k & l & Hkl & Hl). rewrite Hkl in *.
  destruct k as [|k].
  - simpl. intros Hin. rewrite Forall_forall in Hl.
    apply Hl in Hin. by destruct Hin as (_ & _ & ? & _).
  - exfalso. apply not_true_iff_false in Hpre. apply Hpre.
    apply has_path_prefix_iff. split; [done|].
    simpl replicate. simpl app.
    destruct (replicate k ".." ++ l) as [|y l'] eqn:E.
    + by left.
    + right. exists ("/" +:+ join (y :: l')). by split; [|right].
Qed.

Lemma make_path_absolute_below (p cwd : string) :
  c_string cwd → c_string p →
  char_at cwd 0 = SLASH → normalize_path cwd = cwd →
  char_at p 0 ≠ SLASH → normalize_path p ≠ "" →
  ".." ∉ run [] (segs p) →
  ∃ r, r = normalize_path p
           +:+ (if Ascii.eqb (back p) SLASH then "/" else "")
       ∧ ((cwd = "/" ∧ make_path_absolute p cwd = String SLASH r)
          ∨ (back cwd ≠ SLASH
             ∧ make_path_absolute p cwd = cwd +:+ String SLASH r)).
Proof.
  intros Hcc Hcp Habs Hnorm Hrel Hne Hno.
  eexists; split; [reflexivity|].
  assert (p ≠ "") as Hp by (by intros ->).
  unfold make_path_absolute.
  assert (empty p = false) as -> by by apply empty_false.
  unfold front. apply Ascii.eqb_neq in Hrel as Hrel'. rewrite Hrel'. cbn [orb].
  rewrite c_str_id.
  2:{ apply c_string_app. split; [done|]. unfold c_string in *. simpl. done. }
  set (cs := run [] (segs cwd)). set (qs := run [] (segs p)).
  assert (normalize_path p = join qs) as Hq.
  { by rewrite normalize_path_join, root_of_relative. }
  assert (cwd = "/" +:+ join cs) as Hcwd.
  { rewrite <- Hnorm at 1. by rewrite normalize_path_join, root_of_absolute. }
  assert (Forall solid qs) as Hsq by apply resolved_solid, run_segs_resolved.
  assert (Forall solid cs) as Hsc by apply resolved_solid, run_segs_resolved.
  assert (qs ≠ []) as Hqs.
  { intros E. apply Hne. by rewrite Hq, E. }
  assert (normalize_path (cwd +:+ String SLASH p) = "/" +:+ join (cs ++ qs))
    as Hfull.
  { rewrite normalize_path_join, run_segs_app_slash. fold cs.
    rewrite <- (app_nil_r cs) at 1. rewrite run_frame by done. fold qs.
    rewrite root_of_absolute; [done|].
    rewrite char_at_app_l; [done|]. destruct cwd; [done | simpl; lia]. }
  rewrite Hfull, Hq.
  assert (back ("/" +:+ join (cs ++ qs)) ≠ SLASH) as Hback.
  { rewrite back_app.
    - apply join_back; [by apply Forall_app | by destruct cs].
    - apply join_not_empty; [by apply Forall_app | by destruct cs]. }
  apply Ascii.eqb_neq in Hback. rewrite Hback. cbn [negb]. rewrite andb_true_r.
  destruct cs as [|c cs'] eqn:Ecs.
  - left. split; [done|]. simpl app. unfold push_back.
    change ("/" +:+ join qs) with (String SLASH (join qs)).
    destruct (Ascii.eqb (back p) SLASH).
    + done.
    + by rewrite str_app_nil_r.
  - right. split.
    { rewrite Hcwd, back_app;
        [by apply join_back | by apply join_not_empty]. }
    rewrite join_app by done. rewrite Hcwd.
    generalize (join (c :: cs')). intros jc. unfold push_back.
    destruct (Ascii.eqb (back p) SLASH).
    + rewrite !str_app_assoc. done.
    + rewrite !str_app_assoc, str_app_nil_r. done.
Qed.

(** C6, as the code has it.  Let [cwd] be a normalized absolute path under
    the project root and [p] a relative path whose normal form is not empty
    and does not start with [".."] (so [p] names something strictly inside
    [cwd]).  Then making [p] absolute and relative again gives the normal
    form of [p], followed by a slash when [p] ends with one: it is exactly
    [normalize_path p] when [p] has no trailing slash. *)
Theorem make_relative_of_make_absolute :
  ∀ (root p cwd : string),
    c_string cwd → c_string p →
    char_at cwd 0 = SLASH → normalize_path cwd = cwd →
    has_path_prefix cwd root = true →
    char_at p 0 ≠ SLASH →
    normalize_path p ≠ "" →
    has_path_prefix (normalize_path p) ".." = false →
    make_path_relative root (make_path_absolute p cwd) (Some cwd)
    = Ok (normalize_path p
          +:+ (if Ascii.eqb (back p) SLASH then "/" else ""))
    ∧ (back p ≠ SLASH →
       make_path_relative root (make_path_absolute p cwd) (Some cwd)
       = Ok (normalize_path p)).
Proof.
  intros root p cwd Hcc Hcp Habs Hnorm Hroot Hrel Hne Hin.
  assert (make_path_relative root (make_path_absolute p cwd) (Some cwd)
          = Ok (normalize_path p
                +:+ (if Ascii.eqb (back p) SLASH then "/" else ""))) as Hmain.
  2:{ split; [done|]. intros Hb. apply Ascii.eqb_neq in Hb.
      rewrite Hmain, Hb. by rewrite str_app_nil_r. }
  pose proof (inside_no_dotdot p Hrel Hin) as Hno.
  destruct (make_path_absolute_below p cwd Hcc Hcp Habs Hnorm Hrel Hne Hno)
    as (r & Hr & Hcases).
  rewrite <- Hr.
  assert (r ≠ "") as Hr_ne.
  { rewrite Hr. intros E. apply str_app_eq_nil in E as [? _]. done. }
  assert (char_at r 0 ≠ SLASH) as Hr0.
  { rewrite Hr. rewrite char_at_app_l.
    - rewrite normalize_path_join, root_of_relative by done.
      apply join_front, resolved_solid, run_segs_resolved.
    - destruct (normalize_path p); [done | simpl; lia]. }
  assert (cwd ≠ "") as Hcwd by (by intros ->).
  unfold make_path_relative.
  destruct Hcases as [[-> ->] | [Hback ->]].
  - assert (has_path_prefix (String SLASH r) root = true) as ->.
    { apply (has_path_prefix_extend "/" r); [done | by left]. }
    cbn [empty String.length Nat.eqb orb negb].
    change (char_at (String SLASH r) 0) with SLASH.
    change (char_at "/" 0) with SLASH.
    rewrite Ascii.eqb_refl. cbn [orb negb].
    by rewrite match_loop_root.
  - assert (has_path_prefix (cwd +:+ String SLASH r) root = true) as ->.
    { apply has_path_prefix_extend; [done | by right]. }
    assert (empty cwd = false) as -> by by apply empty_false.
    assert (0 < String.length cwd) as Hl by (destruct cwd; [done | simpl; lia]).
    rewrite char_at_app_l by done. rewrite Habs, Ascii.eqb_refl.
    assert ((String.length (cwd +:+ String SLASH r) =? 0) = false) as ->.
    { apply Nat.eqb_neq. rewrite str_length_app. lia. }
    cbn [orb negb].
    rewrite (match_loop_below cwd r Hcc Hback Hr_ne (String.length cwd - 1) 0 0);
      [done | lia |].
    rewrite str_length_app. lia.
Qed.

(** C6 applied: [lib/./util/../x.c] below [/proj/src]. *)
Lemma make_relative_of_make_absolute_witness :
  make_path_relative "/proj"
    (make_path_absolute "lib/./util/../x.c" "/proj/src") (Some "/proj/src")
  = Ok "lib/x.c".
Proof.
  change (Ok "lib/x.c")
    with (Ok (A := string) (normalize_path "lib/./util/../x.c"
              +:+ (if Ascii.eqb (back "lib/./util/../x.c") SLASH
                   then "/" else ""))).
  apply (make_relative_of_make_absolute "/proj" "lib/./util/../x.c" "/proj/src");
    vm_compute; done.
Defined.

(** C6 as stated fails: [cwd = /proj/src] is under the root [/proj] and
    [a/] is inside [cwd], but the round trip gives ["a/"], with the slash
    that [make_path_absolute] keeps, where [normalize_path] gives ["a"]. *)
Lemma make_relative_of_make_absolute_counterexample :
  let root := "/proj" in
  let cwd := "/proj/src" in
  let p := "a/" in
  has_path_prefix cwd root = true
  ∧ has_path_prefix (make_path_absolute p cwd) cwd = true
  ∧ make_path_relative root (make_path_absolute p cwd) (Some cwd) = Ok "a/"
  ∧ normalize_path p = "a"
  ∧ make_path_relative root (make_path_absolute p cwd) (Some cwd)
    ≠ Ok (normalize_path p).
Proof. repeat split; vm_compute; congruence. Qed.

(** The other conditions of C6 are needed as well: ["."] comes back as
    ["."] while its normal form is empty, an absolute [p] inside [cwd]
    comes back relative, a [p] that leaves the project root comes back
    absolute, and a [cwd] that is not normalized sends the result through
    [".."]. *)
Lemma make_relative_of_make_absolute_limits :
  (make_path_relative "/proj" (make_path_absolute "." "/proj/src")
     (Some "/proj/src") = Ok "."
   ∧ normalize_path "." = "")
  ∧ (make_path_relative "/proj" (make_path_absolute "/proj/src/x.c" "/proj/src")
       (Some "/proj/src") = Ok "x.c"
     ∧ normalize_path "/proj/src/x.c" = "/proj/src/x.c")
  ∧ (make_path_relative "/proj" (make_path_absolute "../../x.c" "/proj/src")
       (Some "/proj/src") = Ok "/x.c"
     ∧ normalize_path "../../x.c" = "../../x.c")
  ∧ (make_path_relative "/proj" (make_path_absolute "x.c" "/proj//src")
       (Some "/proj//src") = Ok "../../src/x.c"
     ∧ normalize_path "x.c" = "x.c").
Proof. repeat split; vm_compute; reflexivity. Qed.

End PathFacts.

(** ** grpcretry.cpp: [grpc_retry] *)

Module RetryFacts.
Import Cpp Grpc.

(** Unfolding of the monadic code. *)
Ltac munfold :=
  repeat (progress (unfold mbind, M_bind, bind, new_client_context,
                    make_client_context, gets, emit, modify, mret, M_ret,
                    ret, throw, exit, diverge, lift, attempt_entry,
                    fresh_context; cbn)).

Lemma invocations_app (t1 t2 : list event) :
  invocations (t1 ++ t2) = invocations t1 + invocations t2.
Proof. unfold invocations. by rewrite filter_app, length_app. Qed.

Lemma marks_app (t1 t2 : list event) : marks (t1 ++ t2) = marks t1 ++ marks t2.
Proof. unfold marks. apply omap_app. Qed.

Lemma invocations_cons (e : event) (t : list event) :
  invocations (e :: t) = (if is_invoke e then 1 else 0) + invocations t.
Proof.
  unfold invocations. rewrite filter_cons.
  destruct (is_invoke e); case_decide; done.
Qed.

Lemma attempts_cons (m : mark) (l : list mark) :
  attempts (m :: l) = (if is_attempt m then 1 else 0) + attempts l.
Proof.
  unfold attempts. rewrite filter_cons.
  destruct (is_attempt m); case_decide; done.
Qed.

Lemma invocations_marks (t : list event) : invocations t = attempts (marks t).
Proof.
  induction t as [|e t IH]; [done|].
  rewrite invocations_cons, IH.
  destruct e; cbn [marks omap is_invoke]; fold (marks t);
    rewrite ?attempts_cons; done.
Qed.

Lemma attempts_backoff (delay n : Z) (k : nat) :
  attempts (backoff delay n k) = S k.
Proof.
  revert n. induction k as [|k IH]; intros n; [done|].
  cbn [backoff]. rewrite !attempts_cons, IH. done.
Qed.

Lemma attempts_run_marks (wait : Z → Z) (n : Z) (k : nat) :
  attempts (run_marks wait n k) = S k.
Proof.
  revert n. induction k as [|k IH]; intros n; [done|].
  cbn [run_marks]. rewrite !attempts_cons, IH. done.
Qed.

(** Where the delay fits, the cast is the identity and the wait is the
    product [RETRY_DELAY * 2^n]. *)
Lemma time_delay_fits (DELAY n : Z) :
  (0 ≤ n)%Z → delay_fits DELAY n = true →
  time_delay DELAY n = (DELAY * 2 ^ n)%Z.
Proof.
  intros Hn Hfit. unfold time_delay. rewrite Hfit. unfold delay_product.
  by apply Z.leb_le in Hn as ->.
Qed.

Lemma run_marks_backoff (DELAY : Z) (k : nat) :
  ∀ n : Z,
    (0 ≤ n)%Z → delays_fit DELAY (n + Z.of_nat k) →
    run_marks (time_delay DELAY) n k = backoff DELAY n k.
Proof.
  induction k as [|k IH]; intros n Hn Hfit; [done|].
  cbn [run_marks backoff]. rewrite time_delay_fits by (try apply Hfit; lia).
  rewrite IH; [done | lia |]. intros m Hm. apply Hfit. lia.
Qed.

(** A closed form of the range condition for a delay that is not
    negative: the limit is at most 1024 and the last delay fits. *)
Lemma delays_fit_last (DELAY LIMIT : Z) :
  (0 ≤ DELAY)%Z → (LIMIT ≤ 1024)%Z →
  (DELAY * 2 ^ (LIMIT - 1) ≤ INT_MAX)%Z →
  delays_fit DELAY LIMIT.
Proof.
  intros Hd Hl Hlast n Hn. unfold delay_fits, delay_product.
  assert ((0 <=? n)%Z = true) as -> by (apply Z.leb_le; lia).
  assert (0 < 2 ^ n ≤ 2 ^ (LIMIT - 1))%Z as Hpow.
  { split; [apply Z.pow_pos_nonneg; lia|].
    apply Z.pow_le_mono_r; lia. }
  assert (0 ≤ DELAY * 2 ^ n ≤ DELAY * 2 ^ (LIMIT - 1))%Z as Hprod by nia.
  unfold INT_MIN, INT_MAX in *.
  rewrite !andb_true_iff, !Z.leb_le. lia.
Qed.

Lemma invocations_unmarked (t : list event) : marks t = [] → invocations t = 0.
Proof. intros Hm. by rewrite invocations_marks, Hm. Qed.

Section Retry.
Context {A W : Type} `{AuthBase A}.
Variable LIMIT DELAY : Z.
Variable rpc : ClientContext → M (proc A W) Status.

#[local] Abbreviation loop := (retry_loop LIMIT DELAY rpc).

(** One iteration of the loop. *)
Lemma retry_loop_unfold (fuel : nat) (n : Z) (refreshed : bool)
    (σ : proc A W) :
  loop (S fuel) n refreshed σ =
  match rpc (attempt_entry σ).1 (attempt_entry σ).2 with
  | (Val status, σ2) =>
      if ok status then (Val (Some Returned), σ2)
      else if (error_code status =? UNAUTHENTICATED)%Z && negb refreshed then
        if (n <? LIMIT + 1)%Z then loop fuel n true σ2
        else (Val (Some (Exhausted status)), σ2)
      else
        let σ3 :=
          if (n <? LIMIT)%Z
          then log_events
                 [LogError (attempt_error_msg LIMIT DELAY n status);
                  Sleep (time_delay DELAY n)] σ2
          else σ2 in
        if (n + 1 <? LIMIT + 1)%Z then loop fuel (n + 1)%Z refreshed σ3
        else (Val (Some (Exhausted status)), σ3)
  | (Exc e, σ2) => (Exc e, σ2)
  | (Exit c, σ2) => (Exit c, σ2)
  | (Diverge, σ2) => (Diverge, σ2)
  end.
Proof.
  cbn [retry_loop]. munfold.
  destruct (rpc _ _) as [[status| | |] σ2]; try reflexivity.
  destruct (ok status); [reflexivity|].
  destruct ((error_code status =? UNAUTHENTICATED)%Z && negb refreshed); cbn.
  - destruct (n <? LIMIT + 1)%Z; reflexivity.
  - destruct (n <? LIMIT)%Z; cbn.
    + unfold log_events; cbn. rewrite <- app_assoc.
      destruct (n + 1 <? LIMIT + 1)%Z; reflexivity.
    + destruct (n + 1 <? LIMIT + 1)%Z; reflexivity.
Qed.

Lemma trace_attempt_entry (σ : proc A W) :
  trace (attempt_entry σ).2 = trace σ ++ [Invoke (attempt_entry σ).1].
Proof. reflexivity. Qed.

Lemma trace_log_events (l : list event) (σ : proc A W) :
  trace (log_events l σ) = trace σ ++ l.
Proof. reflexivity. Qed.

(** The fuel [grpc_retry] gives the loop is enough: the loop ends by
    itself. *)
Lemma retry_loop_fuel (fuel : nat) (n : Z) (refreshed : bool)
    (σ σ' : proc A W) :
  Z.to_nat (LIMIT + 1 - n) + (if refreshed then 0 else 1) < fuel →
  loop fuel n refreshed σ ≠ (Val (@None loop_end), σ').
Proof.
  revert n refreshed σ. induction fuel as [|fuel IH]; intros n refreshed σ Hf;
    [lia|].
  rewrite retry_loop_unfold.
  destruct (rpc _ _) as [[status| | |] σ2]; try done.
  destruct (ok status); [done|].
  destruct ((error_code status =? UNAUTHENTICATED)%Z && negb refreshed) eqn:E.
  - apply andb_true_iff in E as [_ E]. apply negb_true_iff in E as ->.
    destruct (Z.ltb_spec n (LIMIT + 1)); [|done]. apply IH. lia.
  - cbn zeta. destruct (Z.ltb_spec (n + 1) (LIMIT + 1)); [|done].
    apply IH. destruct refreshed; lia.
Qed.

(** When the loop returns, the last call of the RPC has returned OK and
    nothing has happened since. *)
Lemma retry_loop_returned (fuel : nat) (n : Z) (refreshed : bool)
    (σ σ' : proc A W) :
  loop fuel n refreshed σ = (Val (Some Returned), σ') →
  ∃ ctx σ0 status, rpc ctx σ0 = (Val status, σ') ∧ ok status = true.
Proof.
  revert n refreshed σ. induction fuel as [|fuel IH]; intros n refreshed σ;
    [done|].
  rewrite retry_loop_unfold.
  destruct (rpc _ _) as [[status| | |] σ2] eqn:E; try done.
  destruct (ok status) eqn:Hok.
  { intros [= <-]. by eexists _, _, _. }
  destruct ((error_code status =? UNAUTHENTICATED)%Z && negb refreshed).
  - destruct (n <? LIMIT + 1)%Z; [apply IH | done].
  - cbn zeta. destruct (n + 1 <? LIMIT + 1)%Z; [apply IH | done].
Qed.

(** The number of calls of the RPC, whatever it answers. *)
Lemma retry_loop_bound (fuel : nat) (n : Z) (refreshed : bool)
    (σ : proc A W) :
  quiet rpc →
  invocations (trace (loop fuel n refreshed σ).2)
  ≤ invocations (trace σ) + Z.to_nat (Z.max (LIMIT + 1 - n) 1)
    + (if refreshed then 0 else 1).
Proof.
  intros Hq. revert n refreshed σ.
  induction fuel as [|fuel IH]; intros n refreshed σ; [simpl; lia|].
  rewrite retry_loop_unfold.
  destruct (Hq (attempt_entry σ).1 (attempt_entry σ).2) as (tr & Ht & Hm).
  rewrite trace_attempt_entry in Ht.
  assert (∀ σ2 : proc A W,
             trace σ2 = (trace σ ++ [Invoke (attempt_entry σ).1]) ++ tr →
                invocations (trace σ2) = invocations (trace σ) + 1) as Hinv.
  { intros σ2 ->. rewrite !invocations_app, (invocations_unmarked tr Hm).
    rewrite invocations_cons. cbn. lia. }
  destruct (rpc _ _) as [[status| | |] σ2]; cbn [snd] in *;
    try (rewrite (Hinv _ Ht); lia).
  destruct (ok status); [cbn [snd]; rewrite (Hinv _ Ht); lia|].
  destruct ((error_code status =? UNAUTHENTICATED)%Z && negb refreshed) eqn:E.
  - apply andb_true_iff in E as [_ E]. apply negb_true_iff in E as ->.
    destruct (Z.ltb_spec n (LIMIT + 1)).
    + specialize (IH n true σ2). rewrite (Hinv _ Ht) in IH. lia.
    + cbn [snd]. rewrite (Hinv _ Ht). lia.
  - cbn zeta.
    set (σ3 := if (n <? LIMIT)%Z then _ else σ2).
    assert (invocations (trace σ3) = invocations (trace σ) + 1) as H3.
    { unfold σ3. destruct (n <? LIMIT)%Z; [|by apply Hinv].
      rewrite trace_log_events, invocations_app, (Hinv _ Ht). done. }
    destruct (Z.ltb_spec (n + 1) (LIMIT + 1)).
    + specialize (IH (n + 1)%Z refreshed σ3). rewrite H3 in IH. lia.
    + cbn [snd]. rewrite H3. lia.
Qed.

(** The run of the loop on an RPC that fails every time. *)
Lemma retry_loop_exhausts (k : nat) :
  quiet rpc → always_fails rpc →
  ∀ (fuel : nat) (n : Z) (refreshed : bool) (σ : proc A W),
    Z.to_nat (LIMIT - n) = k → k < fuel →
    ∃ status σ' t ctx σ0,
      loop fuel n refreshed σ = (Val (Some (Exhausted status)), σ')
      ∧ trace σ' = trace σ ++ t
      ∧ marks t = run_marks (time_delay DELAY) n k
      ∧ rpc ctx σ0 = (Val status, σ').
Proof.
  intros Hq Hf. induction k as [|k IH]; intros fuel n refreshed σ Hk Hfuel;
    (destruct fuel as [|fuel]; [lia|]); rewrite retry_loop_unfold;
    destruct (Hq (attempt_entry σ).1 (attempt_entry σ).2) as (tr & Ht & Hm);
    destruct (Hf (attempt_entry σ).1 (attempt_entry σ).2)
      as (status & σ2 & Hrpc & Hok & Hcode);
    rewrite Hrpc in *; cbn [snd] in Ht; rewrite Hok;
    apply Z.eqb_neq in Hcode; rewrite Hcode; cbn [andb]; cbn zeta.
  - assert ((n <? LIMIT)%Z = false) as -> by (apply Z.ltb_ge; lia).
    assert ((n + 1 <? LIMIT + 1)%Z = false) as -> by (apply Z.ltb_ge; lia).
    exists status, σ2, ([Invoke (attempt_entry σ).1] ++ tr),
      (attempt_entry σ).1, (attempt_entry σ).2.
    split; [done|]. split; [|split; [|done]].
    + by rewrite Ht, trace_attempt_entry, <- app_assoc.
    + by rewrite marks_app, Hm.
  - assert ((n <? LIMIT)%Z = true) as -> by (apply Z.ltb_lt; lia).
    assert ((n + 1 <? LIMIT + 1)%Z = true) as -> by (apply Z.ltb_lt; lia).
    edestruct (IH fuel (n + 1)%Z refreshed)
      as (st & σ' & t & ctx & σ0 & -> & Ht' & Hm' & Hlast); [lia | lia |].
    exists st, σ',
      ([Invoke (attempt_entry σ).1] ++ tr
       ++ [LogError (attempt_error_msg LIMIT DELAY n status);
           Sleep (time_delay DELAY n)] ++ t), ctx, σ0.
    split; [done|]. split; [|split; [|done]].
    + rewrite Ht', trace_log_events, Ht, trace_attempt_entry.
      by rewrite <- !app_assoc.
    + rewrite !marks_app, Hm, Hm'. done.
Qed.

End Retry.

Section Driver.
Context {A W : Type} `{AuthBase A}.

Lemma grpc_retry_unfold (LIMIT DELAY : Z) rpc (σ : proc A W) :
  grpc_retry LIMIT DELAY rpc σ =
  match retry_loop LIMIT DELAY rpc (retry_fuel LIMIT) 0 false σ with
  | (Val (Some Returned), σ') => (Val tt, σ')
  | (Val (Some (Exhausted status)), σ') =>
      (Exc (runtime_error (retry_error_message LIMIT status)), σ')
  | (Val None, σ') => (Diverge, σ')
  | (Exc e, σ') => (Exc e, σ')
  | (Exit c, σ') => (Exit c, σ')
  | (Diverge, σ') => (Diverge, σ')
  end.
Proof.
  unfold grpc_retry, mbind, M_bind, bind.
  destruct (retry_loop LIMIT DELAY rpc _ _ _ _) as [[[[|status]|]| | |] σ'];
    reflexivity.
Qed.

Lemma grpc_retry_trace (LIMIT DELAY : Z) rpc (σ : proc A W) :
  trace (grpc_retry LIMIT DELAY rpc σ).2
  = trace (retry_loop LIMIT DELAY rpc (retry_fuel LIMIT) 0 false σ).2.
Proof.
  rewrite grpc_retry_unfold.
  destruct (retry_loop LIMIT DELAY rpc _ _ _ _) as [[[[|status]|]| | |] σ']; reflexivity.
Qed.

Lemma grpc_retry_returned (LIMIT DELAY : Z) rpc (σ σ' : proc A W) :
  grpc_retry LIMIT DELAY rpc σ = (Val tt, σ') →
  ∃ ctx σ0 status, rpc ctx σ0 = (Val status, σ') ∧ ok status = true.
Proof.
  rewrite grpc_retry_unfold.
  destruct (retry_loop LIMIT DELAY rpc _ _ _ _) as [[[[|status]|]| | |] σ1]
    eqn:E; try done.
  intros [= <-]. by eapply retry_loop_returned.
Qed.

Section Ends.
Variable LIMIT DELAY : Z.
Variable rpc : ClientContext → M (proc A W) Status.

(** [grpc_retry] does not return only when the RPC does not: the loop
    itself always ends. *)
Lemma retry_loop_diverge (fuel : nat) (n : Z) (refreshed : bool)
    (σ σ' : proc A W) :
  retry_loop LIMIT DELAY rpc fuel n refreshed σ = (Diverge, σ') →
  ∃ ctx σ0, rpc ctx σ0 = (Diverge, σ').
Proof.
  revert n refreshed σ. induction fuel as [|fuel IH]; intros n refreshed σ;
    [done|].
  rewrite retry_loop_unfold.
  destruct (rpc _ _) as [[status| | |] σ2] eqn:E; try done.
  - destruct (ok status); [done|].
    destruct ((error_code status =? UNAUTHENTICATED)%Z && negb refreshed).
    + destruct (n <? LIMIT + 1)%Z; [apply IH | done].
    + cbn zeta. destruct (n + 1 <? LIMIT + 1)%Z; [apply IH | done].
  - intros [= <-]. by eexists _, _.
Qed.

Lemma grpc_retry_diverge (σ σ' : proc A W) :
  grpc_retry LIMIT DELAY rpc σ = (Diverge, σ') →
  ∃ ctx σ0, rpc ctx σ0 = (Diverge, σ').
Proof.
  rewrite grpc_retry_unfold.
  destruct (retry_loop LIMIT DELAY rpc _ _ _ _) as [[[[|status]|]| | |] σ1]
    eqn:E; try done.
  - exfalso. eapply retry_loop_fuel; [|exact E]. unfold retry_fuel. lia.
  - intros [= <-]. by eapply retry_loop_diverge.
Qed.

(** An [exit] in the first call of the RPC ends [grpc_retry]. *)
Lemma grpc_retry_exit (σ σ' : proc A W) (c : Z) :
  rpc (attempt_entry σ).1 (attempt_entry σ).2 = (Exit c, σ') →
  grpc_retry LIMIT DELAY rpc σ = (Exit c, σ').
Proof.
  intros Hrpc. rewrite grpc_retry_unfold. unfold retry_fuel.
  by rewrite retry_loop_unfold, Hrpc.
Qed.
End Ends.

(** C1, as the code has it.  Whatever the RPC answers, it is called at
    most [RETRY_LIMIT + 2] times (a negative limit counting as zero).  When
    it fails every time with a status that is neither OK nor
    UNAUTHENTICATED, it is called exactly [RETRY_LIMIT + 1] times, and the
    call then throws for the status of the last attempt: with the text
    ["Retry limit exceeded. Last gRPC error was <code>: <msg>"] when
    [RETRY_LIMIT > 0], and with ["<code>: <msg>"] alone when
    [RETRY_LIMIT <= 0] (the limit being less than INT_MAX, so that
    [RETRY_LIMIT + 1] is an [int]).  The wait after attempt [n] is
    [RETRY_DELAY * 2^n] ms as long as every such delay fits an [int] (the
    delay is computed in [double] and cast to [int]). *)
Theorem grpc_retry_attempts :
  ∀ (LIMIT DELAY : Z) (rpc : ClientContext → M (proc A W) Status)
    (σ : proc A W),
    quiet rpc →
    invocations (trace (grpc_retry LIMIT DELAY rpc σ).2)
    ≤ invocations (trace σ) + Z.to_nat LIMIT + 2
    ∧ (always_fails rpc → (LIMIT < INT_MAX)%Z →
       ∃ status σ' t,
         grpc_retry LIMIT DELAY rpc σ
         = (Exc (runtime_error
                   ((if (0 <? LIMIT)%Z
                     then "Retry limit exceeded. Last gRPC error was "
                     else "")
                    +:+ to_string (error_code status) +:+ ": "
                    +:+ error_message status)), σ')
         ∧ (∃ ctx σ0, rpc ctx σ0 = (Val status, σ'))
         ∧ trace σ' = trace σ ++ t
         ∧ invocations t = Z.to_nat LIMIT + 1
         ∧ (delays_fit DELAY LIMIT →
            marks t = backoff DELAY 0 (Z.to_nat LIMIT))).
Proof.
  intros LIMIT DELAY rpc σ Hq. split.
  - rewrite grpc_retry_trace.
    pose proof (retry_loop_bound LIMIT DELAY rpc (retry_fuel LIMIT) 0 false
                  σ Hq) as Hb.
    cbv iota in Hb. lia.
  - intros Hf _.
    destruct (retry_loop_exhausts LIMIT DELAY rpc (Z.to_nat LIMIT) Hq Hf
                (retry_fuel LIMIT) 0 false σ)
      as (status & σ' & t & ctx & σ0 & Hloop & Ht & Hm & Hlast).
    { f_equal. lia. }
    { unfold retry_fuel. lia. }
    exists status, σ', t. rewrite grpc_retry_unfold, Hloop.
    split; [|split; [by exists ctx, σ0|split; [done|split]]].
    + do 2 f_equal. unfold retry_error_message.
      rewrite Z.gtb_ltb. by destruct (0 <? LIMIT)%Z.
    + rewrite invocations_marks, Hm, attempts_run_marks. lia.
    + intros Hfit. rewrite Hm. apply run_marks_backoff; [lia|].
      intros n Hn. apply Hfit. lia.
Qed.

End Driver.

(** C1 applied: a limit of 2, a base delay of 10 ms and a server that is
    always down. *)
Lemma grpc_retry_attempts_witness :
  let σ := fresh_process (Some 0) in
  let rpc := failing_rpc UNAVAILABLE_down in
  invocations (trace (grpc_retry 2 10 rpc σ).2) ≤ 0 + 2 + 2
  ∧ ∃ status σ' t,
      grpc_retry 2 10 rpc σ
      = (Exc (runtime_error
                ("Retry limit exceeded. Last gRPC error was "
                 +:+ to_string (error_code status) +:+ ": "
                 +:+ error_message status)), σ')
      ∧ (∃ ctx σ0, rpc ctx σ0 = (Val status, σ'))
      ∧ trace σ' = trace σ ++ t
      ∧ invocations t = 3
      ∧ marks t = [Attempt; Wait 10; Attempt; Wait 20; Attempt].
Proof.
  intros σ rpc.
  assert (quiet rpc) as Hq.
  { intros ctx σ1. exists []. split; [symmetry; apply app_nil_r | reflexivity]. }
  destruct (grpc_retry_attempts 2 10 rpc σ Hq) as [Hb Hex].
  split; [exact Hb|].
  destruct Hex as (status & σ' & t & Hr & Hlast & Ht & Hn & Hm).
  { intros ctx σ1. exists UNAVAILABLE_down, (set_world (S (world σ1)) σ1).
    repeat split; done. }
  { by vm_compute. }
  exists status, σ', t.
  split; [exact Hr|]. split; [exact Hlast|]. split; [exact Ht|].
  split; [exact Hn|]. apply Hm.
  apply delays_fit_last; [lia | lia | by vm_compute].
Defined.

(** The range condition is needed: with [RETRY_LIMIT = 2] and
    [RETRY_DELAY = 2000000000] the second delay, 4000000000, does not fit
    an [int], and the wait the driver asks for is what the cast makes of
    it (on x86-64, INT_MIN), not the product. *)
Lemma grpc_retry_delay_out_of_range :
  let σ := fresh_process None in
  let rpc := failing_rpc UNAVAILABLE_down in
  delay_fits 2000000000 1 = false
  ∧ sleeps (trace (grpc_retry 2 2000000000 rpc σ).2)
    = [2000000000%Z; INT_MIN]
  ∧ invocations (trace (grpc_retry 2 2000000000 rpc σ).2) = 3.
Proof. intros σ rpc. repeat split; vm_compute; reflexivity. Qed.

(** C1 as stated fails on the text of the error and on the count: with
    [RETRY_LIMIT = 0] the error is ["<code>: <msg>"] without the "Retry
    limit exceeded" prefix, and with [RETRY_LIMIT = -1] the RPC is called
    once, not [RETRY_LIMIT + 1 = 0] times. *)
Lemma grpc_retry_counterexample :
  let σ := fresh_process None in
  let rpc := failing_rpc UNAVAILABLE_down in
  always_fails rpc
  ∧ (grpc_retry 0 10 rpc σ).1 = Exc (runtime_error "14: down")
  ∧ (grpc_retry 0 10 rpc σ).1
    ≠ Exc (runtime_error
             "Retry limit exceeded. Last gRPC error was 14: down")
  ∧ invocations (trace (grpc_retry (-1) 10 rpc σ).2) = 1
  ∧ Z.of_nat (invocations (trace (grpc_retry (-1) 10 rpc σ).2)) ≠ (-1 + 1)%Z.
Proof.
  intros σ rpc. split.
  { intros ctx σ1. exists UNAVAILABLE_down, (set_world (S (world σ1)) σ1).
    repeat split; done. }
  repeat split; vm_compute; congruence.
Qed.

Section Refresh.
Context {A W : Type} `{AuthBase A}.
Variable LIMIT DELAY : Z.
Variable rpc : ClientContext → M (proc A W) Status.

Lemma refreshes_app (t1 t2 : list event) :
  refreshes (t1 ++ t2) = refreshes t1 + refreshes t2.
Proof. unfold refreshes. by rewrite filter_app, length_app. Qed.

Lemma refreshes_cons (e : event) (t : list event) :
  refreshes (e :: t) = (if is_refresh e then 1 else 0) + refreshes t.
Proof.
  unfold refreshes. rewrite filter_cons.
  destruct (is_refresh e); case_decide; done.
Qed.

(** [grpc_retry] has no path to [auth_refresh]: the loop leaves the number
    of refreshes as it finds it. *)
Lemma retry_loop_no_refresh (fuel : nat) (n : Z) (refreshed : bool)
    (σ : proc A W) :
  refresh_free rpc →
  refreshes (trace (retry_loop LIMIT DELAY rpc fuel n refreshed σ).2)
  = refreshes (trace σ).
Proof.
  intros Hq. revert n refreshed σ.
  induction fuel as [|fuel IH]; intros n refreshed σ; [done|].
  rewrite retry_loop_unfold.
  destruct (Hq (attempt_entry σ).1 (attempt_entry σ).2) as (tr & Ht & Hm).
  rewrite trace_attempt_entry in Ht.
  assert (∀ σ2 : proc A W,
             trace σ2 = (trace σ ++ [Invoke (attempt_entry σ).1]) ++ tr →
             refreshes (trace σ2) = refreshes (trace σ)) as Hr.
  { intros σ2 ->. rewrite !refreshes_app, refreshes_cons, Hm. cbn. lia. }
  destruct (rpc _ _) as [[status| | |] σ2]; cbn [snd] in *;
    try (by apply Hr).
  destruct (ok status); [by apply Hr|].
  destruct ((error_code status =? UNAUTHENTICATED)%Z && negb refreshed).
  - destruct (n <? LIMIT + 1)%Z; [|by apply Hr]. rewrite IH. by apply Hr.
  - cbn zeta.
    set (σ3 := if (n <? LIMIT)%Z then _ else σ2).
    assert (refreshes (trace σ3) = refreshes (trace σ)) as H3.
    { unfold σ3. destruct (n <? LIMIT)%Z; [|by apply Hr].
      rewrite trace_log_events, refreshes_app, (Hr _ Ht), !refreshes_cons.
      cbn. lia. }
    destruct (n + 1 <? LIMIT + 1)%Z; [by rewrite IH | done].
Qed.

Lemma grpc_retry_no_refresh (σ : proc A W) :
  refresh_free rpc →
  refreshes (trace (grpc_retry LIMIT DELAY rpc σ).2) = refreshes (trace σ).
Proof.
  intros Hq. rewrite grpc_retry_trace. by apply retry_loop_no_refresh.
Qed.

End Refresh.

(** C2, on the code: an RPC answers UNAUTHENTICATED once and OK from then
    on, under a limit of 2 (and of 0) retries and with an auth session
    installed.  The RPC is replayed and the replay is not counted (no wait,
    and success even with no retry allowed), but the session is not
    refreshed: no refresh is made, the session is in its initial state at
    the end, and the replay carries the token of the first attempt.  One
    call of [GrpcContext::auth_refresh] would have refreshed it. *)
Theorem grpc_retry_replay_without_refresh :
  let σ := fresh_process (Some 0) in
  let rpc := scripted_rpc UNAUTHENTICATED_expired 1 in
  let r := grpc_retry 2 10 rpc σ in
  r.1 = Val tt
  ∧ marks (trace r.2) = [Attempt; Attempt]
  ∧ (grpc_retry 0 10 rpc σ).1 = Val tt
  ∧ refreshes (trace r.2) = 0
  ∧ d_authSession (grpcContext r.2) = Some 0
  ∧ trace r.2
    = [Invoke {| ctx_id := 0; credentials := Some "0";
                 request_metadata := "action" |};
       Invoke {| ctx_id := 1; credentials := Some "0";
                 request_metadata := "action" |}]
  ∧ refreshes (trace (auth_refresh σ).2) = 1
  ∧ d_authSession (grpcContext (auth_refresh σ).2) = Some 1.
Proof. repeat split; vm_compute; reflexivity. Qed.

End RetryFacts.

(** ** remoteexecutionclient.cpp *)

Module ClientFacts.
Import Cpp Str Grpc Proto RemoteExecution StrFacts RetryFacts.

Ltac cunfold :=
  repeat (progress (unfold mbind, M_bind, bind, new_client_context,
                    make_client_context, gets, emit, modify, modify_world,
                    mret, M_ret, ret, throw, exit, diverge, lift; cbn)).

Lemma reader_after_stable (k k' : nat) (msgs : list Operation)
    (op o : Operation) :
  reader_after k msgs op = (o, true) → k ≤ k' →
  reader_after k' msgs op = (o, true).
Proof.
  revert k' msgs op. induction k as [|k IH]; intros k' msgs op; [done|].
  intros Hr Hk. destruct k' as [|k']; [lia|]. cbn in *.
  destruct msgs as [|m msgs]; [done|].
  destruct (op_done m); [done|]. apply IH; [done | lia].
Qed.

Lemma reader_after_finishes (msgs : list Operation) (op : Operation) :
  (reader_after (S (length msgs)) msgs op).2 = true.
Proof.
  revert op. induction msgs as [|m msgs IH]; intros op; [done|].
  cbn [length reader_after]. destruct (op_done m); [done | apply IH].
Qed.

Lemma reader_after_ready (k : nat) (msgs : list Operation)
    (op o : Operation) :
  reader_after k msgs op = (o, true) → o = read_operation_async msgs op.
Proof.
  intros Hk. unfold read_operation_async.
  pose proof (reader_after_finishes msgs op) as Hf.
  destruct (reader_after (S (length msgs)) msgs op) as [o' b] eqn:E.
  cbn in Hf. subst b. cbn.
  destruct (Nat.le_gt_cases k (S (length msgs))) as [Hle|Hgt].
  - rewrite (reader_after_stable _ _ _ _ _ Hk Hle) in E. congruence.
  - rewrite (reader_after_stable _ k _ _ _ E) in Hk by lia. congruence.
Qed.

Section Client.
Context {A Srv : Type} `{AuthBase A}.
Variable Execute :
  ClientContext → ExecuteRequest → Srv → ExecuteStream * Srv.
Variable CancelOperation : ClientContext → string → Srv → Status * Srv.

#[local] Abbreviation St := (proc A (client_world (Srv := Srv))).

Lemma cancel_requests_app (t1 t2 : list event) :
  cancel_requests (t1 ++ t2) = cancel_requests t1 ++ cancel_requests t2.
Proof. unfold cancel_requests. apply omap_app. Qed.

(** [cancel_operation] sends one request, on a context of its own, and
    returns whatever the server answers. *)
Lemma cancel_operation_spec (name : string) (σ : St) :
  ∃ σ' log,
    cancel_operation CancelOperation name σ = (Val tt, σ')
    ∧ trace σ' = trace σ ++ [CancelOperationRPC (fresh_context σ) name; log]
    ∧ cancel_requests [log] = [].
Proof.
  unfold cancel_operation. cunfold.
  destruct (CancelOperation _ _ _) as [s srv'] eqn:E. cbn.
  destruct (ok s); cbn; eexists _, _;
    (split; [reflexivity|]); cbn; rewrite <- app_assoc; done.
Qed.

Lemma poll_loop_sigint (msgs : list Operation) (op0 : Operation)
    (pre post : list poll) (p : poll) (σ : St) :
  Forall (λ q, sigint_received q = false
               ∧ (reader_after (reads_done q) msgs op0).2 = false) pre →
  sigint_received p = true →
  ∃ σ',
    poll_loop CancelOperation (pre ++ p :: post) msgs op0 σ = (Exit 130%Z, σ')
    ∧ cancel_requests (trace σ')
      = cancel_requests (trace σ)
        ++ (let name := op_name (reader_after (reads_done p) msgs op0).1 in
            if empty name then [] else [(fresh_context σ, name)]).
Proof.
  intros Hpre Hp. revert σ. induction Hpre as [|q pre [Hq Hnr] _ IH]; intros σ.
  - cbn [app poll_loop].
    destruct (reader_after (reads_done p) msgs op0) as [op ready] eqn:E.
    rewrite Hp. cbn [fst]. cunfold.
    destruct (empty (op_name op)) eqn:En; cbn.
    + eexists. split; [reflexivity|]. cbn.
      rewrite cancel_requests_app. done.
    + set (σ1 := log_events _ _).
      destruct (cancel_operation_spec (op_name op) σ1) as (σ' & log & -> & Ht & Hlog).
      eexists. split; [reflexivity|]. rewrite Ht.
      change [CancelOperationRPC (fresh_context σ1) (op_name op); log]
        with ([CancelOperationRPC (fresh_context σ1) (op_name op)] ++ [log]).
      rewrite !cancel_requests_app, Hlog, app_nil_r.
      unfold σ1. rewrite trace_log_events, cancel_requests_app. cbn.
      by rewrite app_nil_r.
  - cbn [app poll_loop].
    destruct (reader_after (reads_done q) msgs op0) as [op ready] eqn:E.
    cbn in Hnr. subst ready. rewrite Hq. cunfold.
    match goal with
    | |- context [poll_loop _ _ _ _ ?s] => destruct (IH s) as (σ' & -> & Ht)
    end.
    exists σ'. split; [done|]. rewrite Ht. done.
Qed.

(** When [read_operation] returns, [*operation_ptr] is what the reader
    thread has left there at its end. *)
Lemma poll_loop_returns (polls : list poll) (msgs : list Operation)
    (op0 : Operation) (σ σ' : St) :
  poll_loop CancelOperation polls msgs op0 σ = (Val tt, σ') →
  operation_ptr (world σ') = Some (read_operation_async msgs op0).
Proof.
  revert σ. induction polls as [|p polls IH]; intros σ.
  - cbn [poll_loop]. cunfold. by intros [= <-].
  - cbn [poll_loop].
    destruct (reader_after (reads_done p) msgs op0) as [op ready] eqn:E.
    destruct (sigint_received p).
    + cunfold. destruct (empty (op_name op)); cbn; [done|].
      match goal with
      | |- context [cancel_operation _ ?n ?s] =>
          destruct (cancel_operation_spec n s) as (σ1 & log & -> & _)
      end.
      done.
    + destruct ready.
      * cunfold. intros [= <-]. cbn. f_equal. by eapply reader_after_ready.
      * cunfold. apply IH.
Qed.

Lemma execute_lambda_returns (req : ExecuteRequest) (context : ClientContext)
    (status : Status) (σ σ' : St) :
  execute_lambda Execute CancelOperation req context σ = (Val status, σ') →
  let stream := (Execute context req (srv (world σ))).1 in
  status = finish stream
  ∧ operation_ptr (world σ')
    = Some (read_operation_async (messages stream) Operation_default).
Proof.
  unfold execute_lambda, read_operation. cunfold.
  destruct (Execute context req (srv (world σ))) as [stream srv'] eqn:E. cbn.
  match goal with
  | |- context [poll_loop _ ?l ?m ?o ?s] =>
      destruct (poll_loop CancelOperation l m o s) as [[[]| | |] σ1] eqn:Ep
  end; try done.
  intros [= <- <-]. split; [done|]. by eapply poll_loop_returns.
Qed.

Lemma cancel_operation_trace (name : string) (σ : St) :
  ∃ t, trace (cancel_operation CancelOperation name σ).2 = trace σ ++ t
       ∧ marks t = [] ∧ refreshes t = 0.
Proof.
  unfold cancel_operation. cunfold.
  destruct (CancelOperation _ _ _) as [s srv'] eqn:E. cbn.
  destruct (ok s); cbn; eexists; rewrite <- app_assoc;
    (split; [reflexivity|]); by vm_compute.
Qed.

(** The events of one attempt of [Execute] are logs and at most one
    cancellation. *)
Lemma poll_loop_trace (polls : list poll) (msgs : list Operation)
    (op0 : Operation) (σ : St) :
  ∃ t, trace (poll_loop CancelOperation polls msgs op0 σ).2 = trace σ ++ t
       ∧ marks t = [] ∧ refreshes t = 0.
Proof.
  revert σ. induction polls as [|p polls IH]; intros σ.
  - exists []. cbn [poll_loop]. cunfold. by rewrite app_nil_r.
  - cbn [poll_loop].
    destruct (reader_after (reads_done p) msgs op0) as [op ready].
    destruct (sigint_received p).
    + cunfold. destruct (empty (op_name op)); cbn.
      * eexists. split; [reflexivity|]. by vm_compute.
      * match goal with
        | |- context [cancel_operation _ ?n ?s] =>
            destruct (cancel_operation_trace n s) as (t & Ht & Hm & Hr);
            destruct (cancel_operation CancelOperation n s) as [[[]| | |] σ1]
        end; cbn in *; rewrite Ht; rewrite <- app_assoc;
          eexists; (split; [reflexivity|]);
          rewrite marks_app, refreshes_app, Hm, Hr; by vm_compute.
    + destruct ready.
      * exists []. cunfold. by rewrite app_nil_r.
      * cunfold.
        match goal with
        | |- context [poll_loop _ _ _ _ ?s] => destruct (IH s) as (t & Ht & Hm)
        end.
        exists t. by rewrite Ht.
Qed.

Lemma execute_lambda_trace (req : ExecuteRequest) (context : ClientContext)
    (σ : St) :
  ∃ t, trace (execute_lambda Execute CancelOperation req context σ).2
       = trace σ ++ t
       ∧ marks t = [] ∧ refreshes t = 0.
Proof.
  unfold execute_lambda, read_operation. cunfold.
  destruct (Execute context req (srv (world σ))) as [stream srv']. cbn.
  match goal with
  | |- context [poll_loop _ ?l ?m ?o ?s] =>
      destruct (poll_loop_trace l m o s) as (t & Ht & Hm);
      destruct (poll_loop CancelOperation l m o s) as [[[]| | |] σ1]
  end; cbn in *; by exists t.
Qed.

(** [grpc_retry] counts the attempts of [execute_action] as C1 says. *)
Lemma execute_lambda_quiet (req : ExecuteRequest) :
  quiet (execute_lambda Execute CancelOperation req)
  ∧ refresh_free (execute_lambda Execute CancelOperation req).
Proof.
  split; intros ctx σ;
    destruct (execute_lambda_trace req ctx σ) as (t & Ht & Hm & Hr);
    by exists t.
Qed.
(** C8.  One attempt of [Execute] is under way on the client context
    [context]: the polls in [pre] see no signal and an unfinished reader,
    and the next poll [p] sees [s_sigint_received].  Then the process exits
    with code 130, whatever [CancelOperation] answers.  Before that, when
    the Operation read so far has a name, exactly one CancelOperation
    request is sent, for that name and on a client context built for it
    (not the one of the stream); when the name is empty, no request is
    sent. *)
Theorem execute_sigint_cancels_and_exits :
  ∀ (executeRequest : ExecuteRequest) (context : ClientContext) (σ : St)
    (pre post : list poll) (p : poll),
    ctx_id context < allocated σ →
    schedule (world σ) = pre ++ p :: post →
    let stream := (Execute context executeRequest (srv (world σ))).1 in
    Forall (λ q, sigint_received q = false
                 ∧ (reader_after (reads_done q) (messages stream)
                                 Operation_default).2 = false) pre →
    sigint_received p = true →
    let name :=
      op_name (reader_after (reads_done p) (messages stream)
                            Operation_default).1 in
    ∃ σ' cancelContext,
      execute_lambda Execute CancelOperation executeRequest context σ
      = (Exit 130%Z, σ')
      ∧ cancel_requests (trace σ')
        = cancel_requests (trace σ)
          ++ (if empty name then [] else [(cancelContext, name)])
      ∧ cancelContext ≠ context
      ∧ ctx_id cancelContext = allocated σ.
Proof.
  intros req context σ pre post p Hctx Hsched stream Hpre Hp name.
  unfold execute_lambda, read_operation. cunfold.
  destruct (Execute context req (srv (world σ))) as [stream' srv'] eqn:E.
  cbn in stream. subst stream. cbn. rewrite Hsched.
  match goal with
  | |- context [poll_loop _ _ _ _ ?s] =>
      destruct (poll_loop_sigint (messages stream') Operation_default
                  pre post p s Hpre Hp) as (σ' & -> & Ht)
  end.
  exists σ', (fresh_context σ). split; [done|]. split; [exact Ht|].
  split; [|done]. intros Heq. rewrite <- Heq in Hctx. cbn in Hctx. lia.
Qed.

End Client.

(** C8 applied: the server has streamed one unfinished Operation named
    [op-42] when the signal is seen at the second poll, and it answers the
    cancellation with an error. *)
Lemma execute_sigint_cancels_and_exits_witness :
  let stream :=
    {| messages := [{| op_name := "op-42"; op_done := false;
                       op_result := result_not_set |}];
       finish := Status_default |} in
  let context := {| ctx_id := 0; credentials := Some "0";
                    request_metadata := "action" |} in
  let σ := set_allocated 1
             (client_process [{| reads_done := 0; sigint_received := false |};
                              {| reads_done := 1; sigint_received := true |}]) in
  ∃ σ' cancelContext,
    execute_lambda (scripted_Execute [stream])
      (fixed_CancelOperation UNAVAILABLE_down)
      {| instance_name := ""; action_digest := action_digest_1;
         skip_cache_lookup := false |} context σ
    = (Exit 130%Z, σ')
    ∧ cancel_requests (trace σ')
      = cancel_requests (trace σ) ++ [(cancelContext, "op-42")]
    ∧ cancelContext ≠ context
    ∧ ctx_id cancelContext = 1.
Proof.
  intros stream context σ.
  apply (execute_sigint_cancels_and_exits (scripted_Execute [stream])
           (fixed_CancelOperation UNAVAILABLE_down) _ context σ
           [{| reads_done := 0; sigint_received := false |}] []
           {| reads_done := 1; sigint_received := true |}).
  - vm_compute. lia.
  - reflexivity.
  - repeat constructor.
  - reflexivity.
Defined.

End ClientFacts.

Module ResultFacts.
Import Cpp Str Grpc Proto RemoteExecution StrFacts RetryFacts ClientFacts.

Section Results.
Context {A Srv : Type} `{AuthBase A}.
Variable Execute :
  ClientContext → ExecuteRequest → Srv → ExecuteStream * Srv.
Variable CancelOperation : ClientContext → string → Srv → Status * Srv.
Variable GetActionResult :
  ClientContext → string → Digest → Srv → (Status * Proto.ActionResult) * Srv.
Variable fetch_message_Tree :
  Digest → M (proc A (client_world (Srv := Srv))) Tree.
Variable make_digest : Directory → Digest.
Variable parse_ExecuteResponse : string → option ExecuteResponse.
Variable ensure_ok_what : RpcStatus → string.
Variable d_instanceName : string.
Variable LIMIT DELAY : Z.

#[local] Abbreviation St := (proc A (client_world (Srv := Srv))).
#[local] Abbreviation unpack :=
  (Any_UnpackTo ExecuteResponse_full_name parse_ExecuteResponse).
#[local] Abbreviation get_result :=
  (get_actionresult parse_ExecuteResponse ensure_ok_what).
#[local] Abbreviation decode :=
  (from_proto (Srv := Srv) fetch_message_Tree make_digest).
#[local] Abbreviation execute :=
  (execute_action Execute CancelOperation fetch_message_Tree make_digest
     parse_ExecuteResponse ensure_ok_what d_instanceName LIMIT DELAY).

#[local] Arguments grpc_retry : simpl never.

(** C3.  When [grpc_retry] has returned, the last attempt of the lambda
    has returned: its [Execute] stream has closed with an OK status and
    [*operation_ptr] is the last Operation received on it.  If that Operation is not done, [execute_action] throws
    "Server closed stream before Operation finished"; if it is done, the
    result is that of [get_actionresult], decoded.  On a done Operation,
    [get_actionresult] throws if the Operation carries an error status, if
    its response does not unpack to an [ExecuteResponse], or if the status
    of the [ExecuteResponse] is not OK; otherwise it returns the
    [ActionResult] the response contains. *)
Theorem execute_action_result :
  (∀ (actionDigest : Digest) (skipCache : bool) (σ σ1 : St),
      let req := {| instance_name := d_instanceName;
                    action_digest := actionDigest;
                    skip_cache_lookup := skipCache |} in
      grpc_retry LIMIT DELAY (execute_lambda Execute CancelOperation req)
        (set_world (set_operation_ptr None (set_reader_ptr None (world σ))) σ)
      = (Val tt, σ1) →
      (∃ (context : ClientContext) (σ0 : St),
          let stream := (Execute context req (srv (world σ0))).1 in
          execute_lambda Execute CancelOperation req context σ0
          = (Val (finish stream), σ1)
          ∧ ok (finish stream) = true
          ∧ operation_ptr (world σ1)
            = Some (read_operation_async (messages stream) Operation_default))
      ∧ ∀ operation,
          operation_ptr (world σ1) = Some operation →
          (op_done operation = false →
           execute actionDigest skipCache σ
           = (Exc (runtime_error
                     "Server closed stream before Operation finished"), σ1))
          ∧ (op_done operation = true →
             execute actionDigest skipCache σ
             = (lift (get_result operation) ≫= decode) σ1))
  ∧ (∀ operation : Operation,
        op_done operation = true →
        (has_error operation = true → ∃ e, get_result operation = Throw e)
        ∧ (unpack (response operation) = None →
           ∃ e, get_result operation = Throw e)
        ∧ (∀ r, unpack (response operation) = Some r →
                code (er_status r) ≠ 0%Z →
                ∃ e, get_result operation = Throw e)
        ∧ (∀ r, has_error operation = false →
                unpack (response operation) = Some r →
                code (er_status r) = 0%Z →
                get_result operation = Ok (er_result r))).
Proof.
  split.
  - (* [execute_action] after [grpc_retry] has returned *)
    intros actionDigest skipCache σ σ1 req Hretry. split.
    + apply grpc_retry_returned in Hretry as (ctx & σ0 & status & Hl & Hok).
      pose proof (execute_lambda_returns _ _ _ _ _ _ _ Hl) as [-> Hop].
      by exists ctx, σ0.
    + intros operation Hop. unfold execute_action. fold req.
      unfold modify_world, modify, mbind, M_bind, bind, gets.
      rewrite Hretry, Hop.
      split; intros ->; reflexivity.
  - (* [get_actionresult] on a finished Operation *)
    intros operation.
    intros Hdone. unfold get_actionresult. rewrite Hdone. cbn [negb].
    repeat split.
    + intros Herr. rewrite Herr. unfold ensure_ok.
      destruct (code (error operation) =? 0)%Z; [|by eexists].
      assert (response operation = Any_default) as ->.
      { unfold has_error, response in *. by destruct (op_result operation). }
      cbn. by eexists.
    + intros Hun. rewrite Hun.
      destruct (has_error operation).
      * unfold ensure_ok. destruct (code (error operation) =? 0)%Z; by eexists.
      * destruct (Any_Is _ _); by eexists.
    + intros r Hun Hcode. rewrite Hun. apply Z.eqb_neq in Hcode.
      unfold ensure_ok at 2. rewrite Hcode.
      destruct (has_error operation).
      * unfold ensure_ok. destruct (code (error operation) =? 0)%Z; by eexists.
      * destruct (Any_Is _ _); by eexists.
    + intros r Herr Hun Hcode. rewrite Herr, Hun.
      unfold Any_UnpackTo in Hun.
      destruct (Any_Is ExecuteResponse_full_name (response operation)); [|done].
      cbn. unfold ensure_ok. apply Z.eqb_eq in Hcode. by rewrite Hcode.
Qed.

(** The signal seen during the first attempt ends [execute_action], and
    with it the process, with code 130. *)
Lemma execute_action_sigint (actionDigest : Digest) (skipCache : bool)
    (σ : St) (pre post : list poll) (p : poll) :
  schedule (world σ) = pre ++ p :: post →
  let req := {| instance_name := d_instanceName;
                action_digest := actionDigest;
                skip_cache_lookup := skipCache |} in
  let stream :=
    (Execute (fresh_context σ) req (srv (world σ))).1 in
  Forall (λ q, sigint_received q = false
               ∧ (reader_after (reads_done q) (messages stream)
                               Operation_default).2 = false) pre →
  sigint_received p = true →
  ∃ σ', execute actionDigest skipCache σ = (Exit 130%Z, σ').
Proof.
  intros Hsched req stream Hpre Hp.
  unfold execute_action. fold req.
  unfold modify_world, modify. unfold mbind at 1 2. unfold M_bind, bind.
  set (σ0 := set_world _ σ).
  assert (∃ σ', execute_lambda Execute CancelOperation req
                  (attempt_entry σ0).1 (attempt_entry σ0).2
                = (Exit 130%Z, σ')) as [σ' Hl].
  { unfold execute_lambda, read_operation. cunfold.
    change (fresh_context σ0) with (fresh_context σ).
    fold stream.
    destruct (Execute (fresh_context σ) req (srv (world σ)))
      as [stream' srv'] eqn:E.
    cbn in stream. subst stream. cbn. rewrite Hsched.
    match goal with
    | |- context [poll_loop _ _ _ _ ?s] =>
        destruct (poll_loop_sigint CancelOperation (messages stream')
                    Operation_default pre post p s Hpre Hp) as (σ' & -> & _)
    end.
    by exists σ'. }
  exists σ'. by rewrite (grpc_retry_exit LIMIT DELAY _ σ0 σ' 130%Z Hl).
Qed.
(** [fetch_from_action_cache] by the status of [GetActionResult]. *)
Lemma fetch_from_action_cache_cases (actionDigest : Digest)
    (instanceName : string) (want_result : bool) (σ : St) :
  let context := {| ctx_id := allocated σ; credentials := None;
                    request_metadata := "" |} in
  let reply :=
    GetActionResult context instanceName actionDigest (srv (world σ)) in
  let status := reply.1.1 in
  let actionResult := reply.1.2 in
  let σ1 : St := set_world (set_srv reply.2 (world σ))
                           (set_allocated (S (allocated σ)) σ) in
  let r := fetch_from_action_cache GetActionResult fetch_message_Tree
             make_digest actionDigest instanceName want_result σ in
  (error_code status = NOT_FOUND → r = (Val (false, None), σ1))
  ∧ (error_code status ≠ OK → error_code status ≠ NOT_FOUND →
     r = (Exc (runtime_error ("Action cache returned error "
                              +:+ error_message status)), σ1))
  ∧ (error_code status = OK →
     r = if want_result
         then (x ← decode actionResult; mret (true, Some x)) σ1
         else (Val (true, None), σ1)).
Proof.
  intros context reply status actionResult σ1 r.
  assert (r = if negb (ok status) then
                if (error_code status =? NOT_FOUND)%Z
                then (Val (false, None), σ1)
                else (Exc (runtime_error ("Action cache returned error "
                                          +:+ error_message status)), σ1)
              else if want_result
                   then (x ← decode actionResult; mret (true, Some x)) σ1
                   else (Val (true, None), σ1)) as ->.
  { unfold r, fetch_from_action_cache, make_client_context.
    unfold mbind at 1 2. unfold M_bind, bind.
    change (world (set_allocated (S (allocated σ)) σ)) with (world σ).
    fold context. unfold σ1, status, actionResult, reply.
    destruct (GetActionResult context instanceName actionDigest
                (srv (world σ))) as [[st ar] srv'].
    cbn [fst snd].
    destruct (negb (ok st)); [|by destruct want_result].
    by destruct (error_code st =? NOT_FOUND)%Z. }
  unfold ok. repeat split.
  - intros Hnf. rewrite Hnf. done.
  - intros Hok Hnf. apply Z.eqb_neq in Hok, Hnf. by rewrite Hok, Hnf.
  - intros Hok. apply Z.eqb_eq in Hok. by rewrite Hok.
Qed.

Lemma from_proto_files_only (proto : Proto.ActionResult) (σ : St) :
  output_directories proto = [] →
  decode proto σ
  = (Val {| d_exitCode := exit_code proto;
            d_stdOut := {| d_blob := stdout_raw proto;
                           d_digest := stdout_digest proto |};
            d_stdErr := {| d_blob := stderr_raw proto;
                           d_digest := stderr_digest proto |};
            d_outputFiles :=
              foldl (λ m f, <[of_path f := (of_digest f, of_is_executable f)]> m)
                    ∅ (output_files proto) |}, σ).
Proof. intros Hd. unfold from_proto. rewrite Hd. reflexivity. Qed.

(** C4.  [fetch_from_action_cache] returns the cache miss [(false, no
    ActionResult)] exactly when [GetActionResult] answers NOT_FOUND, and
    then no error is raised.  On every other status that is not OK it
    throws "Action cache returned error <msg>".  On OK it returns [true],
    with the [ActionResult] decoded by [from_proto] when the caller asks
    for it: for a result without output directories that is the exit
    code, the two output blobs and the map of the output files. *)
Theorem fetch_from_action_cache_result :
  ∀ (actionDigest : Digest) (instanceName : string) (want_result : bool)
    (σ : St),
    let context := {| ctx_id := allocated σ; credentials := None;
                      request_metadata := "" |} in
    let reply :=
      GetActionResult context instanceName actionDigest (srv (world σ)) in
    let status := reply.1.1 in
    let actionResult := reply.1.2 in
    let σ1 : St := set_world (set_srv reply.2 (world σ))
                             (set_allocated (S (allocated σ)) σ) in
    let r := fetch_from_action_cache GetActionResult fetch_message_Tree
               make_digest actionDigest instanceName want_result σ in
    (error_code status = NOT_FOUND ↔ ∃ o, r.1 = Val (false, o))
    ∧ (error_code status = NOT_FOUND → r = (Val (false, None), σ1))
    ∧ (error_code status ≠ OK → error_code status ≠ NOT_FOUND →
       r = (Exc (runtime_error ("Action cache returned error "
                                +:+ error_message status)), σ1))
    ∧ (error_code status = OK →
       r = if want_result
           then (x ← decode actionResult; mret (true, Some x)) σ1
           else (Val (true, None), σ1))
    ∧ (error_code status = OK → want_result = true →
       output_directories actionResult = [] →
       r = (Val (true,
                 Some {| d_exitCode := exit_code actionResult;
                         d_stdOut := {| d_blob := stdout_raw actionResult;
                                        d_digest := stdout_digest actionResult |};
                         d_stdErr := {| d_blob := stderr_raw actionResult;
                                        d_digest := stderr_digest actionResult |};
                         d_outputFiles :=
                           foldl (λ m f, <[of_path f :=
                                             (of_digest f, of_is_executable f)]> m)
                                 ∅ (output_files actionResult) |}), σ1)).
Proof.
  intros actionDigest instanceName want_result σ context reply status
    actionResult σ1 r.
  destruct (fetch_from_action_cache_cases actionDigest instanceName
              want_result σ) as (Hnf & Herr & Hok).
  fold context reply status actionResult σ1 r in Hnf, Herr, Hok.
  split; [|split; [done|split; [done|split; [done|]]]].
  - split.
    + intros E. rewrite (Hnf E). by eexists.
    + intros [o Ho].
      destruct (decide (error_code status = NOT_FOUND)) as [|Hne]; [done|].
      destruct (decide (error_code status = OK)) as [E|E].
      * rewrite (Hok E) in Ho. destruct want_result; [|done].
        unfold mbind, M_bind, bind in Ho.
        by destruct (decode actionResult σ1) as [[| | |] ?].
      * by rewrite (Herr E Hne) in Ho.
  - intros E -> Hd. rewrite (Hok E).
    unfold mbind, M_bind, bind. by rewrite from_proto_files_only.
Qed.

End Results.

(** C3 applied: a stream that closes, with status OK, after one unfinished
    Operation; and a finished Operation with a good response. *)
Lemma execute_action_result_witness :
  (execute_action (scripted_Execute [not_done_stream])
     (fixed_CancelOperation Status_default) no_Tree size_digest
     (parse_one "payload" response_exit_0) ensure_ok_text "inst" 2 10
     action_digest_1 false (client_process [])).1
  = Exc (runtime_error "Server closed stream before Operation finished")
  ∧ get_actionresult (parse_one "payload" response_exit_0) ensure_ok_text
      done_operation
    = Ok (ActionResult_exit 0).
Proof.
  pose proof (execute_action_result (scripted_Execute [not_done_stream])
                (fixed_CancelOperation Status_default) no_Tree size_digest
                (parse_one "payload" response_exit_0) ensure_ok_text "inst"
                2 10) as [Hexec Hget].
  split.
  - set (σ := client_process []).
    set (σ1 := (grpc_retry 2 10
                  (execute_lambda (scripted_Execute [not_done_stream])
                     (fixed_CancelOperation Status_default)
                     {| instance_name := "inst";
                        action_digest := action_digest_1;
                        skip_cache_lookup := false |})
                  (set_world (set_operation_ptr None
                                (set_reader_ptr None (world σ))) σ)).2).
    destruct (Hexec action_digest_1 false σ σ1 eq_refl) as [_ Hop].
    destruct (Hop (read_operation_async (messages not_done_stream)
                     Operation_default) eq_refl) as [Hnot _].
    by rewrite (Hnot eq_refl).
  - destruct (Hget done_operation eq_refl) as (_ & _ & _ & Hok).
    apply (Hok response_exit_0); reflexivity.
Defined.

(** C4 applied: the cache answers NOT_FOUND. *)
Lemma fetch_from_action_cache_result_witness :
  fetch_from_action_cache
    (fixed_GetActionResult
       {| error_code := NOT_FOUND; error_message := "no such action" |}
       (ActionResult_exit 0))
    no_Tree size_digest action_digest_1 "inst" true (client_process [])
  = (Val (false, None), set_allocated 1 (client_process [])).
Proof.
  destruct (fetch_from_action_cache_result
              (fixed_GetActionResult
                 {| error_code := NOT_FOUND;
                    error_message := "no such action" |}
                 (ActionResult_exit 0))
              no_Tree size_digest action_digest_1 "inst" true
              (client_process [])) as (_ & Hnf & _).
  exact (Hnf eq_refl).
Defined.

End ResultFacts.

(** ** env.cpp: boolean variables *)

Module EnvFacts.
Import Str Env StrFacts.

(** The fuel of [parse_set] is enough. *)
Lemma parse_set_loop_fuel (s : string) (fuel1 fuel2 : nat) (r : gset string) :
  String.length s < fuel1 → String.length s < fuel2 →
  parse_set_loop fuel1 s r = parse_set_loop fuel2 s r.
Proof.
  revert fuel2 s r. induction fuel1 as [|fuel1 IH]; intros fuel2 s r H1 H2;
    [lia|].
  destruct fuel2 as [|fuel2]; [lia|]. cbn [parse_set_loop].
  destruct (strchr s ",") as [k|] eqn:E; [|done].
  apply strchr_Some in E as (Hs & _ & Hk).
  assert (String.length (drop (S k) s) < String.length s).
  { rewrite Hs at 2. rewrite str_length_app. simpl. lia. }
  apply IH; lia.
Qed.
Section Parse.
Variable strtol : string → Z.
Variable DEFAULT_RECC_SERVER : string.

Lemma parse_entry_boolvar (c : config) (v : boolvar) (text : string) :
  parse_entry strtol c (boolvar_name v +:+ "=" +:+ text)
  = Some (set_flag v (negb (empty text)) c).
Proof.
  destruct v; destruct text as [|a text]; vm_compute; reflexivity.
Qed.

Lemma parse_entries_app (c : config) (l1 l2 : list string) :
  parse_entries strtol c (l1 ++ l2)
  = parse_entries strtol c l1 ≫= λ c1, parse_entries strtol c1 l2.
Proof.
  revert c. induction l1 as [|e l1 IH]; intros c; [done|].
  cbn [app parse_entries]. destruct (parse_entry strtol c e); [apply IH | done].
Qed.

Lemma flag_set_flag (c : config) (v : boolvar) (b : bool) :
  flag (set_flag v b c) v = b.
Proof. cbn. apply fn_lookup_insert. Qed.

Lemma flag_set_flag_ne (c : config) (v w : boolvar) (b : bool) :
  w ≠ v → flag (set_flag v b c) w = flag c w.
Proof. intros Hne. cbn. by apply fn_lookup_insert_ne. Qed.

Lemma special_defaults_flag (c : config) (v : boolvar) :
  flag (special_defaults DEFAULT_RECC_SERVER c) v = flag c v.
Proof.
  unfold special_defaults.
  destruct (empty (str c RECC_SERVER));
    destruct (empty (str _ RECC_CAS_SERVER)); reflexivity.
Qed.

(** C9.  An entry [NAME=text] of the environment, for [NAME] one of the
    boolean variables, sets the variable to [true] when [text] is not empty
    and to [false] when it is empty, whatever the text says: as the last
    entry of an environment that parses, it decides the value of the flag
    in the resulting configuration.  So [RECC_FORCE_REMOTE=0] and
    [RECC_FORCE_REMOTE=false] set the flag and only [RECC_FORCE_REMOTE=]
    clears it. *)
Theorem boolvar_true_iff_value_not_empty :
  (∀ (c : config) (v : boolvar) (text : string),
      parse_entry strtol c (boolvar_name v +:+ "=" +:+ text)
      = Some (set_flag v (negb (empty text)) c))
  ∧ (∀ (c c' : config) (environ : list string) (v : boolvar) (text : string),
        parse_environment strtol DEFAULT_RECC_SERVER c environ = Some c' →
        ∃ c'',
          parse_environment strtol DEFAULT_RECC_SERVER c
            (environ ++ [boolvar_name v +:+ "=" +:+ text]) = Some c''
          ∧ (flag c'' v = true ↔ text ≠ "")
          ∧ ∀ w, w ≠ v → flag c'' w = flag c' w)
  ∧ (∀ c : config,
        (λ c', flag c' RECC_FORCE_REMOTE)
          <$> parse_environment strtol DEFAULT_RECC_SERVER c
                ["RECC_FORCE_REMOTE=0"]
        = Some true
        ∧ (λ c', flag c' RECC_FORCE_REMOTE)
            <$> parse_environment strtol DEFAULT_RECC_SERVER c
                  ["RECC_FORCE_REMOTE=false"]
          = Some true
        ∧ (λ c', flag c' RECC_FORCE_REMOTE)
            <$> parse_environment strtol DEFAULT_RECC_SERVER c
                  ["RECC_FORCE_REMOTE="]
          = Some false).
Proof.
  split; [exact parse_entry_boolvar|]. split.
  - intros c c' environ v text Hparse. unfold parse_environment in *.
    destruct (parse_entries strtol c environ) as [c0|] eqn:E; [|done].
    cbn in Hparse. injection Hparse as <-.
    rewrite parse_entries_app, E. cbn [mbind option_bind parse_entries].
    rewrite parse_entry_boolvar. cbn [fmap option_fmap option_map].
    eexists. split; [reflexivity|]. rewrite !special_defaults_flag. split.
    + rewrite flag_set_flag. destruct text; cbn; split; congruence.
    + intros w Hw. rewrite !special_defaults_flag. by apply flag_set_flag_ne.
  - intros c. unfold parse_environment. cbn [parse_entries].
    change "RECC_FORCE_REMOTE=0"
      with (boolvar_name RECC_FORCE_REMOTE +:+ "=" +:+ "0").
    change "RECC_FORCE_REMOTE=false"
      with (boolvar_name RECC_FORCE_REMOTE +:+ "=" +:+ "false").
    change "RECC_FORCE_REMOTE="
      with (boolvar_name RECC_FORCE_REMOTE +:+ "=" +:+ "").
    rewrite !parse_entry_boolvar. cbn [fmap option_fmap option_map].
    by rewrite !special_defaults_flag, !flag_set_flag.
Qed.

End Parse.

(** C9 applied: [RECC_SKIP_CACHE=no] after [RECC_SERVER=somehost:1234]. *)
Lemma boolvar_true_iff_value_not_empty_witness :
  ∃ c'',
    parse_environment (λ _, 0%Z) "localhost:8085" empty_config
      (["RECC_SERVER=somehost:1234"] ++ ["RECC_SKIP_CACHE=no"]) = Some c''
    ∧ (flag c'' RECC_SKIP_CACHE = true ↔ "no" ≠ "")
    ∧ ∀ w, w ≠ RECC_SKIP_CACHE →
           flag c'' w
           = flag (special_defaults "localhost:8085"
                     (set_str RECC_SERVER "somehost:1234" empty_config)) w.
Proof.
  apply (proj1 (proj2 (boolvar_true_iff_value_not_empty
                         (λ _, 0%Z) "localhost:8085"))
           empty_config _ ["RECC_SERVER=somehost:1234"] RECC_SKIP_CACHE "no").
  reflexivity.
Defined.
End EnvFacts.

(** ** fileutils.cpp: further properties *)

Module PathExtras.
Import Cpp Str FileUtils PathModel StrFacts PathFacts.
#[local] Arguments String.append !_ _ : simpl nomatch.

(** *** [normalize_path] on its own results *)

Lemma resolved_elem (l : list string) (x : string) :
  resolved l → x ∈ l → x = ".." ∨ plain x.
Proof.
  intros (k & l' & -> & Hl) [Hx|Hx]%elem_of_app.
  - left. by apply elem_of_replicate in Hx as [-> _].
  - right. by eapply Forall_forall in Hl.
Qed.

Lemma resolved_before_dotdot (k : nat) (l' acc l : list string) :
  replicate k ".." ++ l' = acc ++ ".." :: l → Forall plain l' →
  acc = replicate (length acc) "..".
Proof.
  revert acc. induction k as [|k IH]; intros acc E Hl; simpl in E.
  - exfalso. assert (".." ∈ l') as Hin by (rewrite E; set_solver).
    eapply Forall_forall in Hl; [|done]. by destruct Hl as (_ & _ & ? & _).
  - destruct acc as [|a acc]; [done|]. simpl in E. injection E as <- E.
    simpl. f_equal. by apply IH.
Qed.

Lemma normalize_step_push (x : string) (acc l : list string) :
  resolved (acc ++ x :: l) → normalize_step x acc = acc ++ [x].
Proof.
  intros Hr. unfold normalize_step.
  assert (x = ".." ∨ plain x) as [->|Hp]
    by (eapply resolved_elem; [done | set_solver]).
  - destruct Hr as (k & l' & E & Hl). symmetry in E.
    apply resolved_before_dotdot in E; [|done].
    destruct acc as [|a acc]; [done|].
    assert (last (a :: acc) = Some "..") as Hlast.
    { rewrite E. simpl length. rewrite replicate_S_end, last_snoc. done. }
    rewrite Hlast. rewrite (bool_decide_eq_true_2 (Some ".." = Some "..")) by done.
    by rewrite andb_false_r.
  - destruct Hp as (H1 & H2 & H3 & _).
    apply String.eqb_neq in H1, H2, H3. by rewrite H1, H2, H3.
Qed.

Lemma run_resolved_id (l acc : list string) :
  resolved (acc ++ l) → run acc l = acc ++ l.
Proof.
  revert acc. induction l as [|x l IH]; intros acc Hr; simpl.
  - by rewrite app_nil_r.
  - unfold run in *. simpl. rewrite (normalize_step_push x acc l Hr).
    rewrite IH; rewrite <- app_assoc; done.
Qed.

Lemma segs_join (l : list string) :
  Forall solid l → segs (join l) = l.
Proof.
  induction 1 as [|x l [Hne Hm] Hl IH]; [done|].
  destruct l as [|y l].
  - simpl. by apply segs_no_slash.
  - rewrite join_cons.
    change (x +:+ "/" +:+ join (y :: l))
      with (x +:+ String SLASH (join (y :: l))).
    rewrite segs_app_slash by done. by rewrite IH.
Qed.

Lemma run_skip_slash (st : list string) (b : string) :
  run st (segs (String SLASH b)) = run st (segs b).
Proof. done. Qed.

Lemma root_of_app (r : string) (l : list string) (p : string) :
  Forall solid l → r = root_of p → root_of (r +:+ join l) = r.
Proof.
  intros Hl ->. unfold root_of at 2 3.
  destruct (Ascii.eqb (char_at p 0) SLASH); [done|].
  simpl. apply root_of_relative. by apply join_front.
Qed.

(** X1.  [normalize_path] is idempotent: normalizing a normalized path
    gives it back unchanged. *)
Theorem normalize_path_idempotent (path : string) :
  normalize_path (normalize_path path) = normalize_path path.
Proof.
  rewrite (normalize_path_join path).
  pose proof (run_segs_resolved path) as Hr.
  set (L := run [] (segs path)) in *.
  pose proof (resolved_solid L Hr) as Hs.
  rewrite normalize_path_join. rewrite (root_of_app _ L path) by done.
  f_equal. f_equal.
  assert (run [] (segs (join L)) = L) as HL.
  { rewrite segs_join by done. by rewrite run_resolved_id. }
  unfold root_of. destruct (Ascii.eqb (char_at path 0) SLASH); [|done].
  change ("/" +:+ join L) with (String SLASH (join L)).
  by rewrite run_skip_slash.
Qed.

(** *** [parent_directory_levels] counts what [normalize_path] leaves *)

Lemma take_length_lt (k : nat) (s : string) :
  k ≤ String.length s → String.length (take k s) = k.
Proof.
  revert s. induction k as [|k IH]; intros [|c s]; simpl; try lia.
  intros ?. rewrite IH; lia.
Qed.

Lemma char_at_take (k i : nat) (s : string) :
  i < k → char_at (take k s) i = char_at s i.
Proof.
  revert i s. induction k as [|k IH]; intros i [|c s] Hi; try lia; try done.
  destruct i as [|i]; [done|]. simpl take. rewrite !char_at_cons_S.
  apply IH. lia.
Qed.

Lemma str_length_1 (s : string) :
  String.length s = 1 → s = String (char_at s 0) "".
Proof. destruct s as [|c [|d s]]; simpl; intros; try lia; done. Qed.

Lemma str_length_2 (s : string) :
  String.length s = 2 → s = String (char_at s 0) (String (char_at s 1) "").
Proof. destruct s as [|c [|d [|e s]]]; simpl; intros; try lia; done. Qed.

(** The step of [parent_directory_levels] reads the segment by its length
    and first characters; this is the same test on the segment itself. *)
Lemma levels_step_segment (path : string) (k : nat) (cur low : Z) :
  k ≤ String.length path →
  levels_step path k (cur, low) =
  let seg := take k path in
  if String.eqb seg "" || String.eqb seg "." then (cur, low)
  else if String.eqb seg ".." then ((cur - 1)%Z, Z.min low (cur - 1))
  else ((cur + 1)%Z, low).
Proof.
  intros Hk. cbn zeta. unfold levels_step.
  pose proof (take_length_lt k path Hk) as Hlen.
  destruct k as [|[|[|k]]].
  - simpl. by destruct path.
  - rewrite (str_length_1 _ Hlen). rewrite char_at_take by lia.
    generalize (char_at path 0). intros c. cbn [Nat.eqb orb andb].
    destruct (Ascii.eqb_spec c DOT) as [->|Hd]; [done|].
    repeat match goal with
           | |- context [String.eqb ?a ?b] =>
               let E := fresh "E" in
               destruct (String.eqb_spec a b) as [E|E];
               [try discriminate E; try (injection E as E); try done|]
           end; done.
  - rewrite (str_length_2 _ Hlen). rewrite !char_at_take by lia.
    generalize (char_at path 0) (char_at path 1). intros c d.
    cbn [Nat.eqb orb andb].
    destruct (Ascii.eqb_spec c DOT) as [->|Hc];
      [destruct (Ascii.eqb_spec d DOT) as [->|Hd]|]; cbn [andb];
      repeat match goal with
             | |- context [String.eqb ?a ?b] =>
                 let E := fresh "E" in
                 destruct (String.eqb_spec a b) as [E|E];
                 [try discriminate E; try (injection E as E);
                  try done; try congruence|]
             end; try done; try congruence.
  - simpl Nat.eqb. cbn [orb andb].
    assert (take (S (S (S k))) path ≠ "") as H0
      by (intros E; rewrite E in Hlen; simpl in Hlen; lia).
    assert (take (S (S (S k))) path ≠ ".") as H1
      by (intros E; rewrite E in Hlen; simpl in Hlen; lia).
    assert (take (S (S (S k))) path ≠ "..") as H2
      by (intros E; rewrite E in Hlen; simpl in Hlen; lia).
    apply String.eqb_neq in H0, H1, H2. by rewrite H0, H1, H2.
Qed.

(** What the two loops keep in step: the stack of [normalize_path] is
    [-lowestLevel] unresolved [".."] and [currentLevel - lowestLevel]
    plain segments. *)
Lemma levels_stack_step (seg : string) (st : list string) (cur low : Z)
    (l0 : list string) :
  mem SLASH seg = false →
  st = replicate (Z.to_nat (- low)) ".." ++ l0 → Forall plain l0 →
  Z.of_nat (length l0) = (cur - low)%Z → (low ≤ 0)%Z →
  ∃ l1,
    let '(cur', low') :=
      if String.eqb seg "" || String.eqb seg "." then (cur, low)
      else if String.eqb seg ".." then ((cur - 1)%Z, Z.min low (cur - 1))
      else ((cur + 1)%Z, low) in
    normalize_step seg st = replicate (Z.to_nat (- low')) ".." ++ l1
    ∧ Forall plain l1
    ∧ Z.of_nat (length l1) = (cur' - low')%Z ∧ (low' ≤ 0)%Z.
Proof.
  intros Hm -> Hl Hlen Hlow. unfold normalize_step.
  destruct (String.eqb_spec seg "") as [->|H0]; [by exists l0|].
  destruct (String.eqb_spec seg ".") as [->|H1]; [by exists l0|].
  destruct (String.eqb_spec seg "..") as [->|H2]; cbn [orb andb negb].
  - induction l0 as [|x l0 _] using rev_ind.
    + rewrite app_nil_r. simpl in Hlen.
      assert (cur = low) as -> by lia.
      replace (Z.min low (low - 1)) with (low - 1)%Z by lia.
      exists []. rewrite app_nil_r.
      replace (Z.to_nat (- (low - 1))) with (S (Z.to_nat (- low))) by lia.
      rewrite replicate_S_end.
      destruct (Z.to_nat (- low)) as [|k] eqn:Ek.
      * simpl. repeat split; [done|simpl; lia|lia].
      * assert (last (replicate (S k) "..") = Some "..") as Hlast
          by (by rewrite replicate_S_end, last_snoc).
        rewrite Hlast.
        rewrite (bool_decide_eq_true_2 (Some ".." = Some "..")) by done.
        rewrite andb_false_r. cbn [andb negb].
        repeat split; [done|simpl; lia|lia].
    + rewrite length_app in Hlen. simpl in Hlen.
      apply Forall_app in Hl as [Hl Hx]. rewrite Forall_singleton in Hx.
      rewrite last_snoc_plain.
      rewrite (bool_decide_eq_false_2 (_ = [])).
      2:{ rewrite app_assoc. apply snoc_not_nil. }
      rewrite (bool_decide_eq_false_2 (Some x = Some "..")).
      2:{ intros [= ->]. by destruct Hx as (_ & _ & ? & _). }
      cbn [andb negb]. exists l0.
      replace (Z.min low (cur - 1)) with low by lia.
      rewrite app_assoc, removelast_last.
      repeat split; [done|lia|lia].
  - exists (l0 ++ [seg]). rewrite app_assoc. repeat split.
    + apply Forall_app. split; [done|]. by apply Forall_singleton.
    + rewrite length_app. simpl. lia.
    + done.
Qed.

Lemma levels_loop_stack (fuel : nat) :
  ∀ (path : string) (st : list string) (cur low : Z) (l0 : list string),
    String.length path < fuel →
    st = replicate (Z.to_nat (- low)) ".." ++ l0 → Forall plain l0 →
    Z.of_nat (length l0) = (cur - low)%Z → (low ≤ 0)%Z →
    ∃ l1,
      let '(path', (cur', low')) := levels_loop fuel path (cur, low) in
      let lowest :=
        if String.eqb path' ".." then Z.min low' (cur' - 1) else low' in
      normalize_loop fuel path st = replicate (Z.to_nat (- lowest)) ".." ++ l1
      ∧ Forall plain l1 ∧ (lowest ≤ 0)%Z.
Proof.
  induction fuel as [|fuel IH]; intros path st cur low l0 Hf Hst Hl Hlen Hlow;
    [lia|].
  cbn [levels_loop normalize_loop].
  destruct (empty path) eqn:He.
  { apply empty_true in He as ->. simpl. by exists l0. }
  destruct (strchr path SLASH) as [k|] eqn:Hk.
  - apply strchr_Some in Hk as (Hp & Hm & Hlt).
    rewrite levels_step_segment by lia. cbn zeta.
    destruct (levels_stack_step (take k path) st cur low l0 Hm Hst Hl Hlen Hlow)
      as (l1 & Hstep).
    destruct (if String.eqb (take k path) "" || String.eqb (take k path) "."
              then (cur, low)
              else if String.eqb (take k path) ".."
                   then ((cur - 1)%Z, Z.min low (cur - 1))
                   else ((cur + 1)%Z, low)) as [cur' low'].
    destruct Hstep as (Hst' & Hl1 & Hlen1 & Hlow1).
    apply (IH _ _ cur' low' l1); try done.
    assert (String.length path
            = String.length (take k path)
              + S (String.length (drop (S k) path))) as E.
    { rewrite Hp at 1. by rewrite str_length_app. }
    lia.
  - apply strchr_None in Hk.
    destruct (levels_stack_step path st cur low l0 Hk Hst Hl Hlen Hlow)
      as (l1 & Hstep).
    apply empty_false in He. apply String.eqb_neq in He. rewrite He in Hstep.
    cbn [orb] in Hstep.
    destruct (String.eqb_spec path ".") as [->|H1].
    + simpl in Hstep |- *. exists l1. by destruct Hstep as (? & ? & ? & ?).
    + destruct (String.eqb path "..").
      * exists l1. by destruct Hstep as (? & ? & ? & ?).
      * destruct Hstep as (E & Hl1 & _ & ?). exists l1. done.
Qed.

(** X2.  [parent_directory_levels] is the number of [".."] segments that
    [normalize_path] cannot resolve: the normal form of a path is its root
    prefix, then [parent_directory_levels path] times [".."], then plain
    segments only.  The result is never negative. *)
Theorem parent_directory_levels_normalize (path : string) :
  (0 ≤ parent_directory_levels path)%Z
  ∧ ∃ l : list string,
      normalize_path path
      = root_of path
        +:+ join (replicate (Z.to_nat (parent_directory_levels path)) ".."
                  ++ l)
      ∧ Forall plain l.
Proof.
  unfold parent_directory_levels.
  destruct (levels_loop_stack (S (String.length path)) path [] 0 0 [])
    as (l1 & Hl1); try done; [lia|].
  destruct (levels_loop (S (String.length path)) path (0%Z, 0%Z))
    as [path' [cur' low']].
  cbn zeta in Hl1. destruct Hl1 as (E & Hl & Hlow).
  split; [lia|]. exists l1. split; [|done].
  unfold normalize_path, root_of. rewrite E.
  destruct (replicate _ ".." ++ l1) as [|x l] eqn:E'.
  - by rewrite str_app_nil_r.
  - by rewrite append_segments_join.
Qed.
(** *** [join_normalize_path] *)

Lemma str_snoc (s : string) :
  s ≠ "" → s = pop_back s +:+ String (back s) "".
Proof.
  induction s as [|c s IH]; [done|]. intros _.
  destruct s as [|d s]; [done|].
  change (pop_back (String c (String d s)))
    with (String c (pop_back (String d s))).
  change (back (String c (String d s))) with (back (String d s)).
  simpl. f_equal. by apply IH.
Qed.

Lemma char_at_0_app (a b : string) :
  a ≠ "" → char_at (a +:+ b) 0 = char_at a 0.
Proof. by destruct a. Qed.

Lemma root_of_app_l (a b : string) : a ≠ "" → root_of (a +:+ b) = root_of a.
Proof. intros. unfold root_of. by rewrite char_at_0_app. Qed.

(** A slash more at a place where there is one already changes nothing
    for [normalize_path]. *)
Lemma run_segs_slash_twice (st : list string) (a b : string) :
  back a = SLASH ∨ char_at b 0 = SLASH →
  run st (segs (a +:+ String SLASH b)) = run st (segs (a +:+ b)).
Proof.
  intros [Ha|Hb].
  - assert (a ≠ "") as Hne by (by intros ->).
    rewrite (str_snoc a Hne), Ha, !str_app_assoc.
    change (String SLASH "" +:+ String SLASH b)
      with (String SLASH (String SLASH b)).
    change (String SLASH "" +:+ b) with (String SLASH b).
    by rewrite !run_segs_app_slash, run_skip_slash.
  - apply char_at_0_slash in Hb as [r ->].
    by rewrite !run_segs_app_slash, run_skip_slash.
Qed.

Lemma normalize_path_slash_twice (a b : string) :
  a ≠ "" → back a = SLASH ∨ char_at b 0 = SLASH →
  normalize_path (a +:+ String SLASH b) = normalize_path (a +:+ b).
Proof.
  intros Hne H. rewrite !normalize_path_join, !root_of_app_l by done.
  by rewrite run_segs_slash_twice.
Qed.

Lemma drop_1_slash (s : string) :
  char_at s 0 = SLASH → String SLASH (drop 1 s) = s.
Proof. by intros [r ->]%char_at_0_slash. Qed.

Lemma join_normalize_path_cat (base extension : string) :
  c_string base → c_string extension →
  base ≠ "" → extension ≠ "" →
  join_normalize_path base extension
  = normalize_path (base +:+ String SLASH extension).
Proof.
  intros Hcb Hce Hb He. unfold join_normalize_path, front, push_back.
  apply empty_false in Hb as Hb', He as He'. rewrite Hb', He'. cbn [negb andb].
  destruct (Ascii.eqb_spec (back base) SLASH) as [Hbs|Hbs];
    destruct (Ascii.eqb_spec (char_at extension 0) SLASH) as [Hes|Hes];
    cbn [negb andb].
  - rewrite c_str_id.
    2:{ apply c_string_app. split; [done|].
        rewrite <- (drop_1_slash extension Hes) in Hce.
        change (String SLASH (drop 1 extension))
          with ("/" +:+ drop 1 extension) in Hce.
        by apply c_string_app in Hce as [_ ?]. }
    rewrite <- (drop_1_slash extension Hes) at 2.
    rewrite !normalize_path_slash_twice; auto.
  - rewrite c_str_id by (by apply c_string_app).
    change (drop 0 extension) with extension.
    rewrite normalize_path_slash_twice; auto.
  - rewrite c_str_id by (by apply c_string_app).
    change (drop 0 extension) with extension.
    rewrite normalize_path_slash_twice; auto.
  - rewrite c_str_id.
    2:{ apply c_string_app. split; [|done]. by apply c_string_app. }
    change (drop 0 extension) with extension.
    by rewrite str_app_assoc.
Qed.

(** X3.  For a non-empty base and a non-empty extension,
    [join_normalize_path] is [normalize_path] of the two texts with a
    slash between them, whether or not the base ends and the extension
    starts with a slash. *)
Theorem join_normalize_path_spec (base extension : string) :
  c_string base → c_string extension →
  base ≠ "" → extension ≠ "" →
  join_normalize_path base extension
  = normalize_path (base +:+ String SLASH extension).
Proof. apply join_normalize_path_cat. Qed.

Lemma join_normalize_path_spec_witness :
  join_normalize_path "/a/" "/b/../c" = normalize_path "/a///b/../c"
  ∧ join_normalize_path "/a/" "/b/../c" = "/a/c".
Proof.
  split; [|reflexivity].
  apply (join_normalize_path_spec "/a/" "/b/../c"); done.
Defined.

(** *** [has_path_prefix] as an order *)

(** X4.  [has_path_prefix] is reflexive on non-empty paths and
    transitive: a path prefix of a path prefix is a path prefix. *)
Theorem has_path_prefix_preorder :
  (∀ p : string, p ≠ "" → has_path_prefix p p = true)
  ∧ (∀ a b c : string,
        has_path_prefix a b = true → has_path_prefix b c = true →
        has_path_prefix a c = true).
Proof.
  split.
  - intros p Hp. apply has_path_prefix_iff. split; [done | by left].
  - intros a b c [Hb Hab]%has_path_prefix_iff [Hc Hbc]%has_path_prefix_iff.
    apply has_path_prefix_iff. split; [done|].
    destruct Hab as [->|(r' & -> & Hr')]; [done|].
    destruct Hbc as [->|(r & -> & Hr)].
    + right. by exists r'.
    + right. exists (r +:+ r'). split; [by rewrite str_app_assoc|].
      destruct Hr as [?|Hr]; [by left|]. right.
      rewrite char_at_0_app; [done|]. by intros ->.
Qed.

Lemma has_path_prefix_preorder_witness :
  has_path_prefix "/a/b" "/a/b" = true
  ∧ has_path_prefix "/a/b/c/d.h" "/a" = true.
Proof.
  destruct has_path_prefix_preorder as [Hrefl Htrans]. split.
  - by apply Hrefl.
  - apply (Htrans _ "/a/b/c"); reflexivity.
Defined.

(** *** [make_path_absolute] gives absolute paths *)

Lemma c_str_char_0 (s : string) :
  char_at s 0 = SLASH → char_at (c_str s) 0 = SLASH.
Proof. by intros [r ->]%char_at_0_slash. Qed.

Lemma normalize_path_absolute (p : string) :
  char_at p 0 = SLASH → ∃ r, normalize_path p = String SLASH r.
Proof.
  intros Hp. rewrite normalize_path_join, root_of_absolute by done.
  by eexists.
Qed.

(** X5.  With an absolute working directory, [make_path_absolute] turns
    every non-empty path into an absolute one, and applying it a second
    time changes nothing. *)
Theorem make_path_absolute_absolute (path cwd : string) :
  char_at cwd 0 = SLASH → path ≠ "" →
  char_at (make_path_absolute path cwd) 0 = SLASH
  ∧ make_path_absolute (make_path_absolute path cwd) cwd
    = make_path_absolute path cwd.
Proof.
  intros Hcwd Hp.
  assert (char_at (make_path_absolute path cwd) 0 = SLASH) as Habs.
  { unfold make_path_absolute, front. apply empty_false in Hp as ->.
    cbn [orb].
    destruct (Ascii.eqb_spec (char_at path 0) SLASH) as [E|E]; [done|].
    destruct (normalize_path_absolute (c_str (cwd +:+ String SLASH path)))
      as [r Hr].
    { apply c_str_char_0. rewrite char_at_0_app; [done|]. by intros ->. }
    rewrite Hr. by destruct (_ && _). }
  split; [done|].
  unfold make_path_absolute at 1. unfold front. rewrite Habs.
  by rewrite Ascii.eqb_refl, orb_true_r.
Qed.

Lemma make_path_absolute_absolute_witness :
  char_at (make_path_absolute "../x/" "/proj/src") 0 = SLASH
  ∧ make_path_absolute (make_path_absolute "../x/" "/proj/src") "/proj/src"
    = make_path_absolute "../x/" "/proj/src".
Proof. apply make_path_absolute_absolute; done. Defined.

(** X6.  For a relative non-empty path and a non-empty working
    directory, [make_path_absolute] is [join_normalize_path] of the two,
    with the trailing slash of the path put back when the join has lost
    it. *)
Theorem make_path_absolute_is_join (path cwd : string) :
  c_string path → c_string cwd →
  path ≠ "" → char_at path 0 ≠ SLASH → cwd ≠ "" →
  make_path_absolute path cwd
  = let joined := join_normalize_path cwd path in
    if Ascii.eqb (back path) SLASH && negb (Ascii.eqb (back joined) SLASH)
    then push_back joined SLASH else joined.
Proof.
  intros Hcp Hcc Hp Hrel Hcwd. cbn zeta.
  rewrite join_normalize_path_cat by done.
  unfold make_path_absolute, front.
  apply empty_false in Hp as ->. apply Ascii.eqb_neq in Hrel as ->.
  cbn [orb]. rewrite c_str_id; [done|].
  apply c_string_app. split; [done|].
  change (c_string ("/" +:+ path)). by apply c_string_app.
Qed.

Lemma make_path_absolute_is_join_witness :
  make_path_absolute "lib/../inc/" "/proj/src/"
  = push_back (join_normalize_path "/proj/src/" "lib/../inc/") SLASH.
Proof. apply (make_path_absolute_is_join "lib/../inc/" "/proj/src/"); done. Defined.

(** *** [resolve_path_from_prefix_map] *)

Lemma resolve_loop_skip (path : string) (l0 l1 : list (string * string)) :
  Forall (λ e, has_path_prefix path e.1 = false) l0 →
  resolve_loop path (l0 ++ l1) = resolve_loop path l1.
Proof.
  induction 1 as [|e l0 He _ IH]; [done|]. simpl. by rewrite He.
Qed.

(** X7.  [resolve_path_from_prefix_map] applies the first entry of the map
    whose key is a path prefix of the path, and only that one: the path
    [from/rest] becomes [normalize_path] of [to/rest]; a path that no key
    is a path prefix of is returned unchanged, not even normalized. *)
Theorem resolve_path_from_prefix_map_first_match :
  (∀ (map : list (string * string)) (path : string),
      Forall (λ e, has_path_prefix path e.1 = false) map →
      resolve_path_from_prefix_map map path = path)
  ∧ (∀ (l0 l1 : list (string * string)) (from to rest : string),
        c_string to → c_string rest → from ≠ "" →
        Forall (λ e, has_path_prefix (from +:+ String SLASH rest) e.1 = false)
               l0 →
        resolve_path_from_prefix_map (l0 ++ (from, to) :: l1)
                                     (from +:+ String SLASH rest)
        = normalize_path (to +:+ String SLASH rest)).
Proof.
  split.
  - intros map path Hmap. unfold resolve_path_from_prefix_map.
    destruct map as [|e map]; [done|].
    rewrite <- (app_nil_r (e :: map)). by rewrite resolve_loop_skip.
  - intros l0 l1 from to rest Hct Hcr Hfrom Hl0.
    unfold resolve_path_from_prefix_map.
    assert (resolve_loop (from +:+ String SLASH rest) (l0 ++ (from, to) :: l1)
            = normalize_path (to +:+ String SLASH rest)) as E.
    { rewrite resolve_loop_skip by done. simpl.
      assert (has_path_prefix (from +:+ String SLASH rest) from = true) as ->.
      { apply has_path_prefix_iff. split; [done|]. right.
        exists (String SLASH rest). split; [done | by right]. }
      rewrite drop_app_length.
      rewrite c_str_id.
      2:{ apply c_string_app. split; [done|].
          change (c_string ("//" +:+ rest)). by apply c_string_app. }
      destruct to as [|c to]; [done|].
      change (String SLASH (String SLASH rest))
        with (String SLASH "" +:+ String SLASH rest).
      rewrite <- str_app_assoc.
      rewrite normalize_path_slash_twice.
      - by rewrite str_app_assoc.
      - done.
      - left. by rewrite back_app. }
    by destruct (l0 ++ (from, to) :: l1).
Qed.

Lemma resolve_path_from_prefix_map_first_match_witness :
  resolve_path_from_prefix_map
    [("/usr/bin", "/opt"); ("/usr", "/first"); ("/usr", "/second")]
    "/usr/lib/../include/a.h"
  = normalize_path "/first/lib/../include/a.h"
  ∧ resolve_path_from_prefix_map [("/usr/bin", "/opt")] "/usr/lib/../x"
    = "/usr/lib/../x".
Proof.
  destruct resolve_path_from_prefix_map_first_match as [Hnone Hfirst]. split.
  - apply (Hfirst [("/usr/bin", "/opt")] [("/usr", "/second")]
                  "/usr" "/first" "lib/../include/a.h"); try done.
    by repeat constructor.
  - apply Hnone. by repeat constructor.
Defined.
(** *** [parseDirectories] *)

Lemma segs_skip_slashes (s : string) :
  filter (λ x, x ≠ "") (segs (skip_slashes s))
  = filter (λ x, x ≠ "") (segs s).
Proof.
  induction s as [|c s IH]; [done|]. simpl.
  destruct (Ascii.eqb c SLASH) eqn:E; [|by simpl; rewrite E].
  rewrite IH. by rewrite filter_cons_False by (by intros ?).
Qed.

Lemma skip_slashes_front (s : string) : char_at (skip_slashes s) 0 ≠ SLASH.
Proof.
  induction s as [|c s IH]; [done|]. simpl.
  destruct (Ascii.eqb_spec c SLASH); [done|]. done.
Qed.

Lemma skip_slashes_length (s : string) :
  String.length (skip_slashes s) ≤ String.length s.
Proof.
  induction s as [|c s IH]; [done|]. simpl.
  destruct (Ascii.eqb c SLASH); simpl; lia.
Qed.

Lemma parse_loop_segs (fuel : nat) :
  ∀ (s : string) (result : list string),
    String.length s < fuel →
    parse_loop fuel s result = result ++ filter (λ x, x ≠ "") (segs s).
Proof.
  induction fuel as [|fuel IH]; intros s result Hf; [lia|].
  cbn [parse_loop]. unfold strtok.
  rewrite <- (segs_skip_slashes s).
  pose proof (skip_slashes_front s) as Hfront.
  pose proof (skip_slashes_length s) as Hlen.
  destruct (skip_slashes s) as [|c s'] eqn:Es; [by rewrite app_nil_r|].
  cbn [empty].
  destruct (strchr (String c s') SLASH) as [k|] eqn:Hk.
  - apply strchr_Some in Hk as (Hp & Hm & Hlt).
    assert (take k (String c s') ≠ "") as Hne.
    { destruct k; [|done]. rewrite Hp in Hfront. simpl in Hfront. done. }
    rewrite IH.
    2:{ assert (String.length (String c s')
                = String.length (take k (String c s'))
                  + S (String.length (drop (S k) (String c s')))) as E
          by (rewrite Hp at 1; by rewrite str_length_app).
        lia. }
    rewrite Hp at 3. rewrite segs_app_slash by done.
    rewrite filter_cons_True by done. by rewrite <- app_assoc.
  - apply strchr_None in Hk. rewrite segs_no_slash by done.
    assert (∀ r, parse_loop fuel "" r = r) as -> by (by destruct fuel).
    by rewrite filter_cons_True by done.
Qed.

(** X8.  [parseDirectories] returns, in order, the non-empty segments
    between the slashes of the path, the same segments [normalize_path]
    goes over: empty segments from doubled, leading or trailing slashes
    are dropped, ["."] and [".."] are kept, and no token is empty or holds
    a slash. *)
Theorem parseDirectories_segments (path : string) :
  parseDirectories path = filter (λ x, x ≠ "") (segs (c_str path))
  ∧ Forall solid (parseDirectories path).
Proof.
  assert (parseDirectories path = filter (λ x, x ≠ "") (segs (c_str path)))
    as E.
  { unfold parseDirectories. rewrite parse_loop_segs; [done|].
    assert (String.length (c_str path) ≤ String.length path); [|lia].
    induction path as [|c p IH]; [done|]. simpl.
    destruct (Ascii.eqb c NUL); simpl; lia. }
  split; [done|]. rewrite E. apply Forall_forall.
  intros x [Hx Hin]%list_elem_of_filter. split; [done|].
  pose proof (segs_slash_free (c_str path)) as Hs.
  by eapply Forall_forall in Hs.
Qed.

(** *** [last_n_segments] and [path_basename] *)

Lemma pop_back_length (s : string) :
  s ≠ "" → S (String.length (pop_back s)) = String.length s.
Proof.
  induction s as [|c s IH]; [done|]. intros _. destruct s as [|d s]; [done|].
  change (pop_back (String c (String d s)))
    with (String c (pop_back (String d s))).
  change (String.length (String c (pop_back (String d s))))
    with (S (String.length (pop_back (String d s)))).
  rewrite IH; done.
Qed.

Lemma str_snoc_ind (P : string → Prop) :
  P "" → (∀ s c, P s → P (s +:+ String c "")) → ∀ s, P s.
Proof.
  intros H0 HS s. remember (String.length s) as n eqn:Hn.
  revert s Hn. induction n as [|n IH]; intros s Hn.
  - symmetry in Hn. by apply length_zero in Hn as ->.
  - assert (s ≠ "") as Hne by (intros ->; done).
    rewrite (str_snoc s Hne). apply HS, IH.
    pose proof (pop_back_length s Hne). lia.
Qed.

Lemma slashes_app (a b : string) : slashes (a +:+ b) = slashes a + slashes b.
Proof. induction a as [|c a IH]; [done|]. simpl. rewrite IH. lia. Qed.

Lemma char_at_app_length (a : string) (c : ascii) (b : string) :
  char_at (a +:+ String c b) (String.length a) = c.
Proof.
  rewrite <- (Nat.add_0_r (String.length a)). by rewrite char_at_app_r.
Qed.

(** The loop finds its slash: from the end of [t], with the slashes of [t]
    still short of [n] by one, it returns what starts after [pre/]. *)
Lemma last_n_scan_found (pre : string) (n : Z) (t : string) :
  ∀ (rest : string) (len : nat) (seen : Z),
    (seen + Z.of_nat (slashes t) = n - 1)%Z →
    last_n_scan (pre +:+ String SLASH (t +:+ rest)) n
                (String.length pre + 1 + String.length t) len seen
    = Found (take (len + String.length t) (t +:+ rest)).
Proof.
  induction t as [|t d IH] using str_snoc_ind; intros rest len seen Hn.
  - simpl in Hn. rewrite !Nat.add_0_r.
    replace (String.length pre + 1) with (S (String.length pre)) by lia.
    cbn [last_n_scan]. rewrite char_at_app_length, Ascii.eqb_refl.
    assert ((seen + 1 =? n)%Z = true) as -> by lia.
    replace (S (String.length pre)) with (String.length pre + 1) by lia.
    by rewrite drop_app_plus.
  - rewrite str_length_app. simpl String.length.
    replace (String.length pre + 1 + (String.length t + 1))
      with (S (String.length pre + 1 + String.length t)) by lia.
    cbn [last_n_scan].
    rewrite str_app_assoc.
    change (String d "" +:+ rest) with (String d rest).
    assert (char_at (pre +:+ String SLASH (t +:+ String d rest))
                    (String.length pre + 1 + String.length t) = d) as ->.
    { replace (pre +:+ String SLASH (t +:+ String d rest))
        with ((pre +:+ String SLASH t) +:+ String d rest)
        by (by rewrite str_app_assoc).
      replace (String.length pre + 1 + String.length t)
        with (String.length (pre +:+ String SLASH t))
        by (rewrite str_length_app; simpl; lia).
      apply char_at_app_length. }
    rewrite slashes_app in Hn. simpl in Hn.
    replace (len + (String.length t + 1)) with (S len + String.length t)
      by lia.
    destruct (Ascii.eqb d SLASH).
    + assert ((seen + 1 =? n)%Z = false) as -> by lia.
      apply IH. lia.
    + apply IH. lia.
Qed.

(** The loop reaches the start of the path: every slash it meets is
    counted, none is the [n]-th. *)
Lemma last_n_scan_start (n : Z) (s : string) :
  ∀ (rest : string) (len : nat) (seen : Z),
    (seen + Z.of_nat (slashes s) < n ∨ n ≤ seen)%Z →
    last_n_scan (s +:+ rest) n (String.length s) len seen
    = AtStart (seen + Z.of_nat (slashes s)).
Proof.
  induction s as [|s d IH] using str_snoc_ind; intros rest len seen Hn.
  - simpl. f_equal. lia.
  - rewrite str_length_app. simpl String.length.
    replace (String.length s + 1) with (S (String.length s)) by lia.
    cbn [last_n_scan]. rewrite str_app_assoc.
    change (String d "" +:+ rest) with (String d rest).
    rewrite char_at_app_length. rewrite slashes_app in Hn |- *.
    simpl in Hn |- *.
    destruct (Ascii.eqb d SLASH).
    + assert ((seen + 1 =? n)%Z = false) as -> by lia.
      rewrite IH by lia. f_equal. lia.
    + rewrite IH by lia. f_equal. lia.
Qed.

Lemma take_all (s : string) : take (String.length s) s = s.
Proof.
  rewrite <- (str_app_nil_r s) at 2. rewrite take_app_length. done.
Qed.

(** X9.  [last_n_segments path n], for n ≥ 1, returns what follows the
    n-th slash from the right, the last character of the path not being
    looked at as a slash but left out of the result when it is one: for
    [path = pre/tail·c] with n - 1 slashes in [tail], the result is
    [tail·c], or [tail] when [c] is a slash. *)
Theorem last_n_segments_tail (pre tail : string) (c : ascii) (n : Z) :
  Z.of_nat (slashes tail) = (n - 1)%Z →
  last_n_segments (pre +:+ String SLASH (tail +:+ String c "")) n
  = Some (Ok (if Ascii.eqb c SLASH then tail else tail +:+ String c "")).
Proof.
  intros Hn. unfold last_n_segments.
  assert ((n =? 0)%Z = false) as -> by lia.
  set (path := pre +:+ String SLASH (tail +:+ String c "")).
  assert (String.length path - 1
          = String.length pre + 1 + String.length tail) as Hlen.
  { unfold path. rewrite str_length_app. simpl.
    rewrite str_length_app. simpl. lia. }
  assert (empty path = false) as ->.
  { apply empty_false. intros E. unfold path in E.
    apply str_app_eq_nil in E as [_ E]. done. }
  rewrite Hlen.
  assert (char_at path (String.length pre + 1 + String.length tail) = c)
    as ->.
  { unfold path.
    replace (pre +:+ String SLASH (tail +:+ String c ""))
      with ((pre +:+ String SLASH tail) +:+ String c "")
      by (by rewrite str_app_assoc).
    replace (String.length pre + 1 + String.length tail)
      with (String.length (pre +:+ String SLASH tail))
      by (rewrite str_length_app; simpl; lia).
    apply char_at_app_length. }
  unfold path. rewrite last_n_scan_found by lia.
  destruct (Ascii.eqb c SLASH); do 2 f_equal.
  - apply take_app_length.
  - replace (1 + String.length tail)
      with (String.length (tail +:+ String c ""))
      by (rewrite str_length_app; simpl; lia).
    apply take_all.
Qed.

Lemma last_n_segments_tail_witness :
  last_n_segments "/usr/lib/gcc/x86/" 2 = Some (Ok "gcc/x86")
  ∧ last_n_segments "a//" 1 = Some (Ok "").
Proof.
  split.
  - apply (last_n_segments_tail "/usr/lib" "gcc/x8" "6" 2). reflexivity.
  - apply (last_n_segments_tail "a" "" "/" 1). reflexivity.
Defined.

(** X10.  When the path, its last character apart, has fewer than n
    slashes (or n is negative), [last_n_segments] throws the logic error
    "Not enough segments in path", with one exception: for n = 1 and no
    slash at all it returns the whole path, a trailing slash included.  So
    the relative path ["a/b"] has no last 2 segments, and the base name of
    ["name/"] is ["name/"]. *)
Theorem last_n_segments_short (body : string) (c : ascii) (n : Z) :
  (Z.of_nat (slashes body) < n ∨ n < 0)%Z →
  last_n_segments (body +:+ String c "") n
  = Some (if (slashes body =? 0) && (n =? 1)%Z
          then Ok (body +:+ String c "")
          else Throw (logic_error "Not enough segments in path")).
Proof.
  intros Hn. unfold last_n_segments.
  assert ((n =? 0)%Z = false) as -> by lia.
  assert (empty (body +:+ String c "") = false) as ->.
  { apply empty_false. intros E. apply str_app_eq_nil in E as [_ E]. done. }
  rewrite str_length_app. simpl String.length.
  replace (String.length body + 1 - 1) with (String.length body) by lia.
  rewrite last_n_scan_start by lia.
  replace (0 + Z.of_nat (slashes body))%Z with (Z.of_nat (slashes body))
    by lia.
  destruct (slashes body) as [|k] eqn:E.
  - simpl. by destruct (n =? 1)%Z.
  - assert ((Z.of_nat (S k) =? 0)%Z = false) as ->
      by (apply Z.eqb_neq; lia).
    done.
Qed.

Lemma last_n_segments_short_witness :
  last_n_segments "a/b" 2
  = Some (Throw (logic_error "Not enough segments in path"))
  ∧ path_basename "name/" = Some (Ok "name/")
  ∧ last_n_segments "/a/b" (-1)
    = Some (Throw (logic_error "Not enough segments in path")).
Proof.
  split; [|split].
  - apply (last_n_segments_short "a/" "b" 2). simpl. lia.
  - apply (last_n_segments_short "name" "/" 1). simpl. lia.
  - apply (last_n_segments_short "/a/" "b" (-1)). simpl. lia.
Defined.
(** *** [make_path_relative] on the working directory itself *)

Lemma match_loop_self (wd : string) :
  c_string wd →
  ∀ (n i last fuel : nat),
    i + n + 1 = String.length wd → n < fuel →
    match_loop fuel wd wd i last
    = Return (if Ascii.eqb (back wd) SLASH then "./" else ".").
Proof.
  intros Hc.
  induction n as [|n IH]; intros i last fuel Hi Hf;
    (destruct fuel as [|fuel]; [lia|]); cbn [match_loop];
    (assert ((i <? String.length wd) = true) as -> by (apply Nat.ltb_lt; lia));
    rewrite Ascii.eqb_refl; cbn [andb].
  - replace (i + 1) with (String.length wd) by lia.
    rewrite char_at_length, Ascii.eqb_refl, Nat.eqb_refl.
    assert (wd ≠ "") as Hwd by (intros ->; simpl in Hi; lia).
    rewrite (back_char_at wd Hwd).
    by replace (String.length wd - 1) with i by lia.
  - assert (Ascii.eqb (char_at wd (i + 1)) NUL = false) as ->.
    { apply Ascii.eqb_neq. apply mem_char_at; [done | lia]. }
    destruct (Ascii.eqb (char_at wd i) SLASH); apply IH; lia.
Qed.

(** X11.  An absolute working directory under the project root, made
    relative to itself, is ["."], or ["./"] when it is written with a
    trailing slash. *)
Theorem make_path_relative_self (root wd : string) :
  c_string wd → char_at wd 0 = SLASH →
  has_path_prefix wd root = true →
  make_path_relative root wd (Some wd)
  = Ok (if Ascii.eqb (back wd) SLASH then "./" else ".").
Proof.
  intros Hc Habs Hroot. unfold make_path_relative.
  destruct (char_at_0_slash wd Habs) as [r Hr].
  assert (empty wd = false) as -> by (by rewrite Hr).
  assert ((String.length wd =? 0) = false) as -> by (by rewrite Hr).
  rewrite Habs, Hroot, Ascii.eqb_refl. cbn [negb orb].
  rewrite (match_loop_self wd Hc (String.length wd - 1) 0 0); [done| |lia].
  rewrite Hr. simpl. lia.
Qed.

Lemma make_path_relative_self_witness :
  make_path_relative "/proj" "/proj/src/" (Some "/proj/src/") = Ok "./".
Proof. apply (make_path_relative_self "/proj" "/proj/src/"); done. Defined.
(** *** [make_path_relative] out of the working directory *)

(** The matching loop over the part [base/] that the path and the working
    directory share: it ends at the slash after [base]. *)
Lemma match_loop_shared (base g w : string) :
  c_string base → w ≠ "" → c_string w →
  ∀ (n i last fuel : nat),
    i + n = String.length base →
    String.length (base +:+ String SLASH g) - i < fuel →
    ∃ fuel',
      match_loop fuel (base +:+ String SLASH g) (base +:+ String SLASH w)
                 i last
      = match_loop fuel' (base +:+ String SLASH g) (base +:+ String SLASH w)
                   (S (String.length base)) (String.length base)
      ∧ String.length (base +:+ String SLASH g) - S (String.length base)
        < fuel'.
Proof.
  intros Hcb Hw Hcw.
  set (path := base +:+ String SLASH g). set (wd := base +:+ String SLASH w).
  assert (String.length path = String.length base + 1 + String.length g)
    as Hlp by (unfold path; rewrite str_length_app; simpl; lia).
  assert (String.length wd = String.length base + 1 + String.length w)
    as Hlw by (unfold wd; rewrite str_length_app; simpl; lia).
  assert (0 < String.length w) as Hlw0 by (destruct w; [done | simpl; lia]).
  assert (c_string wd) as Hcwd.
  { unfold wd. apply c_string_app. split; [done|].
    change (c_string ("/" +:+ w)). by apply c_string_app. }
  assert (∀ i, i ≤ String.length base → char_at path i = char_at wd i)
    as Hsame.
  { intros i Hi. destruct (decide (i = String.length base)) as [->|Hne].
    - unfold path, wd. by rewrite !char_at_app_length.
    - unfold path, wd. rewrite !char_at_app_l by lia. done. }
  assert (∀ i, i ≤ String.length base →
               Ascii.eqb (char_at wd (i + 1)) NUL = false) as Hnext.
  { intros i Hi. apply Ascii.eqb_neq. apply mem_char_at; [done | lia]. }
  induction n as [|n IH]; intros i last fuel Hi Hf;
    (destruct fuel as [|fuel]; [lia|]); cbn [match_loop];
    (assert ((i <? String.length path) = true) as ->
       by (apply Nat.ltb_lt; lia));
    rewrite Hsame, Ascii.eqb_refl, Hnext by lia; cbn [andb].
  - rewrite Nat.add_0_r in Hi. subst i.
    assert (char_at wd (String.length base) = SLASH) as ->
      by (unfold wd; apply char_at_app_length).
    rewrite Ascii.eqb_refl. exists fuel. split; [done | lia].
  - destruct (Ascii.eqb (char_at wd i) SLASH); apply IH; lia.
Qed.

Lemma char_at_app_0 (P s : string) :
  char_at (P +:+ s) (String.length P) = char_at s 0.
Proof.
  rewrite <- (Nat.add_0_r (String.length P)). apply char_at_app_r.
Qed.

(** The matching loop inside the first segment after the shared part,
    where the two differ: it falls out of the loop without a new
    [lastMatchingSegmentEnd], and not at a slash of the working directory
    when it is at the end of the path. *)
Lemma match_loop_differs (b : string) :
  ∀ (P g w2 : string) (last fuel : nat),
    mem SLASH b = false → c_string b → c_string g →
    w2 = "" ∨ char_at w2 0 = SLASH →
    g ≠ b → (∀ r, g ≠ b +:+ String SLASH r) →
    String.length g < fuel →
    ∃ j,
      match_loop fuel (P +:+ g) (P +:+ (b +:+ w2)) (String.length P) last
      = Fall j last
      ∧ String.length P ≤ j ≤ String.length P + String.length b
      ∧ (j = String.length (P +:+ g) →
         char_at (P +:+ (b +:+ w2)) j ≠ SLASH).
Proof.
  induction b as [|c b IH]; intros P g w2 last fuel Hs Hcb Hcg Hw2 Hne Hnp Hf;
    (destruct fuel as [|fuel]; [lia|]); cbn [match_loop];
    rewrite str_length_app.
  - destruct g as [|c' g]; [done|].
    assert ((String.length P <? String.length P + String.length (String c' g))
            = true) as -> by (apply Nat.ltb_lt; simpl; lia).
    rewrite !char_at_app_0.
    change (char_at (String c' g) 0) with c'.
    change ("" +:+ w2) with w2.
    assert (Ascii.eqb c' (char_at w2 0) = false) as ->.
    { apply Ascii.eqb_neq. destruct Hw2 as [->|Hw2].
      - simpl. intros ->. unfold c_string in Hcg. simpl in Hcg. done.
      - rewrite Hw2. intros ->. by apply (Hnp g). }
    cbn [andb]. exists (String.length P). split; [done|]. split; [simpl; lia|].
    simpl. lia.
  - destruct g as [|c' g].
    + rewrite Nat.add_0_r, Nat.ltb_irrefl. cbn [andb].
      exists (String.length P). split; [done|]. split; [simpl; lia|].
      intros _. change (String c b +:+ w2) with (String c (b +:+ w2)).
      rewrite char_at_app_length. simpl in Hs.
      apply orb_false_iff in Hs as [Hs _]. by apply Ascii.eqb_neq in Hs.
    + assert ((String.length P
               <? String.length P + String.length (String c' g)) = true)
        as -> by (apply Nat.ltb_lt; simpl; lia).
      change (String c b +:+ w2) with (String c (b +:+ w2)).
      rewrite !char_at_app_length.
      destruct (Ascii.eqb_spec c' c) as [->|Hcc]; cbn [andb].
      2:{ exists (String.length P). split; [done|]. split; [simpl; lia|].
          simpl. lia. }
      simpl in Hs. apply orb_false_iff in Hs as [Hsc Hs].
      unfold c_string in Hcb, Hcg. simpl in Hcb, Hcg.
      apply orb_false_iff in Hcb as [Hcn Hcb].
      apply orb_false_iff in Hcg as [_ Hcg].
      assert (g ≠ b) as Hne' by (intros ->; done).
      assert (∀ r, g ≠ b +:+ String SLASH r) as Hnp'.
      { intros r ->. by apply (Hnp r). }
      assert (P +:+ String c g = (P +:+ String c "") +:+ g) as EP
        by (by rewrite str_app_assoc).
      assert (P +:+ String c (b +:+ w2) = (P +:+ String c "") +:+ (b +:+ w2))
        as EW by (by rewrite str_app_assoc).
      assert (String.length (P +:+ String c "") = S (String.length P)) as EL
        by (rewrite str_length_app; simpl; lia).
      assert (∀ s, char_at (P +:+ String c s) (String.length P + 1)
                   = char_at s 0) as Hat1.
      { intros s.
        replace (P +:+ String c s) with ((P +:+ String c "") +:+ s)
          by (by rewrite str_app_assoc).
        replace (String.length P + 1)
          with (String.length (P +:+ String c "") + 0) by lia.
        apply char_at_app_r. }
      rewrite !Hat1.
      destruct (IH (P +:+ String c "") g w2 last fuel) as (j & Hj & Hr & Hend);
        try done; [simpl in Hf; lia|].
      rewrite <- EP, <- EW, EL in Hj.
      assert (∃ j, match_loop fuel (P +:+ String c g)
                     (P +:+ String c (b +:+ w2)) (S (String.length P)) last
                   = Fall j last
                   ∧ String.length P ≤ j
                     ≤ String.length P + String.length (String c b)
                   ∧ (j = String.length P + String.length (String c g) →
                      char_at (P +:+ String c (b +:+ w2)) j ≠ SLASH))
        as Hrec.
      { exists j. split; [done|]. split; [simpl; lia|].
        intros Hjl. rewrite EW. apply Hend.
        rewrite str_length_app, EL. simpl in Hjl. lia. }
      rewrite Hsc.
      destruct (Ascii.eqb_spec (char_at (b +:+ w2) 0) NUL) as [Hnul|Hnul];
        [|exact Hrec].
      assert (b = "") as ->.
      { destruct b as [|d b]; [done|]. simpl in Hnul. simpl in Hcb.
        apply orb_false_iff in Hcb as [Hd _].
        apply Ascii.eqb_neq in Hd. done. }
      assert ((String.length P + String.length (String c g)
               =? String.length P + 1) = false) as ->.
      { apply Nat.eqb_neq. simpl. destruct g; [done | simpl; lia]. }
      assert (Ascii.eqb (char_at g 0) SLASH = false) as ->.
      { apply Ascii.eqb_neq. intros [r ->]%char_at_0_slash.
        by apply (Hnp' r). }
      rewrite andb_false_r. exact Hrec.
Qed.

(** Counting the segments of the working directory that are left: the
    rest of a segment counts for nothing, ... *)
Lemma count_dotdots_skip (b : string) :
  ∀ (P rest : string) (n fuel : nat),
    mem SLASH b = false → c_string b →
    String.length (P +:+ (b +:+ rest)) - String.length P < fuel →
    count_dotdots fuel (P +:+ (b +:+ rest)) (String.length P) n
    = count_dotdots fuel (P +:+ (b +:+ rest))
                    (String.length P + String.length b) n.
Proof.
  induction b as [|c b IH]; intros P rest n fuel Hs Hc Hf.
  - by rewrite Nat.add_0_r.
  - destruct fuel as [|fuel]; [lia|].
    change (String c b +:+ rest) with (String c (b +:+ rest)) in *.
    set (rhs := count_dotdots (S fuel) _
                  (String.length P + String.length (String c b)) n).
    cbn [count_dotdots].
    rewrite char_at_app_length.
    simpl in Hs. apply orb_false_iff in Hs as [Hsc Hs].
    unfold c_string in Hc. simpl in Hc. apply orb_false_iff in Hc as [Hcn Hc].
    rewrite Hcn, Hsc. cbn [andb].
    assert (P +:+ String c (b +:+ rest)
            = (P +:+ String c "") +:+ (b +:+ rest)) as EW
      by (by rewrite str_app_assoc).
    assert (String.length (P +:+ String c "") = S (String.length P)) as EL
      by (rewrite str_length_app; simpl; lia).
    assert (String.length (P +:+ String c (b +:+ rest))
            = String.length P + S (String.length (b +:+ rest))) as ELw
      by (rewrite str_length_app; simpl; lia).
    rewrite EW, <- EL. rewrite IH; try done.
    + rewrite <- EW, EL. subst rhs. simpl String.length.
      replace (S (String.length P) + String.length b)
        with (String.length P + S (String.length b)) by lia.
      apply count_dotdots_fuel; rewrite ELw; lia.
    + rewrite <- EW, EL, ELw. lia.
Qed.

(** ... and every slash with a segment after it for one. *)
Lemma count_dotdots_join (ws : list string) :
  Forall solid ws → Forall c_string ws → ws ≠ [] →
  ∀ (P : string) (n fuel : nat),
    String.length (P +:+ String SLASH (join ws)) - String.length P < fuel →
    count_dotdots fuel (P +:+ String SLASH (join ws)) (String.length P) n
    = n + length ws.
Proof.
  intros Hs Hc. induction Hs as [|x ws [Hxne Hxs] Hs IH]; intros Hne; [done|].
  apply Forall_cons in Hc as [Hcx Hc].
  intros P n fuel Hf.
  assert (Ascii.eqb (char_at x 0) NUL = false) as Hx0.
  { apply Ascii.eqb_neq. apply mem_char_at; [done|].
    destruct x; [done | simpl; lia]. }
  destruct fuel as [|fuel]; [lia|]. cbn [count_dotdots].
  rewrite char_at_app_length. cbn [Ascii.eqb Bool.eqb SLASH NUL andb].
  set (P' := P +:+ String SLASH "").
  assert (String.length P' = S (String.length P)) as EL
    by (unfold P'; rewrite str_length_app; simpl; lia).
  destruct ws as [|y ws].
  - cbn [join].
    assert (P +:+ String SLASH x = P' +:+ (x +:+ "")) as EW
      by (unfold P'; by rewrite str_app_assoc, str_app_nil_r).
    assert (String.length (P +:+ String SLASH x)
            = String.length P + S (String.length x)) as ELw
      by (rewrite str_length_app; simpl; lia).
    cbn [join] in Hf. rewrite ELw in Hf.
    replace (char_at (P +:+ String SLASH x) (String.length P + 1))
      with (char_at x 0).
    2:{ rewrite EW. replace (String.length P + 1)
          with (String.length P' + 0) by lia.
        rewrite char_at_app_r. by rewrite str_app_nil_r. }
    rewrite Hx0. cbn [negb]. rewrite EW, <- EL.
    rewrite count_dotdots_skip; try done.
    2:{ rewrite <- EW, EL, ELw. lia. }
    destruct fuel as [|fuel]; [lia|]. cbn [count_dotdots].
    rewrite char_at_ge.
    2:{ rewrite <- EW, ELw, EL. lia. }
    simpl. lia.
  - rewrite join_cons in Hf |- *.
    change (x +:+ "/" +:+ join (y :: ws))
      with (x +:+ String SLASH (join (y :: ws))) in *.
    assert (P +:+ String SLASH (x +:+ String SLASH (join (y :: ws)))
            = P' +:+ (x +:+ String SLASH (join (y :: ws)))) as EW
      by (unfold P'; by rewrite str_app_assoc).
    assert (String.length
              (P +:+ String SLASH (x +:+ String SLASH (join (y :: ws))))
            = String.length P
              + S (String.length x
                   + S (String.length (join (y :: ws))))) as ELw.
    { rewrite str_length_app. simpl. rewrite str_length_app. simpl. lia. }
    rewrite ELw in Hf.
    replace (char_at
               (P +:+ String SLASH (x +:+ String SLASH (join (y :: ws))))
               (String.length P + 1))
      with (char_at x 0).
    2:{ rewrite EW. replace (String.length P + 1)
          with (String.length P' + 0) by lia.
        rewrite char_at_app_r. symmetry. apply char_at_app_l.
        destruct x; [done | simpl; lia]. }
    rewrite Hx0. cbn [negb]. rewrite EW, <- EL.
    rewrite count_dotdots_skip; try done.
    2:{ rewrite <- EW, EL, ELw. lia. }
    assert (P' +:+ (x +:+ String SLASH (join (y :: ws)))
            = (P' +:+ x) +:+ String SLASH (join (y :: ws))) as EW'
      by (by rewrite str_app_assoc).
    rewrite EW'.
    replace (String.length P' + String.length x)
      with (String.length (P' +:+ x)) by (by rewrite str_length_app).
    rewrite IH; try done.
    + simpl. lia.
    + rewrite <- EW', <- EW, ELw, str_length_app, EL. lia.
Qed.

Lemma set_at_app (A s : string) (i : nat) (c : ascii) :
  set_at (A +:+ s) (String.length A + i) c = A +:+ set_at s i c.
Proof. induction A as [|a A IH]; [done|]. simpl. by rewrite IH. Qed.

(** The [".."] are written as dots and the slashes put in after. *)
Lemma put_slashes_fill (k : nat) :
  ∀ (A R : string) (j : nat),
    String.length A = j * 3 →
    put_slashes k j (A +:+ (fill (k * 3 + 2) DOT +:+ R))
    = A +:+ (join (replicate (S k) "..") +:+ R).
Proof.
  induction k as [|k IH]; intros A R j HA; [done|].
  cbn [put_slashes]. rewrite <- HA. rewrite set_at_app.
  change (fill (S k * 3 + 2) DOT) with ("..." +:+ fill (k * 3 + 2) DOT).
  change (set_at (("..." +:+ fill (k * 3 + 2) DOT) +:+ R) 2 SLASH)
    with ("../" +:+ (fill (k * 3 + 2) DOT +:+ R)).
  rewrite <- str_app_assoc. rewrite IH.
  2:{ rewrite str_length_app. simpl. lia. }
  rewrite str_app_assoc. by f_equal.
Qed.

Lemma segs_head_whole (g b : string) :
  mem SLASH b = false → b ≠ "" →
  head (segs g) ≠ Some b →
  g ≠ b ∧ ∀ r, g ≠ b +:+ String SLASH r.
Proof.
  intros Hs Hne Hh. split.
  - intros ->. by rewrite segs_no_slash in Hh.
  - intros r ->. by rewrite segs_app_slash in Hh.
Qed.

(** X12.  Out of the working directory: when the path and the working
    directory part after a shared [base/], the path going on with [f] and
    the working directory with the segments [ws], the first of which is
    not the first segment of [f], then [make_path_relative] climbs out of
    all of [ws] and goes down [f]: the result is one [".."] for every
    segment of [ws], then [/f]. *)
Theorem make_path_relative_climbs
    (root base f : string) (ws : list string) :
  c_string base → c_string f → Forall c_string ws →
  base = "" ∨ char_at base 0 = SLASH →
  Forall solid ws →
  head (segs f) ≠ head ws → ws ≠ [] →
  has_path_prefix (base +:+ String SLASH f) root = true →
  make_path_relative root (base +:+ String SLASH f)
                     (Some (base +:+ String SLASH (join ws)))
  = Ok (join (replicate (length ws) "..") +:+ String SLASH f).
Proof.
  intros Hcb Hcf Hcw Habs Hsolid Hhead Hne Hroot.
  destruct ws as [|w1 ws]; [done|]. clear Hne.
  apply Forall_cons in Hsolid as Hsolid'. destruct Hsolid' as [[Hw1 Hs1] Hsw].
  apply Forall_cons in Hcw as Hcw'. destruct Hcw' as [Hc1 Hcws].
  set (path := base +:+ String SLASH f).
  set (w := join (w1 :: ws)). set (wd := base +:+ String SLASH w).
  assert (∃ w2, w = w1 +:+ w2 ∧ (w2 = "" ∨ char_at w2 0 = SLASH)
                ∧ (ws = [] → w2 = "")
                ∧ (ws ≠ [] → w2 = String SLASH (join ws))) as (w2 & Ew & Hw2 & Hw20 & Hw21).
  { unfold w. destruct ws as [|y ws].
    - exists "". simpl. rewrite str_app_nil_r.
      split; [done|]. split; [by left|]. split; done.
    - exists (String SLASH (join (y :: ws))). rewrite join_cons.
      split; [done|]. split; [by right|]. split; [done|]. done. }
  assert (w ≠ "") as Hwne.
  { rewrite Ew. intros E. by apply str_app_eq_nil in E as [? _]. }
  assert (c_string w) as Hcw0.
  { rewrite Ew. apply c_string_app. split; [done|].
    destruct ws as [|y ws]; [by rewrite Hw20|]. rewrite Hw21 by done.
    change (c_string ("/" +:+ join (y :: ws))). apply c_string_app.
    split; [done|]. clear -Hcws.
    induction Hcws as [|x l Hx Hl IH]; [done|].
    destruct l as [|z l]; [done|]. rewrite join_cons.
    apply c_string_app. split; [done|]. apply c_string_app. split; [done|].
    apply IH. }
  assert (char_at path 0 = SLASH ∧ char_at wd 0 = SLASH) as [Hp0 Hw0].
  { unfold path, wd. destruct Habs as [->|Hb]; [done|].
    assert (base ≠ "") by (by intros ->).
    by rewrite !char_at_0_app. }
  assert (String.length path = String.length base + 1 + String.length f)
    as Hlp by (unfold path; rewrite str_length_app; simpl; lia).
  unfold make_path_relative. fold path wd. fold path in Hroot.
  assert (empty wd = false) as ->.
  { destruct (char_at_0_slash wd Hw0) as [r ->]. done. }
  assert ((String.length path =? 0) = false) as ->
    by (apply Nat.eqb_neq; lia).
  rewrite Hp0, Hw0, Hroot, Ascii.eqb_refl. cbn [negb orb].
  (* the prefix-matching loop *)
  destruct (match_loop_shared base f w Hcb Hwne Hcw0
              (String.length base) 0 0 (S (String.length path)))
    as (fuel' & Hm1 & Hfuel'); [lia | fold path; lia |].
  fold path wd in Hm1, Hfuel'. rewrite Hm1.
  destruct (segs_head_whole f w1 Hs1 Hw1 Hhead) as [Hfne Hfnp].
  destruct (match_loop_differs w1 (base +:+ String SLASH "") f w2
              (String.length base) fuel')
    as (j & Hj & Hjr & Hjend); try done; [lia|].
  assert (String.length (base +:+ String SLASH "") = S (String.length base))
    as EL by (rewrite str_length_app; simpl; lia).
  assert ((base +:+ String SLASH "") +:+ f = path) as EP
    by (unfold path; by rewrite str_app_assoc).
  assert ((base +:+ String SLASH "") +:+ (w1 +:+ w2) = wd) as EW
    by (unfold wd; by rewrite str_app_assoc, Ew).
  rewrite EP, EW in Hj, Hjend. rewrite EL in Hj, Hjr. rewrite Hj.
  assert ((j =? String.length path) && Ascii.eqb (char_at wd j) SLASH = false)
    as ->.
  { destruct (Nat.eqb_spec j (String.length path)) as [E|E]; [|done].
    apply Hjend in E. by apply Ascii.eqb_neq in E as ->. }
  (* the count of the segments left *)
  assert (count_dotdots (S (String.length wd)) wd j 1 = S (length ws)) as ->.
  { set (b1 := take (j - S (String.length base)) w1).
    set (b2 := drop (j - S (String.length base)) w1).
    assert (w1 = b1 +:+ b2) as E1 by (unfold b1, b2; by rewrite take_drop).
    assert (String.length b1 = j - S (String.length base)) as Hlb1
      by (apply take_length_lt; lia).
    assert (mem SLASH b2 = false ∧ c_string b2) as [Hsb2 Hcb2].
    { rewrite E1 in Hs1, Hc1. rewrite mem_app in Hs1.
      apply orb_false_iff in Hs1 as [_ ?].
      apply c_string_app in Hc1 as [_ ?]. done. }
    set (P := (base +:+ String SLASH "") +:+ b1).
    assert (wd = P +:+ (b2 +:+ w2)) as EW2.
    { rewrite <- EW, E1. unfold P. by rewrite !str_app_assoc. }
    assert (String.length P = j) as HlP
      by (unfold P; rewrite str_length_app, EL, Hlb1; lia).
    assert (String.length wd
            = j + (String.length b2 + String.length w2)) as Hlwd
      by (rewrite EW2, !str_length_app, HlP; lia).
    rewrite EW2, <- HlP. rewrite count_dotdots_skip; try done.
    2:{ rewrite <- EW2, HlP, Hlwd. lia. }
    destruct ws as [|y ws].
    - rewrite Hw20 by done. rewrite !str_app_nil_r.
      cbn [count_dotdots]. rewrite <- str_length_app, char_at_length. done.
    - rewrite Hw21 by done. rewrite <- str_app_assoc, <- str_length_app.
      rewrite count_dotdots_join; try done.
      rewrite <- Hw21 by done. rewrite str_app_assoc, <- EW2, str_length_app.
      rewrite HlP. lia. }
  (* the text of the result *)
  f_equal. unfold path. rewrite drop_app_length.
  cbn [length].
  replace (S (length ws) * 3 - 1) with (length ws * 3 + 2) by lia.
  replace (S (length ws) - 1) with (length ws) by lia.
  exact (put_slashes_fill (length ws) "" (String SLASH f) 0 eq_refl).
Qed.

Lemma make_path_relative_climbs_witness :
  make_path_relative "/proj" "/proj/include/x.h" (Some "/proj/src/lib")
  = Ok "../../include/x.h".
Proof.
  apply (make_path_relative_climbs "/proj" "/proj" "include/x.h"
           ["src"; "lib"]); try done.
  - by repeat constructor.
  - by left + right.
  - by repeat constructor.
Defined.

End PathExtras.

(** ** grpcretry.cpp and remoteexecutionclient.cpp: further properties *)

Module RetryExtras.
Import Cpp Str Grpc StrFacts RetryFacts.
#[local] Arguments String.append !_ _ : simpl nomatch.

Section Scripts.
Context {A W : Type} `{AuthBase A}.
Variable LIMIT DELAY : Z.
Variable rpc : ClientContext → M (proc A W) Status.
#[local] Abbreviation loop := (retry_loop LIMIT DELAY rpc).

Lemma world_attempt_entry (σ : proc A W) :
  world (attempt_entry σ).2 = world σ.
Proof. done. Qed.

Lemma world_log_events (l : list event) (σ : proc A W) :
  world (log_events l σ) = world σ.
Proof. done. Qed.

(** The run of the loop on an RPC that fails [k] times and then
    succeeds, with attempts enough left. *)
Lemma retry_loop_succeeds (count : W → nat) (f : nat → Status) (k : nat) :
  scripted count f rpc →
  ∀ (fuel : nat) (n : Z) (refreshed : bool) (σ : proc A W),
    (∀ j, j < k →
          ok (f (count (world σ) + j)) = false
          ∧ error_code (f (count (world σ) + j)) ≠ UNAUTHENTICATED) →
    ok (f (count (world σ) + k)) = true →
    (n + Z.of_nat k ≤ LIMIT)%Z → k < fuel →
    ∃ σ' t,
      loop fuel n refreshed σ = (Val (Some Returned), σ')
      ∧ trace σ' = trace σ ++ t
      ∧ marks t = run_marks (time_delay DELAY) n k
      ∧ count (world σ') = count (world σ) + k + 1.
Proof.
  intros Hs. induction k as [|k IH]; intros fuel n refreshed σ Hfail Hok Hn Hf;
    (destruct fuel as [|fuel]; [lia|]); rewrite retry_loop_unfold;
    destruct (Hs (attempt_entry σ).1 (attempt_entry σ).2)
      as (σ2 & tr & Hrpc & Hc & Ht & Hm);
    rewrite world_attempt_entry in Hrpc, Hc; rewrite Hrpc.
  - rewrite Nat.add_0_r in Hok. rewrite Hok.
    exists σ2, ([Invoke (attempt_entry σ).1] ++ tr).
    split; [done|]. split; [|split].
    + by rewrite Ht, trace_attempt_entry, <- app_assoc.
    + by rewrite marks_app, Hm.
    + lia.
  - destruct (Hfail 0) as [Hok0 Hcode0]; [lia|].
    rewrite Nat.add_0_r in Hok0, Hcode0. rewrite Hok0.
    apply Z.eqb_neq in Hcode0. rewrite Hcode0. cbn [andb]. cbn zeta.
    assert ((n <? LIMIT)%Z = true) as -> by (apply Z.ltb_lt; lia).
    assert ((n + 1 <? LIMIT + 1)%Z = true) as -> by (apply Z.ltb_lt; lia).
    set (σ3 := log_events _ σ2).
    assert (count (world σ3) = S (count (world σ))) as Hc3 by done.
    edestruct (IH fuel (n + 1)%Z refreshed σ3) as (σ' & t & -> & Ht' & Hm' & Hc').
    + intros j Hj. rewrite Hc3.
      replace (S (count (world σ)) + j) with (count (world σ) + S j) by lia.
      apply Hfail. lia.
    + rewrite Hc3.
      by replace (S (count (world σ)) + k) with (count (world σ) + S k) by lia.
    + lia.
    + lia.
    + exists σ',
        ([Invoke (attempt_entry σ).1] ++ tr
         ++ [LogError (attempt_error_msg LIMIT DELAY n (f (count (world σ))));
             Sleep (time_delay DELAY n)] ++ t).
      split; [done|]. split; [|split].
      * rewrite Ht'. unfold σ3. rewrite trace_log_events, Ht, trace_attempt_entry.
        by rewrite <- !app_assoc.
      * rewrite !marks_app, Hm, Hm'. done.
      * rewrite Hc', Hc3. lia.
Qed.


(** X13.  When the RPC fails k times with statuses other than
    UNAUTHENTICATED and succeeds at the next call, with k at most
    RECC_RETRY_LIMIT (itself less than INT_MAX), [grpc_retry] returns
    normally after exactly k + 1 invocations; as long as the delays of the
    k failed attempts fit an [int], it has slept RECC_RETRY_DELAY * 2^n ms
    after the failed attempt n and not after the successful one.  For
    k = 0: an RPC that succeeds at once is called once, with no wait. *)
Theorem grpc_retry_succeeds_after_failures
    (count : W → nat) (f : nat → Status) (k : nat) (σ : proc A W) :
  scripted count f rpc →
  (∀ j, j < k →
        ok (f (count (world σ) + j)) = false
        ∧ error_code (f (count (world σ) + j)) ≠ UNAUTHENTICATED) →
  ok (f (count (world σ) + k)) = true →
  (Z.of_nat k ≤ LIMIT)%Z → (LIMIT < INT_MAX)%Z →
  ∃ σ' t,
    grpc_retry LIMIT DELAY rpc σ = (Val tt, σ')
    ∧ trace σ' = trace σ ++ t
    ∧ invocations t = k + 1
    ∧ count (world σ') = count (world σ) + k + 1
    ∧ (delays_fit DELAY (Z.of_nat k) → marks t = backoff DELAY 0 k).
Proof.
  intros Hs Hfail Hok Hk _. rewrite grpc_retry_unfold.
  destruct (retry_loop_succeeds count f k Hs (retry_fuel LIMIT) 0 false σ)
    as (σ' & t & -> & Ht & Hm & Hc); try done; try lia;
    try (unfold retry_fuel; lia).
  exists σ', t. split; [done|]. split; [done|]. split; [|split; [done|]].
  - rewrite invocations_marks, Hm, attempts_run_marks. lia.
  - intros Hfit. rewrite Hm. by apply run_marks_backoff.
Qed.


End Scripts.

Lemma scripted_rpc_scripted (status : Status) (failures : nat) :
  scripted (λ w : nat, w)
           (λ k, if k <? failures then status else Status_default)
           (scripted_rpc status failures).
Proof. intros ctx σ. exists (set_world (S (world σ)) σ), []. by rewrite app_nil_r. Qed.

Lemma grpc_retry_succeeds_after_failures_witness :
  ∃ σ' t,
    grpc_retry 3 10 (scripted_rpc UNAVAILABLE_down 2) (fresh_process None)
    = (Val tt, σ')
    ∧ trace σ' = trace (fresh_process None) ++ t
    ∧ invocations t = 3
    ∧ world σ' = 3
    ∧ marks t = [Attempt; Wait 10; Attempt; Wait 20; Attempt].
Proof.
  destruct (grpc_retry_succeeds_after_failures 3 10
              (scripted_rpc UNAVAILABLE_down 2) (λ w : nat, w)
              (λ k, if k <? 2 then UNAVAILABLE_down else Status_default)
              2 (fresh_process None))
    as (σ' & t & Hr & Ht & Hn & Hc & Hm).
  - apply scripted_rpc_scripted.
  - intros j Hj. simpl. by destruct j as [|[|j]]; [..|lia].
  - reflexivity.
  - lia.
  - by vm_compute.
  - exists σ', t. split; [exact Hr|]. split; [exact Ht|].
    split; [exact Hn|]. split; [exact Hc|]. apply Hm.
    apply delays_fit_last; [lia | lia | by vm_compute].
Defined.



End RetryExtras.

Module ContextExtras.
Import Cpp Str Grpc StrFacts RetryFacts.
#[local] Arguments String.append !_ _ : simpl nomatch.

Lemma invoked_app (t1 t2 : list event) :
  invoked (t1 ++ t2) = invoked t1 ++ invoked t2.
Proof. apply omap_app. Qed.

Lemma invoked_unmarked (t : list event) : marks t = [] → invoked t = [].
Proof.
  induction t as [|e t IH]; [done|]. destruct e; cbn; try done; apply IH.
Qed.

Section Contexts.
Context {A W : Type} `{AuthBase A}.
Variable LIMIT DELAY : Z.
Variable rpc : ClientContext → M (proc A W) Status.

(** The contexts of the attempts of one run of the loop. *)
Lemma retry_loop_contexts (fuel : nat) :
  quiet rpc →
  (∀ ctx σ, grpcContext (rpc ctx σ).2 = grpcContext σ
            ∧ allocated σ ≤ allocated (rpc ctx σ).2) →
  ∀ (n : Z) (refreshed : bool) (σ : proc A W),
    let σ' := (retry_loop LIMIT DELAY rpc fuel n refreshed σ).2 in
    ∃ t,
      trace σ' = trace σ ++ t
      ∧ grpcContext σ' = grpcContext σ
      ∧ allocated σ ≤ allocated σ'
      ∧ Forall (λ c, credentials c
                     = get_access_token <$> d_authSession (grpcContext σ)
                     ∧ request_metadata c = d_action_id (grpcContext σ)
                     ∧ allocated σ ≤ ctx_id c < allocated σ')
               (invoked t)
      ∧ NoDup (ctx_id <$> invoked t).
Proof.
  intros Hq Hsteady.
  induction fuel as [|fuel IH]; intros n refreshed σ; cbn zeta.
  { exists []. rewrite app_nil_r. repeat split; try done; constructor. }
  rewrite retry_loop_unfold.
  destruct (Hq (attempt_entry σ).1 (attempt_entry σ).2) as (tr & Ht & Hm).
  destruct (Hsteady (attempt_entry σ).1 (attempt_entry σ).2) as [Hg Ha].
  rewrite trace_attempt_entry in Ht.
  change (grpcContext (attempt_entry σ).2) with (grpcContext σ) in Hg.
  change (allocated (attempt_entry σ).2) with (S (allocated σ)) in Ha.
  change (attempt_entry σ).1 with (fresh_context σ) in *.
  assert (∀ σ2 : proc A W,
             trace σ2 = (trace σ ++ [Invoke (fresh_context σ)]) ++ tr →
             grpcContext σ2 = grpcContext σ →
             S (allocated σ) ≤ allocated σ2 →
             ∃ t,
               trace σ2 = trace σ ++ t
               ∧ grpcContext σ2 = grpcContext σ
               ∧ allocated σ ≤ allocated σ2
               ∧ Forall (λ c, credentials c
                              = get_access_token
                                  <$> d_authSession (grpcContext σ)
                              ∧ request_metadata c
                                = d_action_id (grpcContext σ)
                              ∧ allocated σ ≤ ctx_id c < allocated σ2)
                        (invoked t)
               ∧ NoDup (ctx_id <$> invoked t)) as Hstop.
  { intros σ2 Ht2 Hg2 Ha2. exists ([Invoke (fresh_context σ)] ++ tr).
    rewrite invoked_app, (invoked_unmarked tr Hm), app_nil_r.
    split; [by rewrite Ht2, <- app_assoc|]. split; [done|]. split; [lia|].
    split.
    - apply Forall_singleton. cbn. repeat split; lia.
    - cbn. apply NoDup_singleton. }
  assert (∀ (σ3 : proc A W) n' refreshed',
             (∃ l, trace σ3
                   = ((trace σ ++ [Invoke (fresh_context σ)]) ++ tr) ++ l
                   ∧ invoked l = []) →
             grpcContext σ3 = grpcContext σ →
             S (allocated σ) ≤ allocated σ3 →
             let σ' := (retry_loop LIMIT DELAY rpc fuel n' refreshed' σ3).2 in
             ∃ t,
               trace σ' = trace σ ++ t
               ∧ grpcContext σ' = grpcContext σ
               ∧ allocated σ ≤ allocated σ'
               ∧ Forall (λ c, credentials c
                              = get_access_token
                                  <$> d_authSession (grpcContext σ)
                              ∧ request_metadata c
                                = d_action_id (grpcContext σ)
                              ∧ allocated σ ≤ ctx_id c < allocated σ')
                        (invoked t)
               ∧ NoDup (ctx_id <$> invoked t)) as Hgo.
  { intros σ3 n' refreshed' (l & Ht3 & Hl) Hg3 Ha3. cbn zeta.
    destruct (IH n' refreshed' σ3) as (t & Ht' & Hg' & Ha' & Hall & Hsort).
    exists ([Invoke (fresh_context σ)] ++ tr ++ l ++ t).
    rewrite !invoked_app, (invoked_unmarked tr Hm), Hl.
    cbn [app]. split; [by rewrite Ht', Ht3, <- !app_assoc|].
    split; [congruence|]. split; [lia|]. split.
    - cbn. apply Forall_cons. split; [cbn; repeat split; lia|].
      eapply Forall_impl; [exact Hall|]. intros c (Hc & Hmd & Hid).
      rewrite Hg3 in Hc, Hmd. repeat split; try done; lia.
    - cbn. constructor; [|done].
      intros (c & Hid & Hin)%list_elem_of_fmap.
      eapply Forall_forall in Hall; [|exact Hin].
      destruct Hall as (_ & _ & Hc). cbn in Hid. lia. }
  destruct (rpc (fresh_context σ) (attempt_entry σ).2)
    as [[status| | |] σ2]; cbn [snd] in *; try (by apply Hstop).
  destruct (ok status); [by apply Hstop|].
  destruct ((error_code status =? UNAUTHENTICATED)%Z && negb refreshed).
  - destruct (n <? LIMIT + 1)%Z; [|by apply Hstop].
    apply Hgo; try done. exists []. by rewrite app_nil_r.
  - cbn zeta. destruct (n <? LIMIT)%Z.
    + destruct (n + 1 <? LIMIT + 1)%Z.
      * apply Hgo; [|exact Hg|exact Ha].
        exists [LogError (attempt_error_msg LIMIT DELAY n status);
                Sleep (time_delay DELAY n)].
        by rewrite trace_log_events, Ht.
      * cbn [snd].
        destruct (Hstop σ2 Ht Hg Ha) as (t & Ht' & Hg' & Ha' & Hall & Hs).
        exists (t ++ [LogError (attempt_error_msg LIMIT DELAY n status);
                      Sleep (time_delay DELAY n)]).
        rewrite trace_log_events, Ht', invoked_app, app_nil_r, <- app_assoc.
        done.
    + destruct (n + 1 <? LIMIT + 1)%Z; [|by apply Hstop].
      apply Hgo; try done. exists []. by rewrite app_nil_r.
Qed.

(** X15.  Every attempt of [grpc_retry] is made on a client context of its
    own, built at the time of the attempt: the contexts of the attempts
    have pairwise different identities, all new, and each carries the access token
    of the session and the action id of the GrpcContext (for an RPC that
    leaves the GrpcContext alone and gives no context back). *)
Theorem grpc_retry_contexts (σ : proc A W) :
  quiet rpc →
  (∀ ctx σ, grpcContext (rpc ctx σ).2 = grpcContext σ
            ∧ allocated σ ≤ allocated (rpc ctx σ).2) →
  let σ' := (grpc_retry LIMIT DELAY rpc σ).2 in
  ∃ t,
    trace σ' = trace σ ++ t
    ∧ Forall (λ c, credentials c
                   = get_access_token <$> d_authSession (grpcContext σ)
                   ∧ request_metadata c = d_action_id (grpcContext σ)
                   ∧ allocated σ ≤ ctx_id c < allocated σ')
             (invoked t)
    ∧ NoDup (ctx_id <$> invoked t).
Proof.
  intros Hq Hsteady. cbn zeta.
  destruct (retry_loop_contexts (retry_fuel LIMIT) Hq Hsteady 0 false σ)
    as (t & Ht & _ & _ & Hall & Hsort).
  assert ((grpc_retry LIMIT DELAY rpc σ).2
          = (retry_loop LIMIT DELAY rpc (retry_fuel LIMIT) 0 false σ).2) as ->.
  { rewrite grpc_retry_unfold.
    by destruct (retry_loop LIMIT DELAY rpc _ _ _ _)
         as [[[[|status]|]| | |] σ']. }
  by exists t.
Qed.

(** X16.  A client context reflects the GrpcContext as it is when the
    context is made: after [set_auth] and [set_action_id] it carries the
    access token of the new session (none for a null session) and the new
    action id; after [auth_refresh] it carries the refreshed token; and
    [auth_refresh] without a session throws "An AuthSession was not set"
    and changes nothing. *)
Theorem new_client_context_reflects_settings :
  (∀ (authSession : option A) (action_id : string) (σ : proc A W),
      ∃ σ',
        (set_auth authSession;; set_action_id action_id;;
         new_client_context) σ
        = (Val {| ctx_id := allocated σ;
                  credentials := get_access_token <$> authSession;
                  request_metadata := action_id |}, σ')
        ∧ allocated σ' = S (allocated σ) ∧ trace σ' = trace σ)
  ∧ (∀ (a : A) (σ : proc A W),
        ∃ σ',
          (set_auth (Some a);; auth_refresh;; new_client_context) σ
          = (Val {| ctx_id := allocated σ;
                    credentials :=
                      Some (get_access_token (refresh_current_token a));
                    request_metadata := d_action_id (grpcContext σ) |}, σ')
          ∧ refreshes (trace σ') = S (refreshes (trace σ)))
  ∧ (∀ σ : proc A W,
        d_authSession (grpcContext σ) = None →
        auth_refresh σ
        = (Exc (runtime_error "An AuthSession was not set"), σ)).
Proof.
  split; [|split].
  - intros authSession action_id σ. eexists. split; [reflexivity|]. done.
  - intros a σ. eexists. split; [reflexivity|].
    cbn [trace log_events set_allocated set_grpcContext].
    rewrite refreshes_app, refreshes_cons. cbn. lia.
  - intros σ Hnone. unfold auth_refresh. munfold. by rewrite Hnone.
Qed.

End Contexts.

Lemma grpc_retry_contexts_witness :
  let σ := fresh_process (Some 7) in
  let σ' := (grpc_retry 1 10 (failing_rpc UNAVAILABLE_down) σ).2 in
  ∃ t,
    trace σ' = trace σ ++ t
    ∧ Forall (λ c, credentials c = Some "7"
                   ∧ request_metadata c = "action"
                   ∧ 0 ≤ ctx_id c < allocated σ')
             (invoked t)
    ∧ NoDup (ctx_id <$> invoked t).
Proof.
  intros σ σ'.
  refine (grpc_retry_contexts 1 10 (failing_rpc UNAVAILABLE_down)
            (fresh_process (Some 7)) _ _).
  - intros ctx σ0. exists []. by rewrite app_nil_r.
  - intros ctx σ0. split; [done | cbn; lia].
Defined.

Lemma new_client_context_reflects_settings_witness :
  auth_refresh (fresh_process None)
  = (Exc (runtime_error "An AuthSession was not set"), fresh_process None).
Proof.
  apply (proj2 (proj2 new_client_context_reflects_settings)
           (fresh_process None)).
  reflexivity.
Defined.

End ContextExtras.

Module ClientExtras.
Import Cpp Str Grpc Proto RemoteExecution StrFacts RetryFacts ClientFacts
       ResultFacts.
#[local] Arguments String.append !_ _ : simpl nomatch.
#[local] Arguments grpc_retry : simpl never.

(** *** The reader thread *)

Lemma reader_after_find (msgs : list Operation) :
  ∀ (k : nat) (op : Operation),
    length msgs < k →
    (reader_after k msgs op).1
    = match find op_done msgs with
      | Some m => m
      | None => default op (last msgs)
      end.
Proof.
  induction msgs as [|m msgs IH]; intros k op Hk;
    (destruct k as [|k]; [simpl in Hk; lia|]); [done|].
  simpl. destruct (op_done m) eqn:E; [done|].
  rewrite IH by (simpl in Hk; lia).
  destruct (find op_done msgs); [done|].
  rewrite last_cons. by destruct (last msgs).
Qed.

(** X17.  The reader thread stops at the first finished Operation: what
    [read_operation_async] leaves in the Operation is the first message of
    the stream that is done, whatever follows it; when no message is done
    it is the last message read, and the Operation is untouched when the
    stream is empty. *)
Theorem read_operation_async_first_done
    (msgs : list Operation) (op : Operation) :
  read_operation_async msgs op
  = match find op_done msgs with
    | Some m => m
    | None => default op (last msgs)
    end.
Proof. unfold read_operation_async. apply reader_after_find. lia. Qed.

(** *** The output files of a result *)

Lemma foldl_insert_last (l : list OutputFile) (p : string) :
  foldl (λ m f, <[of_path f := (of_digest f, of_is_executable f)]> m)
        (∅ : gmap string (Digest * bool)) l !! p
  = (λ f, (of_digest f, of_is_executable f))
      <$> last (filter (λ f, of_path f = p) l).
Proof.
  induction l as [|x l IH] using rev_ind; [done|].
  rewrite foldl_app, filter_app. simpl.
  destruct (decide (of_path x = p)) as [E|E].
  - rewrite filter_cons_True by done. rewrite filter_nil, last_snoc.
    rewrite E. by rewrite lookup_insert_eq.
  - rewrite filter_cons_False by done. rewrite filter_nil, app_nil_r.
    by rewrite lookup_insert_ne.
Qed.

Lemma add_files_other (fs : list FileNode) (prefix key : string)
    (m : gmap string (Digest * bool)) :
  take (String.length prefix) key ≠ prefix →
  add_files m fs prefix !! key = m !! key.
Proof.
  intros Hk. unfold add_files. revert m.
  induction fs as [|f fs IH]; intros m; [done|]. simpl. rewrite IH.
  apply lookup_insert_ne. intros <-. apply Hk. apply take_app_length.
Qed.

Lemma take_app_prefix (a b key : string) :
  take (String.length (a +:+ b)) key = a +:+ b →
  take (String.length a) key = a.
Proof.
  revert key. induction a as [|c a IH]; intros key Hp; [done|].
  destruct key as [|c' key]; [done|]. simpl in Hp |- *.
  injection Hp as -> Hp. f_equal. by apply IH.
Qed.

Lemma foldl_failed {X Y} (f : option (result X) → Y → option (result X))
    (l : list Y) (acc : option (result X)) :
  (∀ a y, (∀ m, a ≠ Some (Ok m)) → f a y = a) →
  (∀ m, acc ≠ Some (Ok m)) → foldl f acc l = acc.
Proof.
  intros Hf. revert acc. induction l as [|y l IH]; intros acc Hacc; [done|].
  simpl. rewrite Hf by done. by apply IH.
Qed.

(** X18.  [add_from_directory] writes below its prefix only: when it
    returns, every entry of [outputFiles] whose path does not start with
    the prefix is as it was before the call. *)
Theorem add_from_directory_below_prefix (fuel : nat) :
  ∀ (outputFiles m' : gmap string (Digest * bool)) (directory : Directory)
    (prefix : string) (digestMap : gmap Digest Directory),
    add_from_directory fuel outputFiles directory prefix digestMap
    = Some (Ok m') →
    ∀ key : string,
      take (String.length prefix) key ≠ prefix →
      m' !! key = outputFiles !! key.
Proof.
  induction fuel as [|fuel IH];
    intros outputFiles m' directory prefix digestMap Hr key Hk; [done|].
  cbn [add_from_directory] in Hr.
  rewrite <- (add_files_other (files directory) prefix key outputFiles Hk).
  revert Hr. generalize (add_files outputFiles (files directory) prefix).
  induction (directories directory) as [|d ds IHd]; intros m0 Hr.
  - simpl in Hr. by injection Hr as ->.
  - simpl in Hr.
    destruct (digestMap !! dn_digest d) as [subdirectory|] eqn:Ed.
    + destruct (add_from_directory fuel m0 subdirectory
                  (prefix +:+ dn_name d +:+ "/") digestMap)
        as [[m1|e]|] eqn:Esub.
      * rewrite (IHd m1 Hr).
        apply (IH _ _ _ _ _ Esub).
        intros Hp. apply Hk. by apply take_app_prefix in Hp.
      * rewrite foldl_failed in Hr; [done| |done].
        intros a y Ha. by destruct a as [[m2|e2]|]; [destruct (Ha m2)|..].
      * rewrite foldl_failed in Hr; [done| |done].
        intros a y Ha. by destruct a as [[m2|e2]|]; [destruct (Ha m2)|..].
    + rewrite foldl_failed in Hr; [done| |done].
      intros a y Ha. by destruct a as [[m2|e2]|]; [destruct (Ha m2)|..].
Qed.

Lemma add_from_directory_below_prefix_witness :
  let sub := {| files := [{| fn_name := "b.o";
                            fn_digest := {| hash := "bb"; size_bytes := 2 |};
                            fn_is_executable := false |}];
                directories := [] |} in
  let top := {| files := [{| fn_name := "a.o";
                            fn_digest := {| hash := "aa"; size_bytes := 1 |};
                            fn_is_executable := true |}];
                directories := [{| dn_name := "lib";
                                   dn_digest := size_digest sub |}] |} in
  let before : gmap string (Digest * bool) :=
    {[ "hello.o" := ({| hash := "0a"; size_bytes := 1234 |}, false) ]} in
  let after :=
    add_files (add_files before (files top) "out/") (files sub) "out/lib/" in
  add_from_directory 2 before top "out/" {[ size_digest sub := sub ]}
  = Some (Ok after)
  ∧ after !! "hello.o" = before !! "hello.o".
Proof.
  intros sub top before after.
  assert (add_from_directory 2 before top "out/" {[ size_digest sub := sub ]}
          = Some (Ok after)) as E by (vm_compute; reflexivity).
  split; [exact E|].
  apply (add_from_directory_below_prefix 2 before after top "out/"
           {[ size_digest sub := sub ]} E "hello.o").
  done.
Defined.

(** X19.  A subdirectory whose digest is not in [digestMap] makes
    [add_from_directory] fail: the result is never a map, and it is the
    [out_of_range] error of [unordered_map::at] when the missing one is
    the first subdirectory. *)
Theorem add_from_directory_missing_digest :
  (∀ (fuel : nat) (outputFiles : gmap string (Digest * bool))
     (directory : Directory) (prefix : string)
     (digestMap : gmap Digest Directory) (d : DirectoryNode),
      d ∈ directories directory → digestMap !! dn_digest d = None →
      ∀ m', add_from_directory fuel outputFiles directory prefix digestMap
            ≠ Some (Ok m'))
  ∧ (∀ (fuel : nat) (outputFiles : gmap string (Digest * bool))
       (directory : Directory) (prefix : string)
       (digestMap : gmap Digest Directory) (d : DirectoryNode)
       (ds : list DirectoryNode),
        directories directory = d :: ds →
        digestMap !! dn_digest d = None →
        add_from_directory (S fuel) outputFiles directory prefix digestMap
        = Some (Throw (out_of_range "unordered_map::at"))).
Proof.
  split.
  - intros fuel outputFiles directory prefix digestMap d Hin Hd m'.
    destruct fuel as [|fuel]; [done|]. cbn [add_from_directory].
    revert Hin.
    generalize (Some (Ok (add_files outputFiles (files directory) prefix))).
    generalize (directories directory). intros l.
    induction l as [|x l IH]; intros acc Hin; [by inversion Hin|].
    simpl. apply elem_of_cons in Hin as [<-|Hin]; [|by apply IH].
    rewrite foldl_failed.
    + destruct acc as [[m|e]|]; [by rewrite Hd|done..].
    + intros a y Ha. by destruct a as [[m2|e2]|]; [destruct (Ha m2)|..].
    + intros m. destruct acc as [[m0|e]|]; [by rewrite Hd|done..].
  - intros fuel outputFiles directory prefix digestMap d ds Hdir Hd.
    cbn [add_from_directory]. rewrite Hdir. simpl. rewrite Hd.
    apply foldl_failed; [|done].
    intros a y Ha. by destruct a as [[m2|e2]|]; [destruct (Ha m2)|..].
Qed.

Lemma add_from_directory_missing_digest_witness :
  add_from_directory 3 ∅
    {| files := [];
       directories := [{| dn_name := "lib";
                          dn_digest := {| hash := "dd"; size_bytes := 7 |} |}] |}
    "out/" ∅
  = Some (Throw (out_of_range "unordered_map::at")).
Proof.
  destruct add_from_directory_missing_digest as [_ Hfirst].
  eapply Hfirst; reflexivity.
Defined.

Section Client.
Context {A Srv : Type} `{AuthBase A}.
Variable Execute :
  ClientContext → ExecuteRequest → Srv → ExecuteStream * Srv.
Variable CancelOperation : ClientContext → string → Srv → Status * Srv.
Variable fetch_message_Tree :
  Digest → M (proc A (client_world (Srv := Srv))) Tree.
Variable make_digest : Directory → Digest.
Variable parse_ExecuteResponse : string → option ExecuteResponse.
Variable ensure_ok_what : RpcStatus → string.
Variable d_instanceName : string.
Variable LIMIT DELAY : Z.

#[local] Abbreviation St := (proc A (client_world (Srv := Srv))).
#[local] Abbreviation decode :=
  (from_proto (Srv := Srv) fetch_message_Tree make_digest).
#[local] Abbreviation execute :=
  (execute_action Execute CancelOperation fetch_message_Tree make_digest
     parse_ExecuteResponse ensure_ok_what d_instanceName LIMIT DELAY).

(** X20.  When two output files of a result have the same path, the later
    one wins: [from_proto] maps every path to the digest and the
    executable bit of the last output file with that path, and to nothing
    when no output file has it (for a result without output directories,
    which needs no CAS fetch and leaves the state as it is). *)
Theorem from_proto_last_output_file_wins
    (proto : Proto.ActionResult) (σ : St) :
  output_directories proto = [] →
  ∃ r,
    decode proto σ = (Val r, σ)
    ∧ d_exitCode r = exit_code proto
    ∧ ∀ p : string,
        d_outputFiles r !! p
        = (λ f, (of_digest f, of_is_executable f))
            <$> last (filter (λ f, of_path f = p) (output_files proto)).
Proof.
  intros Hd. eexists. split; [by apply from_proto_files_only|].
  split; [done|]. intros p. apply foldl_insert_last.
Qed.

(** X21.  [cancel_operation] never fails: whatever status the server
    answers, it returns normally, having sent exactly one CancelOperation
    request, for the given name on a client context of its own, and having
    made no attempt, wait or auth refresh. *)
Theorem cancel_operation_never_fails (operationName : string) (σ : St) :
  ∃ σ' t,
    cancel_operation CancelOperation operationName σ = (Val tt, σ')
    ∧ trace σ' = trace σ ++ t
    ∧ cancel_requests t = [(fresh_context σ, operationName)]
    ∧ marks t = [] ∧ refreshes t = 0
    ∧ allocated σ' = S (allocated σ)
    ∧ srv (world σ')
      = (CancelOperation (fresh_context σ) operationName (srv (world σ))).2.
Proof.
  unfold cancel_operation. cunfold.
  change {| ctx_id := allocated σ;
            credentials := get_access_token <$> d_authSession (grpcContext σ);
            request_metadata := d_action_id (grpcContext σ) |}
    with (fresh_context σ).
  destruct (CancelOperation _ _ _) as [s srv'] eqn:E. cbn.
  destruct (ok s); cbn; eexists _, _;
    (split; [reflexivity|]); cbn; rewrite <- app_assoc;
    (split; [reflexivity|]); done.
Qed.

Lemma add_output_directories_invocations
    (l : list OutputDirectory) :
  (∀ d (σ : St), invocations (trace (fetch_message_Tree d σ).2)
                 = invocations (trace σ)) →
  ∀ (m : gmap string (Digest * bool)) (σ : St),
    invocations
      (trace (add_output_directories fetch_message_Tree make_digest m l σ).2)
    = invocations (trace σ).
Proof.
  intros Hf. induction l as [|d l IH]; intros m σ; [done|].
  cbn [add_output_directories]. unfold mbind, M_bind, bind.
  unfold add_output_directory at 1. unfold mbind, M_bind, bind.
  specialize (Hf (od_tree_digest d) σ).
  destruct (fetch_message_Tree (od_tree_digest d) σ) as [[tree| | |] σ1];
    cbn [snd] in Hf; try done.
  destruct (add_from_directory _ _ _ _ _) as [[m1|e]|]; cbn; try done.
  by rewrite IH.
Qed.

Lemma from_proto_invocations (proto : Proto.ActionResult) (σ : St) :
  (∀ d (σ : St), invocations (trace (fetch_message_Tree d σ).2)
                 = invocations (trace σ)) →
  invocations (trace (decode proto σ).2) = invocations (trace σ).
Proof.
  intros Hf. unfold from_proto. unfold mbind, M_bind, bind.
  pose proof (add_output_directories_invocations
                (output_directories proto) Hf
                (foldl (λ m f, <[of_path f :=
                                   (of_digest f, of_is_executable f)]> m)
                       ∅ (output_files proto)) σ) as Hd.
  destruct (add_output_directories _ _ _ _ _) as [[m| | |] σ1]; done.
Qed.

(** X22.  One call of [execute_action] opens at most
    max(RECC_RETRY_LIMIT, 0) + 2 Execute streams, whatever the server
    answers and whenever the user interrupts, as long as the CAS fetches of
    the result decoding make no Execute attempt themselves. *)
Theorem execute_action_attempts_bounded
    (actionDigest : Digest) (skipCache : bool) (σ : St) :
  (∀ d (σ : St), invocations (trace (fetch_message_Tree d σ).2)
                 = invocations (trace σ)) →
  invocations (trace (execute actionDigest skipCache σ).2)
  ≤ invocations (trace σ) + Z.to_nat LIMIT + 2.
Proof.
  intros Hf. unfold execute_action.
  set (req := {| instance_name := d_instanceName;
                 action_digest := actionDigest;
                 skip_cache_lookup := skipCache |}).
  unfold modify_world, modify. unfold mbind at 1 2. unfold M_bind, bind.
  set (σ0 := set_world _ σ).
  pose proof (retry_loop_bound LIMIT DELAY
                (execute_lambda Execute CancelOperation req)
                (retry_fuel LIMIT) 0 false σ0
                (proj1 (execute_lambda_quiet Execute CancelOperation req)))
    as Hb.
  rewrite <- grpc_retry_trace in Hb.
  change (trace σ0) with (trace σ) in Hb.
  assert (invocations
            (trace (grpc_retry LIMIT DELAY
                      (execute_lambda Execute CancelOperation req) σ0).2)
          ≤ invocations (trace σ) + Z.to_nat LIMIT + 2) as Hb' by lia.
  clear Hb.
  destruct (grpc_retry LIMIT DELAY _ σ0) as [[[]| | |] σ1]; cbn [snd] in *;
    try done.
  unfold mbind, M_bind, bind, gets. cbn [fst snd].
  destruct (operation_ptr (world σ1)) as [operation|]; [|done].
  destruct (op_done operation); cbn [negb]; [|done].
  unfold lift.
  destruct (get_actionresult parse_ExecuteResponse ensure_ok_what operation)
    as [resultProto|e]; [|done].
  unfold ret. by rewrite from_proto_invocations.
Qed.

End Client.

Lemma from_proto_last_output_file_wins_witness :
  let twice :=
    {| exit_code := 0;
       stdout_raw := ""; stdout_digest := {| hash := ""; size_bytes := 0 |};
       stderr_raw := ""; stderr_digest := {| hash := ""; size_bytes := 0 |};
       output_files :=
         [{| of_path := "a.o";
             of_digest := {| hash := "01"; size_bytes := 1 |};
             of_is_executable := false |};
          {| of_path := "a.o";
             of_digest := {| hash := "02"; size_bytes := 2 |};
             of_is_executable := true |}];
       output_directories := [] |} in
  ∃ r,
    from_proto no_Tree size_digest twice (client_process [])
    = (Val r, client_process [])
    ∧ d_exitCode r = 0%Z
    ∧ ∀ p : string,
        d_outputFiles r !! p
        = (λ f, (of_digest f, of_is_executable f))
            <$> last (filter (λ f, of_path f = p) (output_files twice)).
Proof.
  intros twice.
  apply (from_proto_last_output_file_wins no_Tree size_digest twice
           (client_process [])).
  reflexivity.
Defined.

Lemma execute_action_attempts_bounded_witness :
  invocations
    (trace (execute_action (scripted_Execute [not_done_stream])
              (fixed_CancelOperation Status_default) no_Tree size_digest
              (parse_one "payload" response_exit_0) ensure_ok_text "inst" 2 10
              action_digest_1 false (client_process [])).2)
  ≤ invocations (trace (client_process [])) + Z.to_nat 2 + 2.
Proof.
  apply (execute_action_attempts_bounded
           (scripted_Execute [not_done_stream])
           (fixed_CancelOperation Status_default) no_Tree size_digest
           (parse_one "payload" response_exit_0) ensure_ok_text "inst" 2 10
           action_digest_1 false (client_process [])).
  intros d σ. reflexivity.
Defined.

Section Uninterrupted.
Context {A Srv : Type} `{AuthBase A}.
Variable Execute :
  ClientContext → ExecuteRequest → Srv → ExecuteStream * Srv.
Variable CancelOperation : ClientContext → string → Srv → Status * Srv.
Variable fetch_message_Tree :
  Digest → M (proc A (client_world (Srv := Srv))) Tree.
Variable make_digest : Directory → Digest.
Variable parse_ExecuteResponse : string → option ExecuteResponse.
Variable ensure_ok_what : RpcStatus → string.
Variable d_instanceName : string.
Variable LIMIT DELAY : Z.

#[local] Abbreviation St := (proc A (client_world (Srv := Srv))).
#[local] Abbreviation get_result :=
  (get_actionresult parse_ExecuteResponse ensure_ok_what).
#[local] Abbreviation decode :=
  (from_proto (Srv := Srv) fetch_message_Tree make_digest).
#[local] Abbreviation execute :=
  (execute_action Execute CancelOperation fetch_message_Tree make_digest
     parse_ExecuteResponse ensure_ok_what d_instanceName LIMIT DELAY).

Lemma poll_loop_no_sigint
    (polls : list poll) (msgs : list Operation) (op0 : Operation) (σ : St) :
  Forall (λ q, sigint_received q = false) polls →
  ∃ rest,
    poll_loop CancelOperation polls msgs op0 σ
    = (Val tt,
       set_world (set_operation_ptr (Some (read_operation_async msgs op0))
                                    (set_schedule rest (world σ))) σ).
Proof.
  intros Hpolls. revert σ.
  induction Hpolls as [|p polls Hp _ IH]; intros σ.
  - exists []. reflexivity.
  - cbn [poll_loop].
    destruct (reader_after (reads_done p) msgs op0) as [op ready] eqn:E.
    rewrite Hp. destruct ready.
    + exists polls. cunfold. do 3 f_equal. f_equal.
      by eapply reader_after_ready.
    + cunfold.
      match goal with
      | |- context [poll_loop _ _ _ _ ?s] => destruct (IH s) as [rest ->]
      end.
      by exists rest.
Qed.

(** X23.  Without a SIGINT the polling loop of [read_operation] cancels
    nothing and ends nothing: it returns normally once the reader thread
    is through, with the Operation the reader ended on, and the only
    things it has changed are that Operation and the polls used up; no
    request is sent and no client context made. *)
Theorem poll_loop_without_sigint
    (polls : list poll) (msgs : list Operation) (op0 : Operation) (σ : St) :
  Forall (λ q, sigint_received q = false) polls →
  ∃ rest,
    poll_loop CancelOperation polls msgs op0 σ
    = (Val tt,
       set_world (set_operation_ptr (Some (read_operation_async msgs op0))
                                    (set_schedule rest (world σ))) σ).
Proof. apply poll_loop_no_sigint. Qed.

(** X24.  One attempt is enough when the stream closes with OK and no
    SIGINT comes: [execute_action] then calls Execute exactly once, on a
    client context of the session, and its outcome is decided by the
    Operation the stream ended on: the error "Server closed stream before
    Operation finished" when that is not done, the decoded result of
    [get_actionresult] when it is. *)
Theorem execute_action_single_attempt
    (actionDigest : Digest) (skipCache : bool) (σ : St) :
  let req := {| instance_name := d_instanceName;
                action_digest := actionDigest;
                skip_cache_lookup := skipCache |} in
  let reply := Execute (fresh_context σ) req (srv (world σ)) in
  let operation :=
    read_operation_async (messages reply.1) Operation_default in
  Forall (λ q, sigint_received q = false) (schedule (world σ)) →
  ok (finish reply.1) = true →
  ∃ σ1,
    trace σ1 = trace σ ++ [Invoke (fresh_context σ)]
    ∧ allocated σ1 = S (allocated σ)
    ∧ srv (world σ1) = reply.2
    ∧ execute actionDigest skipCache σ
      = if op_done operation
        then (lift (get_result operation) ≫= decode) σ1
        else (Exc (runtime_error
                     "Server closed stream before Operation finished"), σ1).
Proof.
  intros req reply operation Hpolls Hok.
  unfold execute_action. fold req.
  unfold modify_world, modify. unfold mbind at 1 2. unfold M_bind, bind.
  set (σ0 := set_world _ σ).
  assert (∃ rest,
             execute_lambda Execute CancelOperation req
               (attempt_entry σ0).1 (attempt_entry σ0).2
             = (Val (finish reply.1),
                set_world
                  {| srv := reply.2; schedule := rest;
                     reader_ptr := Some reply.1;
                     operation_ptr := Some operation |}
                  (attempt_entry σ0).2)) as [rest Hl].
  { unfold execute_lambda, read_operation. cunfold.
    change (fresh_context σ0) with (fresh_context σ).
    fold reply. unfold operation.
    destruct reply as [stream srv'] eqn:E. cbn [fst snd].
    match goal with
    | |- context [poll_loop _ ?l ?m ?o ?s] =>
        destruct (poll_loop_no_sigint l m o s Hpolls) as [rest ->]
    end.
    exists rest. reflexivity. }
  rewrite grpc_retry_unfold. unfold retry_fuel. rewrite retry_loop_unfold.
  rewrite Hl, Hok. clearbody operation.
  eexists. split; [|split; [|split]];
    [| | |unfold mbind at 1; unfold M_bind, bind, gets; cbn [fst snd];
          cbn [world set_world operation_ptr];
          destruct (op_done operation); reflexivity].
  - reflexivity.
  - reflexivity.
  - reflexivity.
Qed.

End Uninterrupted.

Lemma poll_loop_without_sigint_witness :
  ∃ rest,
    poll_loop (fixed_CancelOperation UNAVAILABLE_down)
      [{| reads_done := 0; sigint_received := false |};
       {| reads_done := 1; sigint_received := false |};
       {| reads_done := 1; sigint_received := false |}]
      [done_operation] Operation_default (client_process [])
    = (Val tt,
       set_world (set_operation_ptr (Some done_operation)
                    (set_schedule rest (world (client_process []))))
                 (client_process [])).
Proof.
  apply (poll_loop_without_sigint (fixed_CancelOperation UNAVAILABLE_down)
           _ [done_operation] Operation_default (client_process [])).
  by repeat constructor.
Defined.

Lemma execute_action_single_attempt_witness :
  ∃ σ1,
    trace σ1
    = [Invoke {| ctx_id := 0; credentials := Some "0";
                 request_metadata := "action" |}]
    ∧ allocated σ1 = 1
    ∧ srv (world σ1) = 1
    ∧ execute_action
        (scripted_Execute
           [{| messages := [done_operation]; finish := Status_default |}])
        (fixed_CancelOperation Status_default) no_Tree size_digest
        (parse_one "payload" response_exit_0) ensure_ok_text "inst" 2 10
        action_digest_1 false (client_process [])
      = (lift (get_actionresult (parse_one "payload" response_exit_0)
                 ensure_ok_text done_operation)
           ≫= from_proto no_Tree size_digest) σ1.
Proof.
  destruct (execute_action_single_attempt
              (scripted_Execute
                 [{| messages := [done_operation]; finish := Status_default |}])
              (fixed_CancelOperation Status_default) no_Tree size_digest
              (parse_one "payload" response_exit_0) ensure_ok_text "inst" 2 10
              action_digest_1 false (client_process [])
              (List.Forall_nil _) eq_refl)
    as (σ1 & Ht & Ha & Hs & He).
  exists σ1. split; [exact Ht|]. split; [exact Ha|]. split; [exact Hs|].
  exact He.
Defined.

End ClientExtras.

(** ** env.cpp: further properties of [parse_environment] *)

Module EnvExtras.
Import Str Env StrFacts EnvFacts.
#[local] Arguments String.append !_ _ : simpl nomatch.

(** *** [parse_set] *)

Lemma parse_set_no_comma (s : string) (r : gset string) :
  mem "," s = false → parse_set s r = {[ s ]} ∪ r.
Proof.
  intros Hm. unfold parse_set. cbn [parse_set_loop].
  apply strchr_None in Hm. by rewrite Hm.
Qed.

Lemma parse_set_comma (a b : string) (r : gset string) :
  mem "," a = false →
  parse_set (a +:+ String "," b) r = parse_set b ({[ a ]} ∪ r).
Proof.
  intros Hm. unfold parse_set.
  set (rhs := parse_set_loop (S (String.length b)) b _).
  cbn [parse_set_loop].
  rewrite strchr_app by done.
  replace (S (String.length a)) with (String.length a + 1) by lia.
  rewrite drop_app_plus, take_app_length. cbn [drop].
  subst rhs. apply parse_set_loop_fuel; [|lia].
  rewrite str_length_app. simpl. lia.
Qed.

(** X25.  [parse_set] inserts exactly the items of a comma-separated list
    into the set, empty items included, and keeps what the set holds: the
    text of comma-free items written with commas between them gives their
    set, added to the old one.  In particular the empty text inserts the
    empty string. *)
Theorem parse_set_items (items : list string) (result : gset string) :
  items ≠ [] → Forall (λ x, mem "," x = false) items →
  parse_set (comma_join items) result = list_to_set items ∪ result.
Proof.
  intros Hne Hall. revert result.
  induction Hall as [|x items Hx Hall IH]; intros result; [done|].
  destruct items as [|y items].
  - cbn [comma_join list_to_set]. rewrite parse_set_no_comma by done.
    by rewrite (right_id_L ∅ (∪)).
  - change (comma_join (x :: y :: items))
      with (x +:+ String "," (comma_join (y :: items))).
    rewrite parse_set_comma by done. rewrite IH by done.
    change (list_to_set (x :: y :: items))
      with ({[ x ]} ∪ list_to_set (C := gset string) (y :: items)).
    rewrite (assoc_L (∪)), (comm_L (∪) _ {[ x ]}). done.
Qed.

Lemma parse_set_items_witness :
  parse_set "a.h,,b.h" {[ "old.h" ]} = {[ "a.h"; ""; "b.h"; "old.h" ]}
  ∧ parse_set "" ∅ = {[ "" ]}.
Proof.
  split.
  - rewrite (parse_set_items ["a.h"; ""; "b.h"] {[ "old.h" ]});
      [|done|by repeat constructor].
    cbn [list_to_set]. set_solver.
  - rewrite (parse_set_items [""] ∅); [|done|by repeat constructor].
    cbn [list_to_set]. set_solver.
Defined.

Lemma parse_set_loop_superset (fuel : nat) :
  ∀ (s : string) (r : gset string), r ⊆ parse_set_loop fuel s r.
Proof.
  induction fuel as [|fuel IH]; intros s r; [done|]. cbn [parse_set_loop].
  destruct (strchr s ","); [|set_solver].
  etrans; [|apply IH]. set_solver.
Qed.

Section Parse.
Variable strtol : string → Z.
Variable DEFAULT_RECC_SERVER : string.

(** *** String and map variables *)





Lemma strchr_app_l (a b : string) (c : ascii) (k : nat) :
  strchr a c = Some k → strchr (a +:+ b) c = Some k.
Proof.
  revert k. induction a as [|d a IH]; intros k; [done|]. simpl.
  destruct (Ascii.eqb d c); [done|].
  destruct (strchr a c) as [j|] eqn:E; [|done].
  intros [= <-]. by rewrite (IH j).
Qed.

Lemma strchr_app_r (a b : string) (c : ascii) :
  mem c a = false →
  strchr (a +:+ b) c = (λ k, String.length a + k) <$> strchr b c.
Proof.
  induction a as [|d a IH]; simpl; intros Hm.
  - by destruct (strchr b c).
  - apply orb_false_iff in Hm as [-> Hm]. rewrite IH by done.
    by destruct (strchr b c).
Qed.

(** X27.  An entry [NAME_key=value], for [NAME] one of the map variables,
    maps [key], the text between the prefix [NAME_] and the first ['='],
    to [value], everything after that ['='], in the map of [NAME]; the
    other entries of the map and all other variables stay. *)
Theorem mapvar_entry_key_value
    (c : config) (v : mapvar) (key value : string) :
  mem "=" key = false →
  parse_entry strtol c
    (mapvar_name v +:+ "_" +:+ key +:+ "=" +:+ value)
  = Some (set_map v (<[key := value]> (map c v)) c)
  ∧ map (set_map v (<[key := value]> (map c v)) c) v !! key = Some value
  ∧ ∀ key', key' ≠ key →
            map (set_map v (<[key := value]> (map c v)) c) v !! key'
            = map c v !! key'.
Proof.
  intros Hk. split; [|split].
  - assert (∀ prefix : string,
               mem "=" prefix = false →
               strchr (prefix +:+ key +:+ "=" +:+ value) "="
               = Some (String.length prefix + String.length key)
               ∧ take (String.length prefix + String.length key
                       - String.length prefix)
                      (drop (String.length prefix)
                            (prefix +:+ key +:+ "=" +:+ value)) = key
               ∧ drop (S (String.length prefix + String.length key))
                      (prefix +:+ key +:+ "=" +:+ value) = value) as Hcut.
    { intros prefix Hp. split; [|split].
      - rewrite strchr_app_r by done.
        change (key +:+ "=" +:+ value) with (key +:+ String "=" value).
        by rewrite strchr_app by done.
      - rewrite drop_app_length.
        replace (String.length prefix + String.length key
                 - String.length prefix) with (String.length key) by lia.
        apply take_app_length.
      - rewrite <- str_app_assoc.
        replace (S (String.length prefix + String.length key))
          with (String.length (prefix +:+ key) + 1)
          by (rewrite str_length_app; lia).
        by rewrite drop_app_plus. }
    destruct v.
    + destruct (Hcut "RECC_DEPS_ENV_" eq_refl) as (E1 & E2 & E3).
      unfold parse_entry. cbn [mapvar_name].
      change ("RECC_DEPS_ENV" +:+ "_" +:+ key +:+ "=" +:+ value)
        with ("RECC_DEPS_ENV_" +:+ key +:+ "=" +:+ value).
      rewrite E1.
      change (String.length ("RECC_DEPS_ENV" +:+ "_"))
        with (String.length "RECC_DEPS_ENV_").
      rewrite E2, E3. reflexivity.
    + destruct (Hcut "RECC_REMOTE_ENV_" eq_refl) as (E1 & E2 & E3).
      unfold parse_entry. cbn [mapvar_name].
      change ("RECC_REMOTE_ENV" +:+ "_" +:+ key +:+ "=" +:+ value)
        with ("RECC_REMOTE_ENV_" +:+ key +:+ "=" +:+ value).
      rewrite E1.
      change (String.length ("RECC_REMOTE_ENV" +:+ "_"))
        with (String.length "RECC_REMOTE_ENV_").
      rewrite E2, E3. reflexivity.
    + destruct (Hcut "RECC_REMOTE_PLATFORM_" eq_refl) as (E1 & E2 & E3).
      unfold parse_entry. cbn [mapvar_name].
      change ("RECC_REMOTE_PLATFORM" +:+ "_" +:+ key +:+ "=" +:+ value)
        with ("RECC_REMOTE_PLATFORM_" +:+ key +:+ "=" +:+ value).
      rewrite E1.
      change (String.length ("RECC_REMOTE_PLATFORM" +:+ "_"))
        with (String.length "RECC_REMOTE_PLATFORM_").
      rewrite E2, E3. reflexivity.
  - cbn. rewrite fn_lookup_insert. apply lookup_insert_eq.
  - intros key' Hne. cbn. rewrite fn_lookup_insert. by apply lookup_insert_ne.
Qed.

End Parse.


Lemma mapvar_entry_key_value_witness :
  parse_entry (λ _, 0%Z) empty_config "RECC_REMOTE_ENV_PATH=/bin:/usr/bin=x"
  = Some (set_map RECC_REMOTE_ENV
            (<["PATH" := "/bin:/usr/bin=x"]> (map empty_config RECC_REMOTE_ENV))
            empty_config).
Proof.
  apply (mapvar_entry_key_value (λ _, 0%Z) empty_config RECC_REMOTE_ENV
           "PATH" "/bin:/usr/bin=x").
  reflexivity.
Defined.


Section Chain.
Variable strtol : string → Z.
Variable DEFAULT_RECC_SERVER : string.

(** *** What the loop over the environment leaves alone *)

Lemma parse_entry_unrelated (c : config) (entry : string) :
  strncmp_eq entry "RECC_" 4 || strncmp_eq entry "TMPDIR" 6 = false →
  parse_entry strtol c entry = Some c.
Proof.
  intros [H1 H2]%orb_false_iff. unfold parse_entry. by rewrite H1, H2.
Qed.

(** X28.  Entries of the environment that start neither with ["RECC"] nor
    with ["TMPDIR"] play no part: [parse_environment] gives the same
    result with them and with them taken out. *)
Theorem parse_environment_ignores_unrelated
    (c : config) (environ : list string) :
  parse_environment strtol DEFAULT_RECC_SERVER c environ
  = parse_environment strtol DEFAULT_RECC_SERVER c
      (filter (λ e, strncmp_eq e "RECC_" 4 || strncmp_eq e "TMPDIR" 6 = true)
              environ).
Proof.
  unfold parse_environment. f_equal. revert c.
  induction environ as [|e environ IH]; intros c; [done|].
  destruct (strncmp_eq e "RECC_" 4 || strncmp_eq e "TMPDIR" 6) eqn:E.
  - rewrite filter_cons_True by done. cbn [parse_entries].
    destruct (parse_entry strtol c e); [apply IH | done].
  - rewrite filter_cons_False by (by rewrite E). cbn [parse_entries].
    rewrite parse_entry_unrelated by done. apply IH.
Qed.

(** One entry removes nothing from a set or from the keys of a map. *)
Lemma parse_entry_grows (c c' : config) (entry : string) :
  parse_entry strtol c entry = Some c' →
  (∀ v, set c v ⊆ set c' v) ∧ (∀ v, dom (map c v) ⊆ dom (map c' v)).
Proof.
  assert (∀ v s, (∀ w, set c w ⊆ set (set_set v (parse_set s (set c v)) c) w))
    as Hset.
  { intros v s w. unfold set_set. cbn [set].
    destruct (decide (w = v)) as [->|Hne].
    - rewrite fn_lookup_insert. unfold parse_set.
      apply parse_set_loop_superset.
    - by rewrite fn_lookup_insert_ne. }
  assert (∀ v k x, (∀ w, dom (map c w)
                         ⊆ dom (map (set_map v (<[k := x]> (map c v)) c) w)))
    as Hmap.
  { intros v k x w. cbn. destruct (decide (w = v)) as [->|Hne].
    - rewrite fn_lookup_insert, dom_insert. apply union_subseteq_r.
    - by rewrite fn_lookup_insert_ne. }
  unfold parse_entry.
  repeat match goal with
         | |- context [if ?b then _ else _] => destruct b
         | |- context [match strchr ?s ?ch with _ => _ end] =>
             destruct (strchr s ch)
         end;
    intros [= <-]; split; intros v; try done;
    try apply Hset; try apply Hmap.
Qed.

(** X29.  The set and map variables only grow while the environment is
    read: every item that is in a set, and every key that is in a map,
    before [parse_environment] is still there after it, whatever the
    entries are. *)
Theorem parse_environment_sets_and_maps_grow
    (c c' : config) (environ : list string) :
  parse_environment strtol DEFAULT_RECC_SERVER c environ = Some c' →
  (∀ v, set c v ⊆ set c' v) ∧ (∀ v, dom (map c v) ⊆ dom (map c' v)).
Proof.
  unfold parse_environment.
  destruct (parse_entries strtol c environ) as [c0|] eqn:E; [|done].
  intros [= <-].
  assert ((∀ v, set c v ⊆ set c0 v) ∧ (∀ v, dom (map c v) ⊆ dom (map c0 v)))
    as [Hs Hm].
  { revert c E. induction environ as [|e environ IH]; intros c E.
    - by injection E as ->.
    - cbn [parse_entries] in E.
      destruct (parse_entry strtol c e) as [c1|] eqn:E1; [|done].
      destruct (parse_entry_grows c c1 e E1) as [Hs1 Hm1].
      destruct (IH c1 E) as [Hs Hm].
      split; intros v; etrans; eauto. }
  unfold special_defaults.
  destruct (empty (str c0 RECC_SERVER));
    destruct (empty (str _ RECC_CAS_SERVER)); split; intros v; cbn;
    try apply Hs; apply Hm.
Qed.

(** X30.  The special defaults that end [parse_environment]: an empty
    RECC_SERVER becomes DEFAULT_RECC_SERVER, then an empty RECC_CAS_SERVER
    becomes the value of RECC_SERVER, and nothing else changes.  So the
    CAS server is empty in the end only if the server is, and the server
    only if the default is. *)
Theorem parse_environment_server_defaults
    (c c' : config) (environ : list string) :
  parse_environment strtol DEFAULT_RECC_SERVER c environ = Some c' →
  ∃ c0,
    parse_entries strtol c environ = Some c0
    ∧ str c' RECC_SERVER
      = (if empty (str c0 RECC_SERVER) then DEFAULT_RECC_SERVER
         else str c0 RECC_SERVER)
    ∧ str c' RECC_CAS_SERVER
      = (if empty (str c0 RECC_CAS_SERVER) then str c' RECC_SERVER
         else str c0 RECC_CAS_SERVER)
    ∧ (str c' RECC_CAS_SERVER = "" → str c' RECC_SERVER = "")
    ∧ (str c' RECC_SERVER = "" → DEFAULT_RECC_SERVER = "")
    ∧ (∀ v, v ≠ RECC_SERVER → v ≠ RECC_CAS_SERVER → str c' v = str c0 v)
    ∧ flag c' = flag c0 ∧ int c' = int c0
    ∧ set c' = set c0 ∧ map c' = map c0.
Proof.
  unfold parse_environment.
  destruct (parse_entries strtol c environ) as [c0|] eqn:E; [|done].
  intros [= <-]. exists c0. split; [done|]. unfold special_defaults.
  destruct (empty (str c0 RECC_SERVER)) eqn:E1.
  - assert (str (set_str RECC_SERVER DEFAULT_RECC_SERVER c0) RECC_CAS_SERVER
            = str c0 RECC_CAS_SERVER) as E0 by done.
    rewrite E0.
    destruct (empty (str c0 RECC_CAS_SERVER)) eqn:E2.
    + repeat split; try done.
      intros v H1 H2. cbn.
      rewrite fn_lookup_insert_ne by done. by rewrite fn_lookup_insert_ne.
    + repeat split; try done.
      * intros Hc. cbn in Hc. apply empty_false in E2.
        rewrite fn_lookup_insert_ne in Hc; done.
      * intros v H1 H2. cbn. by rewrite fn_lookup_insert_ne.
  - destruct (empty (str c0 RECC_CAS_SERVER)) eqn:E2.
    + repeat split; try done.
      * intros Hs. apply empty_false in E1. cbn in Hs.
        rewrite fn_lookup_insert_ne in Hs; done.
      * intros v H1 H2. cbn. by rewrite fn_lookup_insert_ne.
    + repeat split; try done.
      * intros Hc. by apply empty_false in E2.
      * intros Hs. by apply empty_false in E1.
Qed.

End Chain.

Lemma parse_environment_sets_and_maps_grow_witness :
  let c := set_set RECC_DEPS_OVERRIDE {[ "old.h" ]} empty_config in
  ∃ c',
    parse_environment (λ _, 0%Z) "localhost:8085" c
      ["RECC_DEPS_OVERRIDE=a.h,b.h"; "HOME=/root"] = Some c'
    ∧ (∀ v, set c v ⊆ set c' v)
    ∧ (∀ v, dom (map c v) ⊆ dom (map c' v)).
Proof.
  intros c. eexists. split; [reflexivity|].
  apply (parse_environment_sets_and_maps_grow (λ _, 0%Z) "localhost:8085" c _
           ["RECC_DEPS_OVERRIDE=a.h,b.h"; "HOME=/root"]).
  reflexivity.
Defined.

Lemma parse_environment_server_defaults_witness :
  ∃ c' c0,
    parse_environment (λ _, 0%Z) "localhost:8085" empty_config
      ["RECC_SERVER=somehost:1234"] = Some c'
    ∧ parse_entries (λ _, 0%Z) empty_config ["RECC_SERVER=somehost:1234"]
      = Some c0
    ∧ str c' RECC_SERVER = "somehost:1234"
    ∧ str c' RECC_CAS_SERVER = "somehost:1234".
Proof.
  eexists.
  destruct (parse_environment_server_defaults (λ _, 0%Z) "localhost:8085"
              empty_config _ ["RECC_SERVER=somehost:1234"] eq_refl)
    as (c0 & E0 & E1 & E2 & _).
  exists c0. split; [reflexivity|]. split; [exact E0|].
  injection E0 as <-. split; [exact E1|]. rewrite E2. exact E1.
Defined.

End EnvExtras.
